(** * perm: permutation generators and the lexicographic rank codec

    A shallow embedding of the Go package [perm] (perm.go and the file
    holding LexNextInt, LexNextSort, log2, LexRank and LexPerm), with the
    properties its specification states.

    Conventions of the embedding.
    - A Go [[]int] is a [list Z]; an index expression out of range is a
      run-time panic, modelled as [None].  Every function that indexes a
      slice therefore returns an [option]; [Some] is a normal return.
    - Go's [int] is 64 bits wide.  The generators only compare and move
      the elements of the slices, and index arithmetic stays within the
      length of a slice; the rank codec computes ranks with [*big.Int],
      which is exact, and counts and node indices bounded by the size of
      its tree.  No operation of the embedded code can wrap, and [int]
      and [*big.Int] are both [Z].
    - [ZPerm] is [[]int].
    - A closure with captured variables is a record of those variables
      and a step function that threads it. *)

From stdpp Require Import base option list numbers sorting.
From Stdlib Require Import ZArith Lia Permutation.

Local Open Scope Z_scope.

(** ** Slices *)

Module Slice.

(** [p[i], p[j] = p[j], p[i]]: both reads come first, then [p[i]] is
    written, then [p[j]]. *)
Definition swap {A} (p : list A) (i j : nat) : option (list A) :=
  match p !! i, p !! j with
  | Some x, Some y => Some (<[j:=x]> (<[i:=y]> p))
  | _, _ => None
  end.

(** [p[i] = v] *)
Definition store {A} (p : list A) (i : nat) (v : A) : option (list A) :=
  if decide (i < length p)%nat then Some (<[i:=v]> p) else None.

(** [t[i]] and [t[i] = v] with an [int] index. *)
Definition getZ (t : list Z) (i : Z) : option Z :=
  if 0 <=? i then t !! Z.to_nat i else None.

Definition setZ (t : list Z) (i v : Z) : option (list Z) :=
  if 0 <=? i then store t (Z.to_nat i) v else None.

End Slice.

(** ** Ints *)

Module Util.

(** [for i := range p { p[i] = i }] *)
Fixpoint ints_loop (ixs : list nat) (p : list Z) : option (list Z) :=
  match ixs with
  | [] => Some p
  | i :: ixs' =>
      match Slice.store p i (Z.of_nat i) with
      | Some p' => ints_loop ixs' p'
      | None => None
      end
  end.

(** [Ints(n)], for [n >= 0]. *)
Definition Ints (n : nat) : option (list Z) :=
  let p := replicate n 0 in
  ints_loop (seq 0 (length p)) p.

End Util.

(** ** LexNext and LexNextInt (next permutation in lexicographic order) *)

Module Lex.

(** [for ; p[k] >= p[k+1]; k-- { if k == 0 { return false } }]
    The result is [Some None] for the [return false] inside the loop and
    [Some (Some k)] when the loop condition fails at [k]. *)
Fixpoint find_k (p : list Z) (k : nat) : option (option nat) :=
  match p !! k, p !! S k with
  | Some a, Some b =>
      if a >=? b then
        match k with
        | O => Some None
        | S k' => find_k p k'
        end
      else Some (Some k)
  | _, _ => None
  end.

(** [for ; p[k] >= p[l]; l-- {}]; at [l = 0] the decrement gives [-1]
    and the next test indexes [p[-1]]. *)
Fixpoint find_l (p : list Z) (k l : nat) : option nat :=
  match p !! k, p !! l with
  | Some a, Some b =>
      if a >=? b then
        match l with
        | O => None
        | S l' => find_l p k l'
        end
      else Some l
  | _, _ => None
  end.

(** [for l, r := k+1, last; l < r; l, r = l+1, r-1 { p[l], p[r] = p[r], p[l] }] *)
Fixpoint reverse_loop (p : list Z) (l r : nat) {struct r} : option (list Z) :=
  if (l <? r)%nat then
    match Slice.swap p l r with
    | Some p' =>
        match r with
        | O => Some p'
        | S r' => reverse_loop p' (S l) r'
        end
    | None => None
    end
  else Some p.

(** The result pairs the returned boolean with the slice as the call
    leaves it. *)
Definition LexNext (p : list Z) : option (bool * list Z) :=
  if (length p <=? 1)%nat then Some (false, p)
  else
    let last := (length p - 1)%nat in
    match find_k p (last - 1) with
    | None => None
    | Some None => Some (false, p)
    | Some (Some k) =>
        match find_l p k last with
        | None => None
        | Some l =>
            match Slice.swap p k l with
            | None => None
            | Some p1 =>
                match reverse_loop p1 (S k) last with
                | None => None
                | Some p2 => Some (true, p2)
                end
            end
        end
    end.

Definition LexNextInt (p : list Z) : option (bool * list Z) :=
  if (length p <=? 1)%nat then Some (false, p)
  else
    let last := (length p - 1)%nat in
    match find_k p (last - 1) with
    | None => None
    | Some None => Some (false, p)
    | Some (Some k) =>
        match find_l p k last with
        | None => None
        | Some l =>
            match Slice.swap p k l with
            | None => None
            | Some p1 =>
                match reverse_loop p1 (S k) last with
                | None => None
                | Some p2 => Some (true, p2)
                end
            end
        end
    end.

(** *** LexNextSort, over Go's [sort.Interface] *)

(** [sort.Interface]: the methods are defined for indices in
    [0 .. Len()-1]; a call outside that range is [None]. *)
Class SortInterface (S : Type) := {
  Len : S → nat;
  Less : S → nat → nat → option bool;
  Swap : S → nat → nat → option S
}.

Section LexNextSort.
Context {S : Type} `{SortInterface S}.

Fixpoint sort_find_k (p : S) (k : nat) : option (option nat) :=
  match Less p k (Datatypes.S k) with
  | Some b =>
      if negb b then
        match k with
        | O => Some None
        | Datatypes.S k' => sort_find_k p k'
        end
      else Some (Some k)
  | None => None
  end.

Fixpoint sort_find_l (p : S) (k l : nat) : option nat :=
  match Less p k l with
  | Some b =>
      if negb b then
        match l with
        | O => None
        | Datatypes.S l' => sort_find_l p k l'
        end
      else Some l
  | None => None
  end.

Fixpoint sort_reverse_loop (p : S) (l r : nat) {struct r} : option S :=
  if (l <? r)%nat then
    match Swap p l r with
    | Some p' =>
        match r with
        | O => Some p'
        | Datatypes.S r' => sort_reverse_loop p' (Datatypes.S l) r'
        end
    | None => None
    end
  else Some p.

Definition LexNextSort (p : S) : option (bool * S) :=
  if (Len p <=? 1)%nat then Some (false, p)
  else
    let last := (Len p - 1)%nat in
    match sort_find_k p (last - 1) with
    | None => None
    | Some None => Some (false, p)
    | Some (Some k) =>
        match sort_find_l p k last with
        | None => None
        | Some l =>
            match Swap p k l with
            | None => None
            | Some p1 =>
                match sort_reverse_loop p1 (Datatypes.S k) last with
                | None => None
                | Some p2 => Some (true, p2)
                end
            end
        end
    end.
End LexNextSort.

(** Go's [sort.IntSlice]: [Len] is [len(x)], [Less(i, j)] is
    [x[i] < x[j]], [Swap(i, j)] is [x[i], x[j] = x[j], x[i]]. *)
#[export] Instance IntSlice : SortInterface (list Z) := {
  Len x := length x;
  Less x i j :=
    match x !! i, x !! j with
    | Some a, Some b => Some (a <? b)
    | _, _ => None
    end;
  Swap x i j := Slice.swap x i j
}.

(** *** Specification vocabulary for the lexicographic order *)

(** Strict lexicographic order, position 0 most significant. *)
Inductive lex_lt : list Z → list Z → Prop :=
| lex_lt_nil y ys : lex_lt [] (y :: ys)
| lex_lt_head x y xs ys : x < y → lex_lt (x :: xs) (y :: ys)
| lex_lt_tail x xs ys : lex_lt xs ys → lex_lt (x :: xs) (x :: ys).

Fixpoint lex_ltb (p q : list Z) : bool :=
  match p, q with
  | [], [] => false
  | [], _ :: _ => true
  | _ :: _, [] => false
  | x :: xs, y :: ys => (x <? y) || ((x =? y) && lex_ltb xs ys)
  end.

Fixpoint nonincreasing (p : list Z) : bool :=
  match p with
  | a :: t =>
      match t with
      | b :: _ => (b <=? a) && nonincreasing t
      | [] => true
      end
  | [] => true
  end.

Fixpoint nondecreasing (p : list Z) : bool :=
  match p with
  | a :: t =>
      match t with
      | b :: _ => (a <=? b) && nondecreasing t
      | [] => true
      end
  | [] => true
  end.

(** [for { visit(p); if !LexNextInt(p) { break } }]: the arrangements
    visited, in order.  [fuel] bounds the number of iterations. *)
Fixpoint lex_visits (fuel : nat) (p : list Z) : option (list (list Z)) :=
  match fuel with
  | O => None
  | S fuel' =>
      match LexNextInt p with
      | Some (true, q) => (p ::.) <$> lex_visits fuel' q
      | Some (false, _) => Some [p]
      | None => None
      end
  end.

(** The multiplicity of [v] in [p]. *)
Definition count (p : list Z) (v : Z) : nat := count_occ Z.eq_dec p v.

(** The product, over the distinct values of [p], of the factorials of
    their multiplicities. *)
Definition multiplicity_product (p : list Z) : nat :=
  foldr (λ v acc, fact (count p v) * acc)%nat 1%nat (remove_dups p).

(** The same product over a given list [D] of values. *)
Definition prodD (D p : list Z) : nat :=
  foldr (λ v acc, fact (count p v) * acc)%nat 1%nat D.

(** The same product, by recursion on [p]: each element contributes its
    rank among the equal elements that follow it, plus one. *)
Fixpoint mrec (p : list Z) : nat :=
  match p with
  | [] => 1%nat
  | a :: t => (S (count t a) * mrec t)%nat
  end.

(** [p] without the first occurrence of [v]. *)
Fixpoint remove_one (v : Z) (p : list Z) : list Z :=
  match p with
  | [] => []
  | a :: t => if decide (a = v) then t else a :: remove_one v t
  end.

(** The distinct arrangements of the multiset of [p], for [n] the length
    of [p]: one group per distinct first element. *)
Fixpoint arrangements (n : nat) (p : list Z) : list (list Z) :=
  match n with
  | O => [[]]
  | S n' => remove_dups p ≫= λ v, (v ::.) <$> arrangements n' (remove_one v p)
  end.

(** The number of arrangements in [all] that are greater than [p]. *)
Definition above (all : list (list Z)) (p : list Z) : nat :=
  length (filter (λ r, lex_ltb p r = true) all).

End Lex.


(** ** Plain changes *)

Module Plain.

(** [l] with [x] put in at index [i]. *)
Definition insert_at (i : nat) (x : Z) (l : list Z) : list Z :=
  take i l ++ x :: drop i l.

(** The index of the moving element among [m] others after [r] moves of
    its sweep number [b]: it comes down from the right end in the even
    sweeps and goes back up in the odd ones. *)
Definition sweep_pos (m b r : nat) : nat :=
  if Nat.even b then (m - r)%nat else r.

(** The [k]-th arrangement (counted from 0) of the order of plain changes,
    over the reversed slice: the last element of the slice is the moving
    one, and it is put into the [k / n]-th arrangement of the others. *)
Fixpoint plain_rev (rp : list Z) (k : nat) : list Z :=
  match rp with
  | [] => []
  | x :: rq =>
      let n := S (length rq) in
      insert_at (sweep_pos (length rq) (k / n) (k mod n)) x
                (plain_rev rq (k / n))
  end.

Definition plain_change (p : list Z) (k : nat) : list Z :=
  plain_rev (reverse p) k.

End Plain.


(** ** SJTRecursive: the recursive plain-changes generator *)

Module SJT.

(** The chain of closures built by [sjtr].  [Base] is the closure of
    [case 0, 1], which captures [perm]; [Level] is the closure of the
    [default] case, which captures [n], [perm], [i], [d] and the
    sub-generator [p0]. *)
Inductive gen : Type :=
| Base (perm : bool)
| Level (n : nat) (perm : bool) (i d : Z) (p0 : gen).

Fixpoint sjtr (n : nat) : gen :=
  match n with
  | O => Base true
  | S n' =>
      match n' with
      | O => Base true
      | S _ => Level n true (Z.of_nat n) 0 (sjtr n')
      end
  end.

(** [p[i], p[j] = p[j], p[i]] with [int] indices. *)
Definition swapZ (p : list Z) (i j : Z) : option (list Z) :=
  if (0 <=? i) && (0 <=? j) then Slice.swap p (Z.to_nat i) (Z.to_nat j)
  else None.

(** One call of the closure on the slice [p].  The result is the closure
    with its variables updated, the slice as the call leaves it, and the
    returned boolean.  A sub-slice [p[:i]] or [p[1:]] shares the array of
    [p]: what the sub-generator writes to it is written to [p], so the
    sub-slice is put back in place.  (Go allows [p[:i]] up to the capacity
    of [p]; the generator never slices beyond the length, and the model
    treats that as out of range.) *)
Fixpoint step (g : gen) (p : list Z) : option (gen * list Z * bool) :=
  match g with
  | Base perm => Some (Base false, p, perm)
  | Level n perm i d p0 =>
      if negb perm then Some (g, p, perm)
      else if i =? Z.of_nat n then
        let i := i - 1 in
        if (0 <=? i) && (i <=? Z.of_nat (length p)) then
          match step p0 (take (Z.to_nat i) p) with
          | Some (p0', q, perm') =>
              Some (Level n perm' i (-1) p0', q ++ drop (Z.to_nat i) p, perm')
          | None => None
          end
        else None
      else if i =? 0 then
        let i := i + 1 in
        if 1 <=? Z.of_nat (length p) then
          match step p0 (drop 1 p) with
          | Some (p0', q, perm') =>
              let p' := take 1 p ++ q in
              if negb perm' then
                match Slice.swap p' 0 1 with
                | Some p'' => Some (Level n perm' i 1 p0', p'', perm')
                | None => None
                end
              else Some (Level n perm' i 1 p0', p', perm')
          | None => None
          end
        else None
      else
        match swapZ p i (i - 1) with
        | Some p' => Some (Level n perm (i + d) d p0, p', perm)
        | None => None
        end
  end.

(** [SJTRecursive(p)] returns [func() bool { return f(p) }] with
    [f := sjtr(len(p))]: the iterator is the generator together with the
    slice it was built from. *)
Definition SJTRecursive (p : list Z) : gen := sjtr (length p).

(** [k] successive calls of the iterator: the final generator, the final
    slice and the booleans returned, in order. *)
Fixpoint calls (k : nat) (g : gen) (p : list Z)
  : option (gen * list Z * list bool) :=
  match k with
  | O => Some (g, p, [])
  | S k' =>
      match step g p with
      | Some (g', p', b) =>
          match calls k' g' p' with
          | Some (g'', p'', bs) => Some (g'', p'', b :: bs)
          | None => None
          end
      | None => None
      end
  end.

(** *** Invariants of the generator *)

(** The generator is exhausted. *)
Definition dead (g : gen) : Prop :=
  match g with
  | Base perm => perm = false
  | Level _ perm _ _ _ => perm = false
  end.

(** The closure [g] was built for slices of length [m]. *)
Definition fits (g : gen) (m : nat) : Prop :=
  match g with
  | Base _ => True
  | Level n _ _ _ _ => n = m
  end.

(** The captured variables are in range at every level: [i] is between 0
    and [n], and [d] is a direction while [i] is strictly between. *)
Fixpoint wfI (g : gen) : Prop :=
  match g with
  | Base _ => True
  | Level n perm i d sub =>
      (2 ≤ n)%nat ∧ fits sub (n - 1) ∧ wfI sub ∧
      (perm = true →
       0 ≤ i ≤ Z.of_nat n ∧ (0 < i < Z.of_nat n → d = 1 ∨ d = -1))
  end.

(** The innermost closure has been called. *)
Fixpoint started (g : gen) : Prop :=
  match g with
  | Base perm => perm = false
  | Level _ _ _ _ sub => started sub
  end.

End SJT.


(** ** LexRank and LexPerm: the lexicographic rank codec *)

Module Rank.

(** [for ; x > 0xff; x >>= 8 { n += 8 }] *)
Fixpoint log2_bytes (fuel : nat) (x : Z) (n : nat) : Z * nat :=
  match fuel with
  | O => (x, n)
  | S fuel' =>
      if x >? 255 then log2_bytes fuel' (Z.shiftr x 8) (n + 8) else (x, n)
  end.

(** [for ; x > 0; x >>= 1 { n++ }] *)
Fixpoint log2_bits (fuel : nat) (x : Z) (n : nat) : nat :=
  match fuel with
  | O => n
  | S fuel' => if x >? 0 then log2_bits fuel' (Z.shiftr x 1) (n + 1) else n
  end.

(** [log2]: an [int] has 63 value bits, so the first loop runs at most
    seven times and the second at most eight; the fuel given is enough
    for every [int]. *)
Definition log2 (x : Z) : nat :=
  let '(x, n) := log2_bytes 8 (x - 1) 0 in
  log2_bits 8 x n.

(** The number of binary digits of [y] (0 for [y <= 0]): what the two
    loops of [log2] count. *)
Definition bitlen (y : Z) : Z := if y <=? 0 then 0 else Z.log2 y + 1.

(** *** LexRank *)

(** The inner loop of [LexRank]:
    [for j := uint(0); j < k; j++ {
       if nd&1 == 1 { c -= t[nd&^1] }; t[nd]++; nd >>= 1 }] *)
Fixpoint rank_inner (j : nat) (t : list Z) (nd c : Z)
  : option (list Z * Z * Z) :=
  match j with
  | O => Some (t, nd, c)
  | S j' =>
      match (if Z.land nd 1 =? 1
             then option_map (λ x, c - x) (Slice.getZ t (Z.ldiff nd 1))
             else Some c) with
      | Some c' =>
          match Slice.getZ t nd with
          | Some v =>
              match Slice.setZ t nd (v + 1) with
              | Some t' => rank_inner j' t' (Z.shiftr nd 1) c'
              | None => None
              end
          | None => None
          end
      | None => None
      end
  end.

(** The loop [for i, c := range p] of [LexRank]; [n] is [len(p)] of the
    whole permutation, [i] the position of the head of [p]. *)
Fixpoint rank_loop (k n : nat) (p : list Z) (i : nat) (t : list Z) (r : Z)
  : option Z :=
  match p with
  | [] => Some r
  | c :: p' =>
      match rank_inner k t (Z.shiftl 1 (Z.of_nat k) + c) c with
      | Some (t1, nd, c1) =>
          match Slice.getZ t1 nd with
          | Some v =>
              match Slice.setZ t1 nd (v + 1) with
              | Some t2 =>
                  rank_loop k n p' (S i) t2
                            (r * (Z.of_nat n - Z.of_nat i) + c1)
              | None => None
              end
          | None => None
          end
      | None => None
      end
  end.

Definition LexRank (p : list Z) : option Z :=
  let k := log2 (Z.of_nat (length p)) in
  let t := replicate (Z.to_nat (Z.shiftl 1 (Z.of_nat k + 1))) 0 in
  rank_loop k (length p) p 0 t 0.

(** *** Specification vocabulary for the rank *)

(** The number of elements of [l] that satisfy [f]. *)
Fixpoint countb {A} (f : A → bool) (l : list A) : Z :=
  match l with
  | [] => 0
  | x :: l' => Z.b2z (f x) + countb f l'
  end.

(** The number of elements of [seen] that are smaller than [c]. *)
Definition smaller (seen : list Z) (c : Z) : Z := countb (λ u, u <? c) seen.

(** The rank by the Lehmer code, read from left to right: the digit of an
    element is the element minus the number of smaller elements before
    it, and the digit at index [i] of [n] has the radix [n - i]. *)
Fixpoint lehmer_loop (n : nat) (seen p : list Z) (i : nat) (r : Z) : Z :=
  match p with
  | [] => r
  | c :: p' =>
      lehmer_loop n (c :: seen) p' (S i)
                  (r * (Z.of_nat n - Z.of_nat i) + (c - smaller seen c))
  end.

Definition lehmer_rank (p : list Z) : Z := lehmer_loop (length p) [] p 0 0.

(** The same rank from right to left: the digit of an element is the
    number of smaller elements after it, with place value the factorial
    of the number of elements after it. *)
Fixpoint suffix_rank (p : list Z) : Z :=
  match p with
  | [] => 0
  | c :: p' => smaller p' c * Z.of_nat (fact (length p')) + suffix_rank p'
  end.

(** The number of arrangements in [all] that are lexicographically
    smaller than [p]. *)
Definition below (all : list (list Z)) (p : list Z) : Z :=
  countb (λ r, Lex.lex_ltb r p) all.

(** The leaf of the element [u] in the tree of depth [k] that [LexRank]
    keeps in the array [t]: the node [m] has the children [2m] and
    [2m+1], and the root is the node 1. *)
Definition leaf (k : nat) (u : Z) : Z := 2 ^ Z.of_nat k + u.

(** The number of elements of [U] whose leaf is in the subtree of the
    node [m]. *)
Definition tr (k : nat) (U : list Z) (m : Z) : Z :=
  countb (λ u, Z.shiftr (leaf k u) (Z.of_nat k - Z.log2 m) =? m) U.

(** The array [t] holds the function [f] on the nodes. *)
Definition repr (k : nat) (t : list Z) (f : Z → Z) : Prop :=
  Z.of_nat (length t) = 2 ^ (Z.of_nat k + 1) ∧
  ∀ m, 0 ≤ m < 2 ^ (Z.of_nat k + 1) → t !! Z.to_nat m = Some (f m).

(** The array and the corrected element after [i] rounds of the inner
    loop of [LexRank] for the element [c], the elements [U] having been
    ranked before. *)
Definition tr_part (k : nat) (U : list Z) (c : Z) (i : Z) (m : Z) : Z :=
  tr k U m +
  Z.b2z ((Z.of_nat k - Z.log2 m <? i) &&
         (Z.shiftr (leaf k c) (Z.of_nat k - Z.log2 m) =? m)).

Definition c_part (k : nat) (U : list Z) (c : Z) (i : Z) : Z :=
  c - countb (λ u, (u <? c) && (Z.shiftr (leaf k u) i =? Z.shiftr (leaf k c) i)) U.

(** *** LexPerm *)

(** Modelled from the spec: [NewFact] and the type [Fact] are not among
    the sources.  The spec gives the range check ("first verify
    0 <= r < n!; fail distinctly") and the digits ("factoradic digits,
    the factorial number system, by repeated division by the factorial
    radices").  The layout is the one [LexPerm] reads: it takes
    [f[len(f)-1]] for position 0 and writes the last position
    [len(f)] from what is left, so [f] has [n-1] digits and [f[i]] is the
    digit of place value [(i+1)!], in the range [0 .. i+1]; the spec's
    digit of place value [0!], which is always 0, is not stored.
    [None] is the failure [(nil, false)]. *)
Definition NewFact (r : Z) (n : nat) : option (list Z) :=
  if (0 <=? r) && (r <? Z.of_nat (fact n)) then
    Some (map (λ i, (r / Z.of_nat (fact (S i))) mod Z.of_nat (S (S i)))
              (seq 0 (n - 1)))
  else None.

(** [for j, end := uint(1), uint(1)<<i; j <= end; j++ {
       t[end+j-1] = 1 << (k - i) }], with [j] running over [js]. *)
Fixpoint init_row (k i : nat) (js : list nat) (t : list Z)
  : option (list Z) :=
  match js with
  | [] => Some t
  | j :: js' =>
      match Slice.setZ t (Z.shiftl 1 (Z.of_nat i) + Z.of_nat j - 1)
                 (Z.shiftl 1 (Z.of_nat k - Z.of_nat i)) with
      | Some t' => init_row k i js' t'
      | None => None
      end
  end.

(** [for i := uint(0); i <= k; i++ { ... }], with [i] running over [is]. *)
Fixpoint init_rows (k : nat) (rows : list nat) (t : list Z)
  : option (list Z) :=
  match rows with
  | [] => Some t
  | i :: rows' =>
      match init_row k i (seq 1 (2 ^ i)) t with
      | Some t' => init_rows k rows' t'
      | None => None
      end
  end.

(** [for j := uint(0); j < k; j++ {
       t[nd]--; nd <<= 1; if d >= t[nd] { d -= t[nd]; nd++ } }] *)
Fixpoint perm_inner (j : nat) (t : list Z) (nd d : Z)
  : option (list Z * Z * Z) :=
  match j with
  | O => Some (t, nd, d)
  | S j' =>
      match Slice.getZ t nd with
      | Some v =>
          match Slice.setZ t nd (v - 1) with
          | Some t1 =>
              let nd := Z.shiftl nd 1 in
              match Slice.getZ t1 nd with
              | Some w =>
                  if d >=? w then perm_inner j' t1 (nd + 1) (d - w)
                  else perm_inner j' t1 nd d
              | None => None
              end
          | None => None
          end
      | None => None
      end
  end.

(** [for i := len(f) - 1; i >= 0; i-- { ... }]: [ds] are the digits still
    to be read ([f[i]], [f[i-1]], ..., [f[0]]) and [pos] is
    [len(f)-i-1]. *)
Fixpoint perm_loop (k : nat) (k2 : Z) (ds : list Z) (pos : nat)
    (t p : list Z) : option (list Z * list Z) :=
  match ds with
  | [] => Some (t, p)
  | d :: ds' =>
      match perm_inner k t 1 d with
      | Some (t1, nd, _) =>
          match Slice.setZ t1 nd 0 with
          | Some t2 =>
              match Slice.store p pos (nd - k2) with
              | Some p1 => perm_loop k k2 ds' (S pos) t2 p1
              | None => None
              end
          | None => None
          end
      | None => None
      end
  end.

(** [for j := uint(0); j < k; j++ { nd <<= 1; nd += 1 - t[nd] }] *)
Fixpoint last_inner (j : nat) (t : list Z) (nd : Z) : option Z :=
  match j with
  | O => Some nd
  | S j' =>
      let nd := Z.shiftl nd 1 in
      match Slice.getZ t nd with
      | Some w => last_inner j' t (nd + (1 - w))
      | None => None
      end
  end.

(** The body of [LexPerm] after the call of [NewFact] has succeeded with
    the digits [f].  (The calls of [fmt.Println] are left out.) *)
Definition LexPerm_digits (f : list Z) (n : nat) : option (list Z) :=
  let p := replicate n 0 in
  let k := log2 (Z.of_nat n) in
  let k2 := Z.shiftl 1 (Z.of_nat k) in
  let t := replicate (Z.to_nat (Z.shiftl 1 (Z.of_nat k + 1))) 0 in
  match init_rows k (seq 0 (S k)) t with
  | Some t =>
      match perm_loop k k2 (reverse f) 0 t p with
      | Some (t, p) =>
          match last_inner k t 1 with
          | Some nd => Slice.store p (length f) (nd - k2)
          | None => None
          end
      | None => None
      end
  | None => None
  end.

(** [LexPerm(i, n)]: [None] is a run-time panic, [Some None] the return
    [(nil, false)] and [Some (Some p)] the return [(p, true)]. *)
Definition LexPerm (r : Z) (n : nat) : option (option (list Z)) :=
  match NewFact r n with
  | None => Some None
  | Some f =>
      match LexPerm_digits f n with
      | Some p => Some (Some p)
      | None => None
      end
  end.

(** *** Specification vocabulary for LexPerm *)

(** The table of [LexPerm] while the loops that fill it have reached the
    node [b]: the nodes from 1 up to [b - 1] hold the number of leaves
    below them. *)
Definition pref (k : nat) (b m : Z) : Z :=
  if (1 <=? m) && (m <? b) then 2 ^ (Z.of_nat k - Z.log2 m) else 0.

(** The number of elements of [A] that are smaller than [l] and in the
    subtree of height [i] that holds the leaf of [l]. *)
Definition d_part (k : nat) (A : list Z) (l : Z) (i : Z) : Z :=
  countb (λ u, (u <? l) && (Z.shiftr (leaf k u) i =? Z.shiftr (leaf k l) i)) A.

(** The table during the descent of [LexPerm] to the leaf of [l]: the
    nodes of the path at a height above [i] have been decremented. *)
Definition tr_desc (k : nat) (A : list Z) (l : Z) (i : Z) (m : Z) : Z :=
  tr k A m -
  Z.b2z ((i <? Z.of_nat k - Z.log2 m) &&
         (Z.shiftr (leaf k l) (Z.of_nat k - Z.log2 m) =? m)).

(** The value of the digits [ds] read from the most significant one, which
    belongs to an element with [m - 1] elements after it. *)
Fixpoint digits_rev_value (ds : list Z) (m : nat) : Z :=
  match ds with
  | [] => 0
  | d :: ds' => d * Z.of_nat (fact (m - 1)) + digits_rev_value ds' (m - 1)
  end.

(** The value of the factoradic digits [f] as [LexPerm] reads them:
    [f[i]] has the place value [(i+1)!]. *)
Fixpoint digits_value_from (i : nat) (f : list Z) : Z :=
  match f with
  | [] => 0
  | d :: f' => d * Z.of_nat (fact (S i)) + digits_value_from (S i) f'
  end.

Definition digits_value (f : list Z) : Z := digits_value_from 0 f.

End Rank.



(** ** SJTE: the iterative plain-changes generator with Even's speedup *)

Module SJTE.

(** The variables captured by the closure that [SJTE] returns. *)
Record state : Type := State { sn : nat; sp : list Z; sd : list Z }.

(** [for i := range p[1:] { p[i+1] = i; d[i] = -1 }] *)
Fixpoint init_loop (ixs : list nat) (p d : list Z)
  : option (list Z * list Z) :=
  match ixs with
  | [] => Some (p, d)
  | i :: ixs' =>
      match Slice.store p (S i) (Z.of_nat i) with
      | Some p' =>
          match Slice.store d i (-1) with
          | Some d' => init_loop ixs' p' d'
          | None => None
          end
      | None => None
      end
  end.

(** [SJTE(n)], for [n >= 0]: the state of the closure it returns. *)
Definition SJTE (n : nat) : option state :=
  let p := replicate (n + 2) 0 in
  let d := replicate (n + 2) 0 in
  match Slice.store p 0 (Z.of_nat n) with
  | Some p =>
      match init_loop (seq 0 (length p - 1)) p d with
      | Some (p, d) => Some (State n p d)
      | None => None
      end
  | None => None
  end.

(** The slice [p[1 : n+1 : n+1]] that [SJTE] returns; it shares the array
    of [p]. *)
Definition view (s : state) : list Z := take (sn s) (drop 1 (sp s)).

(** [for i := 1; i <= n; i++ {
       if v := p[i]; v > max && v > p[i+d[i]] { max = v; k = i } }]
    The second operand of [&&] is evaluated only when the first holds. *)
Fixpoint find_mobile (ixs : list nat) (p d : list Z) (k max : Z)
  : option (Z * Z) :=
  match ixs with
  | [] => Some (k, max)
  | i :: ixs' =>
      match p !! i with
      | Some v =>
          if v >? max then
            match d !! i with
            | Some di =>
                match Slice.getZ p (Z.of_nat i + di) with
                | Some w =>
                    if v >? w then find_mobile ixs' p d (Z.of_nat i) v
                    else find_mobile ixs' p d k max
                | None => None
                end
            | None => None
            end
          else find_mobile ixs' p d k max
      | None => None
      end
  end.

(** [for i := 3; i <= n; i++ { d[i] = -1 }] *)
Fixpoint reset_dirs (ixs : list nat) (d : list Z) : option (list Z) :=
  match ixs with
  | [] => Some d
  | i :: ixs' =>
      match Slice.store d i (-1) with
      | Some d' => reset_dirs ixs' d'
      | None => None
      end
  end.

(** [for i := 1; i <= n; i++ { if p[i] > max { d[i] = -d[i] } }] *)
Fixpoint flip_dirs (ixs : list nat) (p d : list Z) (max : Z)
  : option (list Z) :=
  match ixs with
  | [] => Some d
  | i :: ixs' =>
      match p !! i with
      | Some v =>
          if v >? max then
            match d !! i with
            | Some di =>
                match Slice.store d i (- di) with
                | Some d' => flip_dirs ixs' p d' max
                | None => None
                end
            | None => None
            end
          else flip_dirs ixs' p d max
      | None => None
      end
  end.

(** One call of the step function: the state it leaves and the boolean
    it returns. *)
Definition step (s : state) : option (state * bool) :=
  let n := sn s in
  let p := sp s in
  let d := sd s in
  match find_mobile (seq 1 n) p d 0 (-1) with
  | None => None
  | Some (k, max) =>
      if k =? 0 then
        (* p[1], p[2] = 0, 1 *)
        match Slice.store p 1 0 with
        | Some p1 =>
            match Slice.store p1 2 1 with
            | Some p2 =>
                match reset_dirs (seq 3 (n - 2)) d with
                | Some d' => Some (State n p2 d', false)
                | None => None
                end
            | None => None
            end
        | None => None
        end
      else
        match Slice.getZ d k with
        | Some dk =>
            let nx := k + dk in
            (* p[k], p[nx] = p[nx], max *)
            match Slice.getZ p nx with
            | Some pnx =>
                match Slice.setZ p k pnx with
                | Some p1 =>
                    match Slice.setZ p1 nx max with
                    | Some p2 =>
                        (* d[k], d[nx] = d[nx], d[k] *)
                        match Slice.getZ d nx with
                        | Some dnx =>
                            match Slice.setZ d k dnx with
                            | Some d1 =>
                                match Slice.setZ d1 nx dk with
                                | Some d2 =>
                                    match flip_dirs (seq 1 n) p2 d2 max with
                                    | Some d3 => Some (State n p2 d3, true)
                                    | None => None
                                    end
                                | None => None
                                end
                            | None => None
                            end
                        | None => None
                        end
                    | None => None
                    end
                | None => None
                end
            | None => None
            end
        | None => None
        end
  end.

(** [k] successive calls of the step function: the final state and the
    booleans returned, in order. *)
Fixpoint calls (k : nat) (s : state) : option (state * list bool) :=
  match k with
  | O => Some (s, [])
  | S k' =>
      match step s with
      | Some (s', b) =>
          match calls k' s' with
          | Some (s'', bs) => Some (s'', b :: bs)
          | None => None
          end
      | None => None
      end
  end.

(** *** The state as a list of cells *)

(** A position of the permutation with its direction flag. *)
Abbreviation cell := (Z * Z)%type.

Definition amax (acc : option (nat * Z)) : Z :=
  match acc with
  | None => -1
  | Some (_, m) => m
  end.

(** The search for the mobile element over the cells [cs], the first of
    which is at index [i] of the arrays.  [prev] and [nend] are the
    values next to the first and the last cell, [None] for a guard. *)
Fixpoint scan (prev : option Z) (cs : list cell) (nend : option Z)
    (i : nat) (acc : option (nat * Z)) : option (nat * Z) :=
  match cs with
  | [] => acc
  | (v, dv) :: cs' =>
      let nxt := match cs' with [] => nend | (w, _) :: _ => Some w end in
      let nb := if dv =? -1 then prev else nxt in
      let acc' :=
        if (v >? amax acc) && (match nb with Some w => v >? w | None => false end)
        then Some (i, v) else acc in
      scan (Some v) cs' nend (S i) acc'
  end.

Definition swap_at (j : nat) (cs : list cell) : list cell :=
  match cs !! j, cs !! S j with
  | Some a, Some b => <[S j:=a]> (<[j:=b]> cs)
  | _, _ => cs
  end.

Definition flip (max : Z) (c : cell) : cell :=
  if c.1 >? max then (c.1, - c.2) else c.

Definition rollover (cs : list cell) : list cell :=
  match cs with
  | (_, e0) :: (_, e1) :: rest => (0, e0) :: (1, e1) :: map (λ c : cell, (c.1, -1)) rest
  | _ => cs
  end.

(** The step function on cells: what [step] does to the cells of a state
    whose guards are at least as large as every element. *)
Definition astep (cs : list cell) : list cell * bool :=
  match scan None cs None 1 None with
  | None => (rollover cs, false)
  | Some (k, max) =>
      match cs !! (k - 1)%nat with
      | Some (_, dk) =>
          let j := if dk =? -1 then (k - 2)%nat else (k - 1)%nat in
          (map (flip max) (swap_at j cs), true)
      | None => (cs, true)
      end
  end.

Fixpoint acalls (k : nat) (cs : list cell) : list cell * list bool :=
  match k with
  | O => (cs, [])
  | S k' =>
      let '(cs', b) := astep cs in
      let '(cs'', bs) := acalls k' cs' in
      (cs'', b :: bs)
  end.

(** The arrays of a state whose cells are [cs], with guard values [gl]
    and [gr] and the flags [d0] and [d1] of the guard cells. *)
Definition embed (n : nat) (gl gr d0 d1 : Z) (cs : list cell) : state :=
  State n (gl :: map fst cs ++ [gr]) (d0 :: map snd cs ++ [d1]).

Definition init_cells (n : nat) : list cell :=
  map (λ i : nat, (Z.of_nat i, -1)) (seq 0 n).

Definition init (n : nat) : state :=
  embed n (Z.of_nat n) (Z.of_nat n) (-1) 0 (init_cells n).

(** *** Vocabulary for the proofs about SJTE *)

(** The value that follows the cells [cs], and the value that precedes
    what comes after them. *)
Definition hdv (cs : list cell) (nend : option Z) : option Z :=
  match cs with
  | [] => nend
  | (w, _) :: _ => Some w
  end.

Fixpoint lastv (prev : option Z) (cs : list cell) : option Z :=
  match cs with
  | [] => prev
  | (w, _) :: cs' => lastv (Some w) cs'
  end.

Definition shift (δ : nat) (acc : option (nat * Z)) : option (nat * Z) :=
  match acc with
  | None => None
  | Some (k, m) => Some ((δ + k)%nat, m)
  end.

(** The variables [k] and [max] of the search, from its accumulator. *)
Definition enck (acc : option (nat * Z)) : Z :=
  match acc with
  | None => 0
  | Some (k, _) => Z.of_nat k
  end.

Definition nb_ok (o : option Z) (w : Z) (cs : list cell) : Prop :=
  match o with
  | Some u => w = u
  | None => Forall (λ c : cell, c.1 ≤ w) cs
  end.

Definition dirs_ok (cs : list cell) : Prop :=
  Forall (λ c : cell, c.2 = 1 ∨ c.2 = -1) cs.

End SJTE.

(** * Properties of LexNext, LexNextInt and LexNextSort *)

Module LexFacts.
Import Lex.
Local Open Scope Z_scope.

(** ** LexNextSort at [sort.IntSlice] *)

Lemma sort_find_k_IntSlice (p : list Z) k : sort_find_k p k = find_k p k.
Proof.
  induction k as [|k IH]; simpl;
    destruct (p !! _) as [a|]; try reflexivity;
    destruct (p !! _) as [b|]; try reflexivity;
    rewrite Z.geb_leb, Z.leb_antisym; destruct (a <? b); simpl; auto.
Qed.

Lemma sort_find_l_IntSlice (p : list Z) k l : sort_find_l p k l = find_l p k l.
Proof.
  induction l as [|l IH]; simpl;
    destruct (p !! k) as [a|]; try reflexivity;
    destruct (p !! _) as [b|]; try reflexivity;
    rewrite Z.geb_leb, Z.leb_antisym; destruct (a <? b); simpl; auto.
Qed.

Lemma sort_reverse_loop_IntSlice (p : list Z) l r :
  sort_reverse_loop p l r = reverse_loop p l r.
Proof.
  revert p l; induction r as [|r IH]; intros p l; simpl.
  - reflexivity.
  - destruct (Slice.swap p l (S r)); [|reflexivity].
    destruct (l <? S r)%nat; [apply IH|reflexivity].
Qed.

(** C9.  Applied to an int slice through [sort.IntSlice], [LexNextSort]
    returns the same boolean as [LexNextInt] and leaves the elements in
    the same arrangement (and it panics in no case where [LexNextInt]
    does not). *)
Theorem LexNextSort_IntSlice_eq (p : list Z) : LexNextSort p = LexNextInt p.
Proof.
  unfold LexNextSort, LexNextInt; simpl.
  destruct (length p <=? 1)%nat; [reflexivity|].
  rewrite sort_find_k_IntSlice.
  destruct (find_k _ _) as [[k|]|]; try reflexivity.
  rewrite sort_find_l_IntSlice.
  destruct (find_l _ _ _) as [l|]; [|reflexivity].
  destruct (Slice.swap p k l) as [p1|]; [|reflexivity].
  rewrite sort_reverse_loop_IntSlice; reflexivity.
Qed.

(** ** The loops of LexNext *)

Lemma nonincreasing_lookup p :
  nonincreasing p = true ↔
  ∀ i x y, p !! i = Some x → p !! S i = Some y → y ≤ x.
Proof.
  induction p as [|a t IH]; [split; [intros _ [|i] ?? H; inversion H|done]|].
  destruct t as [|b t].
  { split; [intros _ [|i] ?? H1 H2; inversion H2|done]. }
  change (nonincreasing (a :: b :: t)) with ((b <=? a) && nonincreasing (b :: t)).
  rewrite andb_true_iff, Z.leb_le, IH. split.
  - intros [Hab Ht] [|i] x y H1 H2.
    + simpl in H1, H2. by simplify_eq.
    + by apply (Ht i).
  - intros Hall. split; [by apply (Hall 0%nat)|].
    intros i x y H1 H2. by apply (Hall (S i)).
Qed.

Lemma geb_false a b : (a >=? b) = false ↔ a < b.
Proof. rewrite Z.geb_leb. apply Z.leb_gt. Qed.

Lemma geb_true a b : (a >=? b) = true ↔ b ≤ a.
Proof. rewrite Z.geb_leb. apply Z.leb_le. Qed.

Lemma find_k_none p k :
  (S k < length p)%nat →
  (∀ i x y, (i ≤ k)%nat → p !! i = Some x → p !! S i = Some y → y ≤ x) →
  find_k p k = Some None.
Proof.
  intros Hk Hp. induction k as [|k IH]; simpl;
    destruct (lookup_lt_is_Some_2 p _ Hk) as [b Hb];
    destruct (lookup_lt_is_Some_2 p _ (Nat.lt_succ_l _ _ Hk)) as [a Ha];
    rewrite Ha, Hb;
    (assert (E : (a >=? b) = true) by (apply geb_true; eapply Hp; eauto));
    rewrite E; [done|].
  apply IH; [lia|]. intros i x y Hi. apply Hp. lia.
Qed.

Lemma find_k_some p k0 k a b :
  (k0 ≤ k)%nat → (S k < length p)%nat →
  p !! k0 = Some a → p !! S k0 = Some b → a < b →
  (∀ i x y, (k0 < i ≤ k)%nat → p !! i = Some x → p !! S i = Some y → y ≤ x) →
  find_k p k = Some (Some k0).
Proof.
  intros Hle Hk Ha Hb Hab Hp. induction k as [|k IH].
  - assert (k0 = 0)%nat as -> by lia. simpl. rewrite Ha, Hb.
    by rewrite (proj2 (geb_false a b) Hab).
  - destruct (decide (k0 = S k)) as [->|Hne].
    + simpl. simpl in Hb. rewrite Ha, Hb. by rewrite (proj2 (geb_false a b) Hab).
    + destruct (lookup_lt_is_Some_2 p _ Hk) as [y Hy].
      destruct (lookup_lt_is_Some_2 p _ (Nat.lt_succ_l _ _ Hk)) as [x Hx].
      simpl. simpl in Hy. rewrite Hx, Hy.
      assert (E : (x >=? y) = true) by (apply geb_true; eapply (Hp (S k)); eauto; lia).
      rewrite E. apply IH; [lia|lia|]. intros i ?? Hi. apply Hp. lia.
Qed.

Lemma find_l_some p k l0 l a b :
  (l0 ≤ l)%nat → (l < length p)%nat →
  p !! k = Some a → p !! l0 = Some b → a < b →
  (∀ i x, (l0 < i ≤ l)%nat → p !! i = Some x → x ≤ a) →
  find_l p k l = Some l0.
Proof.
  intros Hle Hl Ha Hb Hab Hp. induction l as [|l IH].
  - assert (l0 = 0)%nat as -> by lia. simpl. rewrite Ha, Hb.
    by rewrite (proj2 (geb_false a b) Hab).
  - destruct (decide (l0 = S l)) as [->|Hne].
    + simpl. rewrite Ha, Hb. by rewrite (proj2 (geb_false a b) Hab).
    + destruct (lookup_lt_is_Some_2 p _ Hl) as [x Hx].
      simpl. rewrite Ha, Hx.
      assert (E : (a >=? x) = true) by (apply geb_true; eapply (Hp (S l)); eauto; lia).
      rewrite E. apply IH; [lia|lia|]. intros i ? Hi. apply Hp. lia.
Qed.

Lemma swap_app {A} (pre : list A) a mid b post :
  Slice.swap (pre ++ a :: mid ++ b :: post) (length pre)
             (length pre + S (length mid))
  = Some (pre ++ b :: mid ++ a :: post).
Proof.
  unfold Slice.swap.
  rewrite list_lookup_middle by done.
  rewrite lookup_app_r by lia.
  replace (length pre + S (length mid) - length pre)%nat with (S (length mid)) by lia.
  simpl. rewrite list_lookup_middle by done.
  f_equal.
  rewrite (insert_app_r_alt pre _ (length pre)) by lia.
  rewrite Nat.sub_diag. simpl.
  rewrite insert_app_r_alt by lia.
  replace (length pre + S (length mid) - length pre)%nat with (S (length mid)) by lia.
  simpl. rewrite insert_app_r_alt by lia.
  by rewrite Nat.sub_diag.
Qed.

Lemma reverse_loop_S p l r :
  reverse_loop p l (S r) =
  if (l <? S r)%nat then
    match Slice.swap p l (S r) with
    | Some p' => reverse_loop p' (S l) r
    | None => None
    end
  else Some p.
Proof. reflexivity. Qed.

Lemma reverse_loop_app n : ∀ pre mid post,
  length mid = n →
  reverse_loop (pre ++ mid ++ post) (length pre) (length pre + length mid - 1)
  = Some (pre ++ reverse mid ++ post).
Proof.
  induction n as [n IH] using lt_wf_ind. intros pre mid post Hn.
  destruct mid as [|x m'].
  { simpl. replace (length pre + 0 - 1)%nat with (length pre - 1)%nat by lia.
    destruct (length pre - 1)%nat eqn:E; simpl; [done|].
    rewrite (proj2 (Nat.ltb_ge _ _)) by lia. done. }
  destruct (decide (m' = [])) as [->|Hne].
  { simpl. replace (length pre + 1 - 1)%nat with (length pre) by lia.
    destruct (length pre) eqn:E; simpl; [done|].
    rewrite (proj2 (Nat.ltb_ge _ _)) by lia. done. }
  destruct (exists_last Hne) as (m & y & ->).
  replace (x :: m ++ [y]) with (x :: m ++ [y]) by done.
  rewrite length_cons, length_app. simpl length.
  replace (length pre + S (length m + 1) - 1)%nat with (S (length pre + length m)) by lia.
  rewrite reverse_loop_S.
  rewrite (proj2 (Nat.ltb_lt _ _)) by lia.
  replace ((x :: m ++ [y]) ++ post) with (x :: m ++ y :: post)
    by (simpl; by rewrite <- app_assoc).
  replace (S (length pre + length m)) with (length pre + S (length m))%nat by lia.
  rewrite swap_app.
  replace (pre ++ y :: m ++ x :: post) with ((pre ++ [y]) ++ m ++ (x :: post))
    by (by rewrite <- app_assoc).
  replace (S (length pre)) with (length (pre ++ [y]))
    by (rewrite length_app; simpl; lia).
  replace (length pre + length m)%nat with (length (pre ++ [y]) + length m - 1)%nat
    by (rewrite length_app; simpl; lia).
  rewrite (IH (length m)); [|simpl in Hn; rewrite length_app in Hn; simpl in Hn; lia|done].
  f_equal. rewrite reverse_cons, reverse_app. simpl.
  rewrite <- !app_assoc. done.
Qed.

(** ** Sortedness *)

Lemma nonincreasing_Sorted p :
  nonincreasing p = true ↔ Sorted (flip Z.le) p.
Proof.
  induction p as [|a t IH]; [split; [constructor|done]|].
  destruct t as [|b t]; [split; [repeat constructor|done]|].
  change (nonincreasing (a :: b :: t)) with ((b <=? a) && nonincreasing (b :: t)).
  rewrite andb_true_iff, Z.leb_le, IH. split.
  - intros [? ?]. constructor; [done|by constructor].
  - intros Hs. apply Sorted_inv in Hs as [? Hh]. by inversion Hh.
Qed.

Lemma nondecreasing_Sorted p :
  nondecreasing p = true ↔ Sorted Z.le p.
Proof.
  induction p as [|a t IH]; [split; [constructor|done]|].
  destruct t as [|b t]; [split; [repeat constructor|done]|].
  change (nondecreasing (a :: b :: t)) with ((a <=? b) && nondecreasing (b :: t)).
  rewrite andb_true_iff, Z.leb_le, IH. split.
  - intros [? ?]. constructor; [done|by constructor].
  - intros Hs. apply Sorted_inv in Hs as [? Hh]. by inversion Hh.
Qed.

#[local] Instance flip_le_trans : Transitive (flip Z.le).
Proof. intros x y z; unfold flip; lia. Qed.

Lemma nonincreasing_SS p :
  nonincreasing p = true ↔ StronglySorted (flip Z.le) p.
Proof.
  rewrite nonincreasing_Sorted. split.
  - apply Sorted_StronglySorted. apply _.
  - apply StronglySorted_Sorted.
Qed.

Lemma nondecreasing_SS p :
  nondecreasing p = true ↔ StronglySorted Z.le p.
Proof.
  rewrite nondecreasing_Sorted. split.
  - apply Sorted_StronglySorted. apply _.
  - apply StronglySorted_Sorted.
Qed.

Lemma nondecreasing_reverse p :
  nonincreasing p = true → nondecreasing (reverse p) = true.
Proof.
  rewrite nonincreasing_Sorted, nondecreasing_Sorted.
  intros Hs. apply (Sorted_reverse (flip Z.le)) in Hs. exact Hs.
Qed.

Lemma nonincreasing_reverse p :
  nondecreasing p = true → nonincreasing (reverse p) = true.
Proof.
  rewrite nonincreasing_Sorted, nondecreasing_Sorted.
  apply (Sorted_reverse Z.le).
Qed.

(** ** The pivot and its successor *)

(** The pivot: the last position whose element is smaller than its
    successor. *)
Lemma pivot_exists p :
  nonincreasing p = false →
  ∃ pre a c suf, p = pre ++ a :: c :: suf ∧ a < c ∧
                 nonincreasing (c :: suf) = true.
Proof.
  induction p as [|a t IH]; [done|].
  destruct t as [|c t]; [done|].
  change (nonincreasing (a :: c :: t)) with ((c <=? a) && nonincreasing (c :: t)).
  destruct (nonincreasing (c :: t)) eqn:Ht.
  - rewrite andb_true_r. intros Hca%Z.leb_gt.
    by exists [], a, c, t.
  - intros _. destruct IH as (pre & a' & c' & suf & -> & ? & ?); [done|].
    by exists (a :: pre), a', c', suf.
Qed.

(** The successor: the last element of the non-increasing tail that is
    greater than the pivot. *)
Lemma successor_exists a suf :
  nonincreasing suf = true → (∃ c t, suf = c :: t ∧ a < c) →
  ∃ s1 b s2, suf = s1 ++ b :: s2 ∧ a < b ∧
             Forall (λ x, a < x) s1 ∧ Forall (λ x, x ≤ a) s2.
Proof.
  induction suf as [|c t IH]; intros Hs (c' & t' & Heq & Hlt); [done|].
  simplify_eq.
  destruct t' as [|d t].
  { exists [], c', []. by repeat split. }
  destruct (decide (a < d)) as [Had|Had].
  - destruct IH as (s1 & b & s2 & Heq & ? & ? & ?).
    { apply nonincreasing_SS in Hs. apply nonincreasing_SS.
      by apply StronglySorted_inv in Hs as [? _]. }
    { by exists d, t. }
    exists (c' :: s1), b, s2. rewrite Heq. repeat split; auto.
  - exists [], c', (d :: t). repeat split; auto.
    apply nonincreasing_SS in Hs. apply StronglySorted_inv in Hs as [Hs _].
    apply StronglySorted_inv in Hs as [_ Hd].
    constructor; [lia|]. eapply Forall_impl; [exact Hd|]. unfold flip. simpl. lia.
Qed.

Lemma lookup_app_cons_r {A} (pre : list A) a suf i :
  (length pre < i)%nat →
  (pre ++ a :: suf) !! i = suf !! (i - length pre - 1)%nat.
Proof.
  intros Hi. rewrite lookup_app_r by lia.
  destruct (i - length pre)%nat as [|j] eqn:E; [lia|].
  simpl. f_equal. lia.
Qed.

Lemma LexNext_pivot pre a s1 b s2 :
  nonincreasing (s1 ++ b :: s2) = true → a < b →
  Forall (λ x, a < x) s1 → Forall (λ x, x ≤ a) s2 →
  LexNext (pre ++ a :: s1 ++ b :: s2)
  = Some (true, pre ++ b :: reverse (s1 ++ a :: s2)).
Proof.
  intros Hsuf Hab Hs1 Hs2.
  set (suf := s1 ++ b :: s2) in *.
  set (p := pre ++ a :: suf).
  assert (Hlen : length p = (length pre + S (length s1 + S (length s2)))%nat).
  { unfold p, suf. rewrite length_app. simpl. rewrite length_app. simpl. lia. }
  assert (Hc : ∃ c, suf !! 0%nat = Some c ∧ a < c).
  { unfold suf. destruct s1 as [|c s1]; simpl; [eauto|].
    exists c. split; [done|]. by apply Forall_cons in Hs1 as [? _]. }
  destruct Hc as (c & Hc & Hac).
  unfold LexNext. fold p. rewrite Hlen.
  rewrite (proj2 (Nat.leb_gt _ _)) by lia.
  cbv zeta.
  rewrite (find_k_some p (length pre) _ a c); [|lia|lia| | |done|].
  2:{ unfold p. by apply list_lookup_middle. }
  2:{ unfold p. rewrite lookup_app_cons_r by lia.
      by replace (S (length pre) - length pre - 1)%nat with 0%nat by lia. }
  2:{ intros i x y Hi. unfold p. rewrite !lookup_app_cons_r by lia.
      replace (S i - length pre - 1)%nat with (S (i - length pre - 1)) by lia.
      by apply nonincreasing_lookup. }
  rewrite (find_l_some p (length pre) (length pre + S (length s1)) _ a b);
    [|lia|lia| | |done|].
  2:{ unfold p. by apply list_lookup_middle. }
  2:{ unfold p, suf. rewrite lookup_app_cons_r by lia.
      apply list_lookup_middle. lia. }
  2:{ intros i x Hi. unfold p, suf. rewrite lookup_app_cons_r by lia.
      rewrite lookup_app_cons_r by lia. intros Hx.
      by apply (Forall_lookup_1 _ _ _ _ Hs2 Hx). }
  unfold p, suf. rewrite swap_app.
  replace (pre ++ b :: s1 ++ a :: s2)
    with ((pre ++ [b]) ++ (s1 ++ a :: s2) ++ []).
  2:{ rewrite app_nil_r, <- app_assoc. done. }
  replace (S (length pre)) with (length (pre ++ [b]))
    by (rewrite length_app; simpl; lia).
  replace (length pre + S (length s1 + S (length s2)) - 1)%nat
    with (length (pre ++ [b]) + length (s1 ++ a :: s2) - 1)%nat.
  2:{ rewrite !length_app. simpl. lia. }
  rewrite (reverse_loop_app _ _ _ _ eq_refl).
  rewrite app_nil_r, <- app_assoc. done.
Qed.

Lemma LexNext_last p :
  nonincreasing p = true → LexNext p = Some (false, p).
Proof.
  intros Hp. unfold LexNext.
  destruct (length p <=? 1)%nat eqn:E; [done|].
  apply Nat.leb_gt in E. cbv zeta.
  rewrite find_k_none; [done|lia|].
  intros i x y _. by apply nonincreasing_lookup.
Qed.

(** ** The lexicographic order *)

Lemma lex_lt_irrefl p : ¬ lex_lt p p.
Proof. induction p as [|a p IH]; inversion 1; subst; [lia|done]. Qed.

Lemma lex_lt_trans p q r : lex_lt p q → lex_lt q r → lex_lt p r.
Proof.
  intros Hpq. revert r. induction Hpq; intros r Hqr; inversion Hqr; subst.
  - constructor.
  - constructor.
  - constructor; lia.
  - by constructor.
  - by constructor.
  - apply lex_lt_tail. auto.
Qed.

Lemma lex_lt_app pre x y : lex_lt x y → lex_lt (pre ++ x) (pre ++ y).
Proof. intros H. induction pre; simpl; [done|by apply lex_lt_tail]. Qed.

(** A non-increasing arrangement is the greatest of its multiset. *)
Lemma lex_max s : ∀ r,
  nonincreasing s = true → r ≡ₚ s → ¬ lex_lt s r.
Proof.
  induction s as [|a t IH]; intros r Hs Hp Hlt.
  - apply Permutation_nil_r in Hp. subst. by inversion Hlt.
  - apply nonincreasing_SS in Hs. apply StronglySorted_inv in Hs as [Ht Ha].
    inversion Hlt as [|x y xs ys Hxy|x xs ys Hlt']; subst.
    + assert (Hy : y ∈ a :: t) by (rewrite <- Hp; left).
      apply elem_of_cons in Hy as [->|Hy]; [lia|].
      rewrite Forall_forall in Ha. specialize (Ha _ Hy). unfold flip in Ha. lia.
    + apply Permutation_cons_inv in Hp.
      apply (IH ys); [by apply nonincreasing_SS|done|done].
Qed.

(** A non-decreasing arrangement is the least of its multiset. *)
Lemma lex_min s : ∀ r,
  nondecreasing s = true → r ≡ₚ s → r = s ∨ lex_lt s r.
Proof.
  induction s as [|a t IH]; intros r Hs Hp.
  - apply Permutation_nil_r in Hp. by left.
  - apply nondecreasing_SS in Hs. apply StronglySorted_inv in Hs as [Ht Ha].
    destruct r as [|y ys]; [by apply Permutation_nil_cons in Hp|].
    assert (Hy : y ∈ a :: t) by (rewrite <- Hp; left).
    assert (a ≤ y).
    { apply elem_of_cons in Hy as [->|Hy]; [lia|].
      rewrite Forall_forall in Ha. by apply Ha. }
    destruct (decide (a = y)) as [->|Hne].
    + apply Permutation_cons_inv in Hp.
      destruct (IH ys) as [->|Hlt]; [by apply nondecreasing_SS|done|by left|].
      right. by apply lex_lt_tail.
    + right. apply lex_lt_head. lia.
Qed.

Lemma next_after_prefix pre rest q' :
  (∀ r', r' ≡ₚ rest → lex_lt rest r' → r' = q' ∨ lex_lt q' r') →
  ∀ r, r ≡ₚ pre ++ rest → lex_lt (pre ++ rest) r →
       r = pre ++ q' ∨ lex_lt (pre ++ q') r.
Proof.
  intros Hrest. induction pre as [|x pre IH]; intros r Hp Hlt; [by apply Hrest|].
  simpl in *. inversion Hlt as [|? y ? ys Hxy|? ? ys Hlt']; subst.
  - right. by apply lex_lt_head.
  - apply Permutation_cons_inv in Hp.
    destruct (IH ys Hp Hlt') as [->|?]; [by left|right; by apply lex_lt_tail].
Qed.

Lemma next_at_pivot a s1 b s2 :
  nonincreasing (s1 ++ b :: s2) = true → a < b →
  Forall (λ x, a < x) s1 → Forall (λ x, x ≤ a) s2 →
  ∀ r, r ≡ₚ a :: s1 ++ b :: s2 → lex_lt (a :: s1 ++ b :: s2) r →
       r = b :: reverse (s1 ++ a :: s2) ∨ lex_lt (b :: reverse (s1 ++ a :: s2)) r.
Proof.
  intros Hsuf Hab Hs1 Hs2 r Hp Hlt.
  inversion Hlt as [|? c ? ys Hac|? ? ys Hlt']; subst.
  2:{ apply Permutation_cons_inv in Hp. by destruct (lex_max _ _ Hsuf Hp). }
  pose proof Hsuf as Hss. apply nonincreasing_SS in Hss.
  apply StronglySorted_app in Hss as (Hcross & Hss1 & Hsb).
  apply StronglySorted_inv in Hsb as [Hss2 Hb2].
  assert (Hc : c ∈ a :: s1 ++ b :: s2) by (rewrite <- Hp; left).
  assert (Hbc : b ≤ c).
  { apply elem_of_cons in Hc as [->|Hc]; [lia|].
    apply elem_of_app in Hc as [Hc|Hc].
    - apply (Hcross c b); [done|left].
    - apply elem_of_cons in Hc as [->|Hc]; [lia|].
      rewrite Forall_forall in Hs2. specialize (Hs2 _ Hc). lia. }
  destruct (decide (b = c)) as [->|Hne]; [|right; apply lex_lt_head; lia].
  assert (Hys : ys ≡ₚ reverse (s1 ++ a :: s2)).
  { rewrite reverse_Permutation. apply (Permutation_cons_inv (a:=c)).
    rewrite Hp. rewrite <- !Permutation_middle. apply perm_swap. }
  destruct (lex_min (reverse (s1 ++ a :: s2)) ys) as [->|?];
    [|done|by left|right; by apply lex_lt_tail].
  apply nondecreasing_reverse. apply nonincreasing_SS.
  apply StronglySorted_app. split_and!; [|done|].
  - intros x y Hx Hy. unfold flip.
    rewrite Forall_forall in Hs1. specialize (Hs1 _ Hx).
    apply elem_of_cons in Hy as [->|Hy]; [lia|].
    apply (Hcross x y); [done|by right].
  - constructor; [done|]. eapply Forall_impl; [exact Hs2|]. done.
Qed.

Lemma LexNext_decompose p :
  nonincreasing p = false →
  ∃ pre a s1 b s2,
    p = pre ++ a :: s1 ++ b :: s2 ∧
    nonincreasing (s1 ++ b :: s2) = true ∧ a < b ∧
    Forall (λ x, a < x) s1 ∧ Forall (λ x, x ≤ a) s2.
Proof.
  intros Hp. destruct (pivot_exists p Hp) as (pre & a & c & suf & -> & Hac & Hs).
  destruct (successor_exists a (c :: suf) Hs) as (s1 & b & s2 & Heq & ? & ? & ?);
    [by exists c, suf|].
  exists pre, a, s1, b, s2. rewrite <- Heq. done.
Qed.

Lemma nonincreasing_short p : (length p ≤ 1)%nat → nonincreasing p = true.
Proof. destruct p as [|a [|b t]]; simpl; [done|done|lia]. Qed.

Lemma LexNextInt_LexNext p : LexNextInt p = LexNext p.
Proof. reflexivity. Qed.

(** The successful case of [LexNext]. *)
Lemma LexNext_step p :
  nonincreasing p = false →
  ∃ q, LexNext p = Some (true, q) ∧ q ≡ₚ p ∧ lex_lt p q ∧
       ∀ r, r ≡ₚ p → lex_lt p r → r = q ∨ lex_lt q r.
Proof.
  intros Hp.
  destruct (LexNext_decompose p Hp) as (pre & a & s1 & b & s2 & -> & Hs & Hab & H1 & H2).
  exists (pre ++ b :: reverse (s1 ++ a :: s2)). split_and!.
  - by apply LexNext_pivot.
  - apply Permutation_app_head. rewrite reverse_Permutation.
    rewrite <- !Permutation_middle. apply perm_swap.
  - apply lex_lt_app. by apply lex_lt_head.
  - apply next_after_prefix. by apply next_at_pivot.
Qed.

(** C1.  [LexNextInt] is [LexNext].  If [p] is not in non-increasing
    order, [LexNext] returns true and leaves in [p] the least arrangement
    of the same multiset that is lexicographically greater than [p]; if
    [p] is non-increasing, which includes every [p] of length at most 1,
    it returns false, leaves [p] as it was, and no arrangement of the
    multiset is greater than [p]. *)
Theorem LexNext_next_permutation (p : list Z) :
  LexNextInt p = LexNext p ∧
  (nonincreasing p = false →
     ∃ q, LexNext p = Some (true, q) ∧ q ≡ₚ p ∧ lex_lt p q ∧
          ∀ r, r ≡ₚ p → lex_lt p r → r = q ∨ lex_lt q r) ∧
  (nonincreasing p = true →
     LexNext p = Some (false, p) ∧ ∀ r, r ≡ₚ p → ¬ lex_lt p r) ∧
  ((length p ≤ 1)%nat → nonincreasing p = true).
Proof.
  split; [reflexivity|]. split; [|split; [|apply nonincreasing_short]].
  - apply LexNext_step.
  - intros Hp. split; [by apply LexNext_last|].
    intros r Hr. by apply lex_max.
Qed.

Lemma LexNext_next_permutation_witness :
  (∃ q, LexNext [1; 3; 2] = Some (true, q) ∧ q ≡ₚ [1; 3; 2] ∧
        lex_lt [1; 3; 2] q ∧
        ∀ r, r ≡ₚ [1; 3; 2] → lex_lt [1; 3; 2] r → r = q ∨ lex_lt q r) ∧
  (LexNext [3; 2; 2] = Some (false, [3; 2; 2]) ∧
   ∀ r, r ≡ₚ [3; 2; 2] → ¬ lex_lt [3; 2; 2] r).
Proof.
  split.
  - apply (LexNext_next_permutation [1; 3; 2]). reflexivity.
  - apply (LexNext_next_permutation [3; 2; 2]). reflexivity.
Defined.

Local Open Scope nat_scope.

(** ** Counting the arrangements of a multiset *)

Lemma count_cons_eq a t : count (a :: t) a = S (count t a).
Proof. unfold count. by apply count_occ_cons_eq. Qed.

Lemma count_cons_ne a t v : a ≠ v → count (a :: t) v = count t v.
Proof. unfold count. by apply count_occ_cons_neq. Qed.

Lemma count_zero p v : v ∉ p → count p v = 0.
Proof. intros H. unfold count. apply count_occ_not_In. by rewrite <- list_elem_of_In. Qed.

Lemma count_perm p q v : p ≡ₚ q → count p v = count q v.
Proof. intros H. unfold count. by apply Permutation_count_occ. Qed.

Lemma prodD_cons d D p : prodD (d :: D) p = fact (count p d) * prodD D p.
Proof. reflexivity. Qed.

Lemma mrec_cons a t : mrec (a :: t) = S (count t a) * mrec t.
Proof. reflexivity. Qed.

Lemma prodD_cons_notin D a t : a ∉ D → prodD D (a :: t) = prodD D t.
Proof.
  induction D as [|d D IH]; intros Ha; [done|].
  apply not_elem_of_cons in Ha as [Hne Ha].
  rewrite !prodD_cons, count_cons_ne by done. by rewrite IH.
Qed.

Lemma prodD_cons_in D a t :
  NoDup D → a ∈ D → prodD D (a :: t) = S (count t a) * prodD D t.
Proof.
  induction 1 as [|d D Hd HD IH]; intros Ha; [by apply elem_of_nil in Ha|].
  rewrite !prodD_cons. destruct (decide (a = d)) as [->|Hne].
  - rewrite count_cons_eq, prodD_cons_notin by done.
    change (fact (S (count t d))) with (S (count t d) * fact (count t d)). lia.
  - apply elem_of_cons in Ha as [?|Ha]; [done|].
    rewrite count_cons_ne, IH by done. lia.
Qed.

Lemma multiplicity_product_mrec p : multiplicity_product p = mrec p.
Proof.
  unfold multiplicity_product. fold (prodD (remove_dups p) p).
  induction p as [|a t IH]; [done|].
  rewrite mrec_cons, <- IH.
  simpl remove_dups. destruct (decide_rel elem_of a t) as [Ha|Ha].
  - rewrite prodD_cons_in; [done|apply NoDup_remove_dups|by apply elem_of_remove_dups].
  - rewrite prodD_cons, prodD_cons_notin by (by rewrite elem_of_remove_dups).
    rewrite count_cons_eq, (count_zero t a) by done. simpl. lia.
Qed.

Lemma mrec_perm p q : p ≡ₚ q → mrec p = mrec q.
Proof.
  induction 1 as [|a p q Hpq IH|a b p|p q r _ IH1 _ IH2]; rewrite ?mrec_cons.
  - done.
  - by rewrite IH, (count_perm p q).
  - destruct (decide (a = b)) as [->|Hne]; [done|].
    rewrite !count_cons_ne by done. lia.
  - congruence.
Qed.

Lemma mrec_pos p : 0 < mrec p.
Proof. induction p; rewrite ?mrec_cons; simpl; lia. Qed.

Lemma remove_one_perm v p : v ∈ p → p ≡ₚ v :: remove_one v p.
Proof.
  induction p as [|a t IH]; intros Hv; [by apply elem_of_nil in Hv|].
  simpl. destruct (decide (a = v)) as [->|Hne]; [done|].
  apply elem_of_cons in Hv as [?|Hv]; [done|].
  rewrite (IH Hv) at 1. apply perm_swap.
Qed.

Lemma slw_cons (f : Z → nat) d D :
  sum_list_with f (d :: D) = f d + sum_list_with f D.
Proof. reflexivity. Qed.

Lemma sum_count_nil D : sum_list_with (count []) D = 0.
Proof. induction D as [|d D IH]; [done|]. by rewrite slw_cons, IH. Qed.

Lemma sum_count_notin D a t :
  a ∉ D → sum_list_with (count (a :: t)) D = sum_list_with (count t) D.
Proof.
  induction D as [|d D IH]; intros Ha; [done|].
  apply not_elem_of_cons in Ha as [? ?].
  by rewrite !slw_cons, count_cons_ne, IH.
Qed.

Lemma sum_count_in D a t :
  NoDup D → a ∈ D →
  sum_list_with (count (a :: t)) D = S (sum_list_with (count t) D).
Proof.
  induction 1 as [|d D Hd HD IH]; intros Ha; [by apply elem_of_nil in Ha|].
  rewrite !slw_cons. destruct (decide (a = d)) as [->|Hne].
  - rewrite count_cons_eq, sum_count_notin by done. lia.
  - apply elem_of_cons in Ha as [?|Ha]; [done|].
    rewrite count_cons_ne, IH by done. lia.
Qed.

Lemma sum_count D p :
  NoDup D → (∀ x, x ∈ p → x ∈ D) → sum_list_with (count p) D = length p.
Proof.
  intros HD. induction p as [|a t IH]; intros Hsub; [apply sum_count_nil|].
  rewrite sum_count_in; [|done|apply Hsub; left].
  rewrite IH; [done|]. intros x Hx. apply Hsub. by right.
Qed.

Lemma arrangements_S n p :
  arrangements (S n) p =
  remove_dups p ≫= λ v, (v ::.) <$> arrangements n (remove_one v p).
Proof. reflexivity. Qed.

Lemma length_remove_one v p :
  v ∈ p → S (length (remove_one v p)) = length p.
Proof. intros H. apply remove_one_perm in H. by rewrite H at 2. Qed.

Lemma elem_of_arrangements n : ∀ p r,
  length p = n → r ∈ arrangements n p ↔ r ≡ₚ p.
Proof.
  induction n as [|n IH]; intros p r Hn.
  - destruct p; [|done]. simpl. rewrite list_elem_of_singleton. split.
    + by intros ->.
    + intros H. by apply Permutation_nil_r in H.
  - rewrite arrangements_S, list_elem_of_bind. split.
    + intros (v & Hr & Hv). rewrite elem_of_remove_dups in Hv.
      apply list_elem_of_fmap in Hr as (r' & -> & Hr').
      apply IH in Hr'; [|pose proof (length_remove_one v p Hv); lia].
      rewrite Hr'. symmetry. by apply remove_one_perm.
    + intros Hr. destruct r as [|v r'].
      { apply Permutation_length in Hr. simpl in Hr. lia. }
      assert (Hv : v ∈ p) by (rewrite <- Hr; left).
      exists v. split; [|by apply elem_of_remove_dups].
      apply list_elem_of_fmap. exists r'. split; [done|].
      apply IH; [pose proof (length_remove_one v p Hv); lia|].
      apply (Permutation_cons_inv (a:=v)). rewrite Hr. by apply remove_one_perm.
Qed.

Lemma NoDup_arrangements n : ∀ p, NoDup (arrangements n p).
Proof.
  induction n as [|n IH]; intros p; [apply NoDup_singleton|].
  rewrite arrangements_S. apply NoDup_bind.
  - intros v1 v2 r _ _ (r1 & -> & _)%list_elem_of_fmap (r2 & Heq & _)%list_elem_of_fmap.
    congruence.
  - intros v _. apply NoDup_fmap_2; [|apply IH]. intros ??; congruence.
  - apply NoDup_remove_dups.
Qed.

Lemma length_bind {A B} (f : A → list B) l :
  length (l ≫= f) = sum_list_with (λ x, length (f x)) l.
Proof.
  induction l as [|x l IH]; [done|].
  rewrite bind_cons, length_app, IH. done.
Qed.

Lemma sum_list_with_scale {A} (f g : A → nat) (c m : nat) l :
  (∀ x, x ∈ l → f x * m = c * g x) →
  sum_list_with f l * m = c * sum_list_with g l.
Proof.
  induction l as [|x l IH]; intros H; simpl; [lia|].
  rewrite Nat.mul_add_distr_r, Nat.mul_add_distr_l.
  rewrite H by left. rewrite IH; [done|]. intros y Hy. apply H. by right.
Qed.

(** The number of distinct arrangements of a multiset of size [n], times
    the product of the factorials of its multiplicities, is [n!]. *)
Lemma length_arrangements n : ∀ p,
  length p = n → length (arrangements n p) * mrec p = fact n.
Proof.
  induction n as [|n IH]; intros p Hn.
  - destruct p; [|done]. done.
  - rewrite arrangements_S, length_bind.
    rewrite (sum_list_with_scale _ (count p) (fact n)).
    + rewrite sum_count; [|apply NoDup_remove_dups|].
      * rewrite Hn. simpl. lia.
      * intros x. by rewrite elem_of_remove_dups.
    + intros v Hv. rewrite elem_of_remove_dups in Hv. rewrite length_fmap.
      rewrite (mrec_perm p (v :: remove_one v p)) by (by apply remove_one_perm).
      rewrite mrec_cons.
      rewrite (count_perm p (v :: remove_one v p)) by (by apply remove_one_perm).
      rewrite count_cons_eq.
      rewrite <- (IH (remove_one v p)) by (pose proof (length_remove_one v p Hv); lia).
      lia.
Qed.

(** ** The loop over all arrangements *)

Lemma lex_ltb_spec p q : lex_ltb p q = true ↔ lex_lt p q.
Proof.
  revert q. induction p as [|x xs IH]; intros [|y ys]; simpl.
  - split; [done|inversion 1].
  - split; [constructor|done].
  - split; [done|inversion 1].
  - rewrite orb_true_iff, andb_true_iff, Z.ltb_lt, Z.eqb_eq, IH. split.
    + intros [?|[-> ?]]; [by apply lex_lt_head|by apply lex_lt_tail].
    + inversion 1; subst; [by left|by right].
Qed.

Lemma lex_visits_mono fuel : ∀ fuel' p vs,
  lex_visits fuel p = Some vs → fuel ≤ fuel' → lex_visits fuel' p = Some vs.
Proof.
  induction fuel as [|fuel IH]; intros fuel' p vs Hv Hle; [done|].
  destruct fuel' as [|fuel']; [lia|]. simpl in *.
  destruct (LexNextInt p) as [[[|] q]|]; [|done|done].
  destruct (lex_visits fuel q) as [vs'|] eqn:E; [|done].
  rewrite (IH fuel' q vs' E) by lia. done.
Qed.

Lemma length_filter_split {A} (P Q : A → Prop)
    `{∀ x, Decision (P x)} `{∀ x, Decision (Q x)} (l : list A) x :
  NoDup l → x ∈ l → ¬ Q x →
  (∀ r, r ∈ l → P r ↔ r = x ∨ Q r) →
  length (filter P l) = S (length (filter Q l)).
Proof.
  intros Hnd. revert x. induction Hnd as [|y l Hy Hnd IH]; intros x Hx HQ HPQ.
  { by apply elem_of_nil in Hx. }
  rewrite !filter_cons.
  apply elem_of_cons in Hx as [->|Hx].
  - rewrite decide_True by (apply HPQ; [left|by left]).
    rewrite decide_False by done. simpl. f_equal.
    clear IH Hnd. induction l as [|z l IHl]; [done|].
    apply not_elem_of_cons in Hy as [Hyz Hy].
    rewrite !filter_cons.
    assert (P z ↔ Q z).
    { rewrite HPQ by (right; left). split; [intros [?|?]; [congruence|done]|by right]. }
    destruct (decide (P z)), (decide (Q z)); try tauto; simpl; rewrite IHl; auto.
    all: intros r Hr; apply HPQ; apply elem_of_cons in Hr as [->|Hr];
      [left|right; by right].
  - assert (x ≠ y) by (intros ->; done).
    assert (P y ↔ Q y).
    { rewrite HPQ by left. split; [intros [?|?]; [congruence|done]|by right]. }
    specialize (IH x Hx HQ (λ r Hr, HPQ r (list_elem_of_further _ _ _ Hr))).
    destruct (decide (P y)), (decide (Q y)); try tauto; simpl; by rewrite IH.
Qed.

Lemma length_filter_none {A} (P : A → Prop) `{∀ x, Decision (P x)} (l : list A) :
  (∀ r, r ∈ l → ¬ P r) → length (filter P l) = 0.
Proof.
  induction l as [|y l IH]; intros Hn; [done|].
  rewrite filter_cons, decide_False by (apply Hn; left).
  apply IH. intros r Hr. apply Hn. by right.
Qed.

Section visits.
Variables (p0 : list Z) (all : list (list Z)).
Hypothesis all_NoDup : NoDup all.
Hypothesis all_spec : ∀ r, r ∈ all ↔ r ≡ₚ p0.

Lemma visits_from fuel : ∀ p,
  p ≡ₚ p0 → above all p < fuel →
  ∃ vs, lex_visits fuel p = Some vs ∧
        length vs = S (above all p) ∧
        Sorted lex_lt vs ∧ head vs = Some p ∧
        (∀ r, r ∈ vs ↔ r ≡ₚ p0 ∧ (r = p ∨ lex_lt p r)) ∧
        ∃ z, last vs = Some z ∧ nonincreasing z = true.
Proof.
  induction fuel as [|fuel IH]; intros p Hp Hfuel; [lia|].
  simpl. change (LexNextInt p) with (LexNext p).
  destruct (nonincreasing p) eqn:Hni.
  - rewrite (LexNext_last p Hni). exists [p]. split_and!; try done.
    + simpl. f_equal. symmetry. apply length_filter_none.
      intros r Hr. rewrite lex_ltb_spec.
      apply lex_max; [done|]. apply all_spec in Hr. by rewrite Hr, Hp.
    + repeat constructor.
    + intros r. rewrite list_elem_of_singleton. split.
      * intros ->. split; [done|by left].
      * intros [Hr [?|Hlt]]; [done|].
        destruct (lex_max p r Hni); [by rewrite Hr, Hp|done].
    + by exists p.
  - destruct (LexNext_step p Hni) as (q & -> & Hq & Hpq & Hmin).
    assert (Hab : above all p = S (above all q)).
    { apply (length_filter_split _ _ all q all_NoDup).
      - apply all_spec. by rewrite Hq.
      - rewrite lex_ltb_spec. apply lex_lt_irrefl.
      - intros r Hr. apply all_spec in Hr. rewrite !lex_ltb_spec. split.
        + apply Hmin. by rewrite Hr, Hp.
        + intros [->|?]; [done|by apply (lex_lt_trans _ q)]. }
    destruct (IH q) as (vs & Hvs & Hlen & Hsort & Hhd & Hmem & Hlast);
      [by rewrite Hq|lia|].
    exists (p :: vs). rewrite Hvs. split_and!; try done.
    + simpl. lia.
    + constructor; [done|]. destruct vs as [|v vs]; [constructor|].
      simpl in Hhd. simplify_eq. by constructor.
    + intros r. rewrite elem_of_cons, Hmem. split.
      * intros [->|[Hr [->|Hlt]]].
        -- split; [done|by left].
        -- split; [done|by right].
        -- split; [done|]. right. by apply (lex_lt_trans _ q).
      * intros [Hr [->|Hlt]]; [by left|]. right. split; [done|].
        apply Hmin; [by rewrite Hr, Hp|done].
    + destruct Hlast as (z & Hz & Hzn). exists z. split; [|done].
      destruct vs as [|v vs]; [done|]. done.
Qed.
End visits.

Lemma length_filter_all {A} (l : list A) :
  length (filter (λ _, True) l) = length l.
Proof.
  induction l as [|y l IH]; [done|].
  rewrite filter_cons, decide_True by done. simpl. by rewrite IH.
Qed.

Lemma StronglySorted_lex_lt_NoDup vs : StronglySorted lex_lt vs → NoDup vs.
Proof.
  induction 1 as [|v vs _ IH Hv]; constructor; [|done].
  intros Hin. rewrite Forall_forall in Hv.
  by apply (lex_lt_irrefl v), Hv.
Qed.

#[local] Instance lex_lt_transitive : Transitive lex_lt.
Proof. intros p q r. apply lex_lt_trans. Qed.

#[local] Instance flip_le_antisymm : AntiSymm (=) (flip Z.le).
Proof. intros x y; unfold flip; lia. Qed.

Lemma nonincreasing_unique p q :
  nonincreasing p = true → nonincreasing q = true → p ≡ₚ q → p = q.
Proof.
  rewrite !nonincreasing_Sorted. intros Hp Hq Hpq.
  by apply (Sorted_unique (flip Z.le)).
Qed.

(** C5.  Starting from a slice in ascending order, the loop that calls
    [LexNextInt] until it returns false terminates, and the arrangements
    it visits are [n!/prod(multiplicity!)] in number, pairwise distinct,
    each lexicographically greater than the one before, exactly the
    arrangements of the multiset, and the last one is the descending
    order. *)
Theorem LexNextInt_visits (p : list Z) :
  nondecreasing p = true →
  ∃ vs,
    (∀ fuel, length vs ≤ fuel → lex_visits fuel p = Some vs) ∧
    length vs = fact (length p) / multiplicity_product p ∧
    length vs * multiplicity_product p = fact (length p) ∧
    NoDup vs ∧ Sorted lex_lt vs ∧ (∀ r, r ∈ vs ↔ r ≡ₚ p) ∧
    head vs = Some p ∧ last vs = Some (reverse p).
Proof.
  intros Hp.
  set (all := arrangements (length p) p).
  assert (Hnd : NoDup all) by apply NoDup_arrangements.
  assert (Hall : ∀ r, r ∈ all ↔ r ≡ₚ p) by (intros r; by apply elem_of_arrangements).
  assert (Hcount : length all = S (above all p)).
  { rewrite <- (length_filter_all all).
    apply (length_filter_split _ _ all p Hnd).
    - by apply Hall.
    - rewrite lex_ltb_spec. apply lex_lt_irrefl.
    - intros r Hr. rewrite lex_ltb_spec. split; [|done].
      intros _. apply lex_min; [done|by apply Hall]. }
  destruct (visits_from p all Hnd Hall (S (above all p)) p)
    as (vs & Hvs & Hlen & Hsort & Hhd & Hmem & z & Hz & Hzn); [done|lia|].
  assert (Hprod : length vs * multiplicity_product p = fact (length p)).
  { rewrite Hlen, <- Hcount, multiplicity_product_mrec.
    by apply length_arrangements. }
  exists vs. split_and!; try done.
  - intros fuel Hfuel. apply (lex_visits_mono _ _ _ _ Hvs). lia.
  - apply Nat.div_unique_exact; [|lia].
    rewrite multiplicity_product_mrec. pose proof (mrec_pos p). lia.
  - apply StronglySorted_lex_lt_NoDup. by apply Sorted_StronglySorted; [apply _|].
  - intros r. rewrite Hmem. split; [by intros [? _]|].
    intros Hr. split; [done|]. destruct (lex_min p r Hp Hr); auto.
  - rewrite Hz. f_equal. apply nonincreasing_unique; [done|by apply nonincreasing_reverse|].
    rewrite reverse_Permutation.
    assert (Hzin : z ∈ vs).
    { apply list_elem_of_lookup. exists (pred (length vs)).
      by rewrite <- last_lookup. }
    by apply Hmem in Hzin as [? _].
Qed.

Lemma LexNextInt_visits_witness :
  ∃ vs,
    (∀ fuel, length vs ≤ fuel → lex_visits fuel [1; 2; 2]%Z = Some vs) ∧
    length vs = fact 3 / multiplicity_product [1; 2; 2]%Z ∧
    length vs * multiplicity_product [1; 2; 2]%Z = fact 3 ∧
    NoDup vs ∧ Sorted lex_lt vs ∧ (∀ r, r ∈ vs ↔ r ≡ₚ [1; 2; 2]%Z) ∧
    head vs = Some [1; 2; 2]%Z ∧ last vs = Some [2; 2; 1]%Z.
Proof. apply (LexNextInt_visits [1; 2; 2]%Z). reflexivity. Defined.

End LexFacts.

(** * Properties of SJTRecursive *)

Module SJTFacts.
Import SJT.
Local Open Scope Z_scope.

(** ** Runs of the generator *)

Lemma calls_S k g p :
  calls (S k) g p =
  match step g p with
  | Some (g', p', b) =>
      match calls k g' p' with
      | Some (g'', p'', bs) => Some (g'', p'', b :: bs)
      | None => None
      end
  | None => None
  end.
Proof. reflexivity. Qed.

Lemma calls_app a : ∀ b g p,
  calls (a + b) g p =
  match calls a g p with
  | Some (g1, p1, r1) =>
      match calls b g1 p1 with
      | Some (g2, p2, r2) => Some (g2, p2, r1 ++ r2)
      | None => None
      end
  | None => None
  end.
Proof.
  induction a as [|a IH]; intros b g p.
  - simpl. by destruct (calls b g p) as [[[??]?]|].
  - rewrite Nat.add_succ_l, !calls_S.
    destruct (step g p) as [[[g' p'] r]|]; [|done].
    rewrite IH. destruct (calls a g' p') as [[[g1 p1] r1]|]; [|done].
    by destruct (calls b g1 p1) as [[[g2 p2] r2]|].
Qed.

Lemma calls_app_Some a b g p g1 p1 r1 g2 p2 r2 :
  calls a g p = Some (g1, p1, r1) →
  calls b g1 p1 = Some (g2, p2, r2) →
  calls (a + b) g p = Some (g2, p2, r1 ++ r2).
Proof. intros H1 H2. by rewrite calls_app, H1, H2. Qed.

Lemma step_dead g p : dead g → step g p = Some (g, p, false).
Proof. destruct g; simpl; by intros ->. Qed.

Lemma calls_dead k g p : dead g → calls k g p = Some (g, p, replicate k false).
Proof.
  intros Hd. induction k as [|k IH]; [done|].
  by rewrite calls_S, step_dead, IH.
Qed.

Lemma swap_length {A} (p p' : list A) i j :
  Slice.swap p i j = Some p' → length p' = length p.
Proof.
  unfold Slice.swap. destruct (p !! i), (p !! j); intros; simplify_eq.
  by rewrite !length_insert.
Qed.

Lemma step_length g : ∀ p g' p' b,
  step g p = Some (g', p', b) → length p' = length p.
Proof.
  induction g as [perm|n perm i d g IH]; intros p g' p' b; simpl.
  { by intros [= _ <- _]. }
  destruct (negb perm); [by intros [= _ <- _]|].
  destruct (i =? Z.of_nat n).
  { destruct (_ && _) eqn:Hb; [|done].
    apply andb_true_iff in Hb as [H0%Z.leb_le Hl%Z.leb_le].
    destruct (step g _) as [[[g1 q] b1]|] eqn:E; [|done].
    intros [= _ <- _]. apply IH in E.
    rewrite length_app, E, length_take, length_drop. lia. }
  destruct (i =? 0).
  { destruct (1 <=? _) eqn:Hl; [|done]. apply Z.leb_le in Hl.
    destruct (step g _) as [[[g1 q] b1]|] eqn:E; [|done].
    apply IH in E. rewrite length_drop in E.
    destruct (negb b1).
    - destruct (Slice.swap _ 0 1) as [p''|] eqn:Es; [|done].
      intros [= _ <- _]. apply swap_length in Es.
      rewrite Es, length_app, E, length_take. lia.
    - intros [= _ <- _]. rewrite length_app, E, length_take. lia. }
  unfold swapZ. destruct (_ && _); [|done].
  destruct (Slice.swap _ _ _) as [p1|] eqn:Es; [|done].
  intros [= _ <- _]. by apply swap_length in Es.
Qed.

(** ** The cases of a step *)

Lemma step_Level n i d p0 p :
  step (Level n true i d p0) p =
  if i =? Z.of_nat n then
    if (0 <=? i - 1) && (i - 1 <=? Z.of_nat (length p)) then
      match step p0 (take (Z.to_nat (i - 1)) p) with
      | Some (p0', q, perm') =>
          Some (Level n perm' (i - 1) (-1) p0', q ++ drop (Z.to_nat (i - 1)) p, perm')
      | None => None
      end
    else None
  else if i =? 0 then
    if 1 <=? Z.of_nat (length p) then
      match step p0 (drop 1 p) with
      | Some (p0', q, perm') =>
          if negb perm' then
            match Slice.swap (take 1 p ++ q) 0 1 with
            | Some p'' => Some (Level n perm' (i + 1) 1 p0', p'', perm')
            | None => None
            end
          else Some (Level n perm' (i + 1) 1 p0', take 1 p ++ q, perm')
      | None => None
      end
    else None
  else
    match swapZ p i (i - 1) with
    | Some p' => Some (Level n true (i + d) d p0, p', true)
    | None => None
    end.
Proof. reflexivity. Qed.

Lemma step_mid n d g p (i : nat) :
  (0 < i < n)%nat →
  step (Level n true (Z.of_nat i) d g) p =
  match Slice.swap p i (i - 1) with
  | Some p' => Some (Level n true (Z.of_nat i + d) d g, p', true)
  | None => None
  end.
Proof.
  intros Hi. rewrite step_Level.
  rewrite (proj2 (Z.eqb_neq _ _)) by lia.
  rewrite (proj2 (Z.eqb_neq _ _)) by lia.
  unfold swapZ.
  rewrite (proj2 (Z.leb_le 0 _)) by lia.
  rewrite (proj2 (Z.leb_le 0 _)) by lia. simpl.
  rewrite Nat2Z.id. by replace (Z.to_nat (Z.of_nat i - 1)) with (i - 1)%nat by lia.
Qed.

Lemma step_top n d g p :
  (1 ≤ n)%nat → length p = n →
  step (Level n true (Z.of_nat n) d g) p =
  match step g (take (n - 1) p) with
  | Some (g', q, b) =>
      Some (Level n b (Z.of_nat n - 1) (-1) g', q ++ drop (n - 1) p, b)
  | None => None
  end.
Proof.
  intros Hn Hp. rewrite step_Level, Z.eqb_refl.
  rewrite (proj2 (Z.leb_le 0 _)) by lia.
  rewrite (proj2 (Z.leb_le _ _)) by lia. simpl.
  by replace (Z.to_nat (Z.of_nat n - 1)) with (n - 1)%nat by lia.
Qed.

Lemma step_bottom n d g p :
  (1 ≤ n)%nat → length p = n →
  step (Level n true 0 d g) p =
  match step g (drop 1 p) with
  | Some (g', q, b) =>
      if negb b then
        match Slice.swap (take 1 p ++ q) 0 1 with
        | Some p'' => Some (Level n b 1 1 g', p'', b)
        | None => None
        end
      else Some (Level n b 1 1 g', take 1 p ++ q, b)
  | None => None
  end.
Proof.
  intros Hn Hp. rewrite step_Level.
  rewrite (proj2 (Z.eqb_neq 0 _)) by lia.
  rewrite Z.eqb_refl.
  by rewrite (proj2 (Z.leb_le 1 _)) by lia.
Qed.

(** ** Sweeps of the moving element *)

Lemma swap_adjacent {A} (a : list A) y x c :
  Slice.swap (a ++ y :: x :: c) (S (length a)) (length a)
  = Some (a ++ x :: y :: c).
Proof.
  unfold Slice.swap.
  rewrite (lookup_app_r a) by lia.
  replace (S (length a) - length a)%nat with 1%nat by lia.
  rewrite list_lookup_middle by done. simpl. f_equal.
  rewrite (insert_app_r_alt a _ (S (length a))) by lia.
  replace (S (length a) - length a)%nat with 1%nat by lia. simpl.
  rewrite insert_app_r_alt by lia. by rewrite Nat.sub_diag.
Qed.

Section level.
Variables (n : nat) (x : Z).

Lemma sweep_down g b : ∀ a c,
  (length a + length b + 1 + length c = n)%nat →
  calls (length b)
        (Level n true (Z.of_nat (length a + length b)) (-1) g)
        (a ++ b ++ x :: c)
  = Some (Level n true (Z.of_nat (length a)) (-1) g,
          a ++ x :: b ++ c, replicate (length b) true).
Proof.
  induction b as [|y b IH] using rev_ind; intros a c Hn.
  { simpl. by rewrite Nat.add_0_r. }
  rewrite length_app in *. simpl length in *.
  replace (length b + 1)%nat with (S (length b)) by lia.
  rewrite calls_S, step_mid by lia.
  replace (a ++ (b ++ [y]) ++ x :: c) with ((a ++ b) ++ y :: x :: c)
    by (by rewrite <- !app_assoc).
  replace (length a + S (length b))%nat with (S (length (a ++ b)))
    by (rewrite length_app; lia).
  replace (S (length (a ++ b)) - 1)%nat with (length (a ++ b)) by lia.
  rewrite swap_adjacent.
  replace (Z.of_nat (S (length (a ++ b))) + -1)
    with (Z.of_nat (length a + length b)) by (rewrite length_app; lia).
  rewrite <- app_assoc, (IH a (y :: c)) by (simpl; lia).
  by rewrite <- app_assoc.
Qed.

Lemma sweep_up g b : ∀ a c,
  (length a + 1 + length b + length c = n)%nat →
  calls (length b)
        (Level n true (Z.of_nat (length a + 1)) 1 g)
        (a ++ x :: b ++ c)
  = Some (Level n true (Z.of_nat (length a + 1 + length b)) 1 g,
          a ++ b ++ x :: c, replicate (length b) true).
Proof.
  induction b as [|y b IH]; intros a c Hn.
  { simpl. by rewrite Nat.add_0_r. }
  simpl length in *.
  rewrite calls_S, step_mid by lia.
  replace (length a + 1)%nat with (S (length a)) by lia.
  replace (S (length a) - 1)%nat with (length a) by lia.
  simpl app. rewrite swap_adjacent.
  replace (a ++ y :: x :: b ++ c) with ((a ++ [y]) ++ x :: b ++ c)
    by (by rewrite <- app_assoc).
  replace (Z.of_nat (S (length a)) + 1)
    with (Z.of_nat (length (a ++ [y]) + 1)) by (rewrite length_app; simpl; lia).
  rewrite (IH (a ++ [y]) c) by (rewrite length_app; simpl; lia).
  rewrite length_app. simpl. rewrite <- app_assoc. simpl.
  by replace (length a + 1 + 1 + length b)%nat
    with (S (length a + S (length b))) by lia.
Qed.

(** One sub-generator step with the moving element on the right, then
    the sweep to the left. *)
Lemma block_down g d q g' q' :
  (2 ≤ n)%nat → length q = (n - 1)%nat →
  step g q = Some (g', q', true) →
  calls n (Level n true (Z.of_nat n) d g) (q ++ [x])
  = Some (Level n true 0 (-1) g', x :: q', replicate n true).
Proof.
  intros Hn Hq Hstep.
  pose proof (step_length _ _ _ _ _ Hstep) as Hq'.
  replace (calls n) with (calls (S (length q'))) by (f_equal; lia).
  replace (replicate n true) with (true :: replicate (length q') true)
    by (replace n with (S (length q')) by lia; done).
  rewrite calls_S.
  rewrite step_top by (rewrite ?length_app; simpl; lia).
  replace (n - 1)%nat with (length q) by lia.
  rewrite take_app_length, drop_app_length, Hstep.
  replace (Z.of_nat n - 1) with (Z.of_nat (length (@nil Z) + length q'))
    by (simpl; lia).
  change (q' ++ [x]) with ([] ++ q' ++ x :: []).
  rewrite sweep_down by (simpl; lia).
  by rewrite app_nil_r.
Qed.

(** One sub-generator step with the moving element on the left, then the
    sweep to the right. *)
Lemma block_up g d q g' q' :
  (2 ≤ n)%nat → length q = (n - 1)%nat →
  step g q = Some (g', q', true) →
  calls n (Level n true 0 d g) (x :: q)
  = Some (Level n true (Z.of_nat n) 1 g', q' ++ [x], replicate n true).
Proof.
  intros Hn Hq Hstep.
  pose proof (step_length _ _ _ _ _ Hstep) as Hq'.
  replace (calls n) with (calls (S (length q'))) by (f_equal; lia).
  replace (replicate n true) with (true :: replicate (length q') true)
    by (replace n with (S (length q')) by lia; done).
  rewrite calls_S.
  rewrite step_bottom by (simpl; lia).
  simpl drop. simpl take. rewrite drop_0, take_0, Hstep. simpl negb. cbv iota.
  replace ([x] ++ q') with ([] ++ x :: q' ++ []) by (by rewrite app_nil_r).
  change 1 with (Z.of_nat (length (@nil Z) + 1)) at 1.
  rewrite sweep_up by (simpl; lia).
  rewrite app_nil_l. simpl length.
  by replace (0 + 1 + length q')%nat with n by lia.
Qed.
End level.

Local Open Scope nat_scope.

(** ** The full run *)

Lemma calls_S_inv k g p ge pe b bs :
  calls (S k) g p = Some (ge, pe, b :: bs) →
  ∃ g1 p1, step g p = Some (g1, p1, b) ∧ calls k g1 p1 = Some (ge, pe, bs).
Proof.
  rewrite calls_S. destruct (step g p) as [[[g1 p1] b1]|]; [|done].
  destruct (calls k g1 p1) as [[[g2 p2] bs2]|] eqn:E; [|done].
  intros ?; simplify_eq. by exists g1, p1.
Qed.

Lemma calls_length k : ∀ g p ge pe bs,
  calls k g p = Some (ge, pe, bs) → length pe = length p.
Proof.
  induction k as [|k IH]; intros g p ge pe bs; [by intros [= _ <- _]|].
  rewrite calls_S. destruct (step g p) as [[[g1 p1] b1]|] eqn:E; [|done].
  destruct (calls k g1 p1) as [[[g2 p2] bs2]|] eqn:E2; [|done].
  intros [= _ <- _]. apply IH in E2. apply step_length in E. congruence.
Qed.

Lemma pair_blocks n x : 2 ≤ n → ∀ j g q d g_end q_end,
  length q = n - 1 →
  calls (2 * j) g q = Some (g_end, q_end, replicate (2 * j) true) →
  ∃ d', calls (2 * j * n) (Level n true (Z.of_nat n) d g) (q ++ [x])
        = Some (Level n true (Z.of_nat n) d' g_end, q_end ++ [x],
                replicate (2 * j * n) true).
Proof.
  intros Hn. induction j as [|j IH]; intros g q d g_end q_end Hq Hsub.
  { simpl in *. simplify_eq. by exists d. }
  replace (2 * S j) with (S (S (2 * j))) in Hsub by lia.
  simpl replicate in Hsub.
  apply calls_S_inv in Hsub as (g1 & q1 & Hs1 & Hsub).
  apply calls_S_inv in Hsub as (g2 & q2 & Hs2 & Hsub).
  pose proof (step_length _ _ _ _ _ Hs1) as Hl1.
  pose proof (step_length _ _ _ _ _ Hs2) as Hl2.
  destruct (IH g2 q2 1%Z g_end q_end) as (d' & Hrest); [lia|done|].
  exists d'.
  replace (2 * S j * n) with (n + (n + 2 * j * n)) by lia.
  rewrite !replicate_add.
  eapply calls_app_Some; [by apply block_down|].
  eapply calls_app_Some; [apply block_up; [done|lia|done]|].
  exact Hrest.
Qed.

Lemma swap_app_l {A} (a a' c : list A) i j :
  Slice.swap a i j = Some a' → Slice.swap (a ++ c) i j = Some (a' ++ c).
Proof.
  unfold Slice.swap.
  destruct (a !! i) as [u|] eqn:Hi; [|done].
  destruct (a !! j) as [v|] eqn:Hj; [|done].
  intros [= <-].
  rewrite (lookup_app_l_Some _ _ _ _ Hi), (lookup_app_l_Some _ _ _ _ Hj).
  apply lookup_lt_Some in Hi, Hj.
  by rewrite <- !insert_app_l by (rewrite ?length_insert; lia).
Qed.

Lemma fact_even m : ∃ j, fact (S (S m)) = 2 * j.
Proof.
  induction m as [|m [j Hj]]; [by exists 1|].
  exists (S (S (S m)) * j).
  change (fact (S (S (S m)))) with (S (S (S m)) * fact (S (S m))). lia.
Qed.

Lemma sjtr_SS m : sjtr (S (S m)) = Level (S (S m)) true (Z.of_nat (S (S m))) 0 (sjtr (S m)).
Proof. reflexivity. Qed.

(** The full run of [sjtr n] on a slice of length [n]: [n!] calls return
    true, and the next call returns false with the slice as it was at the
    start and the generator exhausted. *)
Lemma sjtr_run n : ∀ p,
  length p = n →
  ∃ g_end p_end g_fin,
    calls (fact n) (sjtr n) p = Some (g_end, p_end, replicate (fact n) true) ∧
    step g_end p_end = Some (g_fin, p, false) ∧ dead g_fin ∧
    (2 ≤ n → Slice.swap p_end 0 1 = Some p).
Proof.
  induction n as [|n IH]; intros p Hp.
  { exists (Base false), p, (Base false). split_and!; try done. lia. }
  destruct n as [|n].
  { exists (Base false), p, (Base false). split_and!; try done. lia. }
  destruct n as [|m].
  { destruct p as [|a [|b [|??]]]; try done.
    by eexists _, _, _. }
  set (n := S (S (S m))) in *.
  destruct (exists_last (l:=p)) as (q & x & ->); [by intros ->|].
  rewrite length_app in Hp. simpl in Hp.
  destruct (IH q) as (g_end & q_end & g_fin & Hcalls & Hstep & Hdead & Hswap); [lia|].
  destruct (fact_even m) as [j Hj].
  pose proof (calls_length _ _ _ _ _ _ Hcalls) as Hlen.
  rewrite Hj in Hcalls.
  destruct (pair_blocks n x ltac:(lia) j (sjtr (S (S m))) q 0%Z g_end q_end)
    as (d' & Hrun); [lia|done|].
  exists (Level n true (Z.of_nat n) d' g_end), (q_end ++ [x]),
         (Level n false (Z.of_nat n - 1) (-1) g_fin).
  split_and!; [| |done|].
  - unfold n at 1 2 3. rewrite sjtr_SS. fold n.
    replace (fact n) with (2 * j * n); [done|].
    change (fact n) with (n * fact (S (S m))). lia.
  - rewrite step_top by (rewrite ?length_app; simpl; lia).
    replace (n - 1) with (length q_end) by lia.
    by rewrite take_app_length, drop_app_length, Hstep.
  - intros _. apply swap_app_l, Hswap. lia.
Qed.

(** C3.  The iterator returned by [SJTRecursive(p)] returns true on the
    first [n!] calls and false on every later call; when the first false
    is returned [p] is back in its initial order, and further calls
    return false and leave [p] as it is.  For [n] 0 or 1, [n!] is 1. *)
Theorem SJTRecursive_exhausts (p : list Z) (m : nat) :
  ∃ g, dead g ∧
       calls (fact (length p) + S m) (SJTRecursive p) p
       = Some (g, p, replicate (fact (length p)) true ++ replicate (S m) false).
Proof.
  destruct (sjtr_run (length p) p eq_refl)
    as (g_end & p_end & g_fin & Hcalls & Hstep & Hdead & _).
  exists g_fin. split; [done|].
  eapply calls_app_Some; [exact Hcalls|].
  by rewrite calls_S, Hstep, calls_dead.
Qed.

Local Open Scope Z_scope.

(** ** Successful steps are adjacent swaps *)

Lemma swap_comm {A} (p : list A) i j :
  i ≠ j → Slice.swap p i j = Slice.swap p j i.
Proof.
  intros Hij. unfold Slice.swap.
  destruct (p !! i), (p !! j); try done.
  by rewrite list_insert_insert_ne.
Qed.

Lemma swap_take {A} (p q : list A) m i j :
  Slice.swap (take m p) i j = Some q →
  Slice.swap p i j = Some (q ++ drop m p).
Proof.
  intros H. rewrite <- (take_drop m p) at 1. by apply swap_app_l.
Qed.

Lemma swap_drop1 {A} (p q : list A) i j :
  Slice.swap (drop 1 p) i j = Some q →
  Slice.swap p (S i) (S j) = Some (take 1 p ++ q).
Proof.
  destruct p as [|x t]; [done|]. rewrite skipn_cons, drop_0.
  change (take 1 (x :: t)) with [x].
  unfold Slice.swap. simpl.
  destruct (t !! i), (t !! j); try done. by intros [= <-].
Qed.

Lemma wfI_sjtr n : wfI (sjtr n) ∧ fits (sjtr n) n.
Proof.
  induction n as [|n [IH1 IH2]]; [done|].
  destruct n as [|m]; [done|].
  rewrite sjtr_SS. split; [|done].
  split_and!; [lia|exact IH2|exact IH1|]. intros _. lia.
Qed.

Lemma step_inv g : ∀ p g' p' b,
  wfI g → fits g (length p) → step g p = Some (g', p', b) →
  wfI g' ∧ fits g' (length p) ∧ (started g → started g').
Proof.
  induction g as [perm|n perm i d sub IH]; intros p g' p' b Hwf Hfit.
  { simpl. by intros [= <- _ _]. }
  destruct Hwf as (Hn & Hfs & Hws & Hi). simpl in Hfit. subst n.
  destruct perm; [|simpl; intros [= <- _ _]; by repeat split].
  destruct (Hi eq_refl) as [Hr Hd]. clear Hi.
  rewrite step_Level.
  destruct (i =? _) eqn:E1.
  { apply Z.eqb_eq in E1. subst i.
    destruct (_ && _); [|done].
    destruct (step sub _) as [[[g1 q] b1]|] eqn:E; [|done].
    intros [= <- _ _].
    destruct (IH _ _ _ _ Hws ltac:(by rewrite length_take;
      replace (Z.to_nat (Z.of_nat (length p) - 1) `min` length p)%nat
        with (length p - 1)%nat by lia) E) as (? & Hf1 & ?).
    rewrite length_take in Hf1.
    replace (Z.to_nat (Z.of_nat (length p) - 1) `min` length p)%nat
        with (length p - 1)%nat in Hf1 by lia.
    simpl. repeat split; auto; lia. }
  destruct (i =? 0) eqn:E2.
  { apply Z.eqb_eq in E2. subst i.
    destruct (1 <=? _); [|done].
    destruct (step sub _) as [[[g1 q] b1]|] eqn:E; [|done].
    destruct (IH _ _ _ _ Hws ltac:(by rewrite length_drop) E) as (? & Hf1 & ?).
    rewrite length_drop in Hf1.
    destruct (negb b1).
    - destruct (Slice.swap _ 0 1); [|done]. intros [= <- _ _].
      simpl. repeat split; auto; lia.
    - intros [= <- _ _]. simpl. repeat split; auto; lia. }
  apply Z.eqb_neq in E1, E2.
  destruct (swapZ _ _ _); [|done]. intros [= <- _ _].
  simpl. repeat split; auto; try lia.
  all: destruct Hd as [->| ->]; lia.
Qed.

Lemma step_swap g : ∀ p g' p',
  wfI g → started g → fits g (length p) →
  step g p = Some (g', p', true) →
  ∃ j, (S j < length p)%nat ∧ Slice.swap p j (S j) = Some p'.
Proof.
  induction g as [perm|n perm i d sub IH]; intros p g' p' Hwf Hst Hfit.
  { simpl in *. subst perm. done. }
  destruct Hwf as (Hn & Hfs & Hws & Hi). simpl in Hfit, Hst. subst n.
  destruct perm; [|done].
  destruct (Hi eq_refl) as [Hr Hd]. clear Hi.
  rewrite step_Level.
  destruct (i =? _) eqn:E1.
  { apply Z.eqb_eq in E1. subst i.
    destruct (_ && _); [|done].
    destruct (step sub _) as [[[g1 q] b1]|] eqn:E; [|done].
    intros [= <- <- ->].
    apply IH in E as (j & Hj & Hsw); [|done|done|].
    - rewrite length_take in Hj. exists j. split; [lia|by apply swap_take].
    - rewrite length_take.
      by replace (Z.to_nat (Z.of_nat (length p) - 1) `min` length p)%nat
        with (length p - 1)%nat by lia. }
  destruct (i =? 0) eqn:E2.
  { apply Z.eqb_eq in E2. subst i.
    destruct (1 <=? _); [|done].
    destruct (step sub _) as [[[g1 q] b1]|] eqn:E; [|done].
    destruct b1; simpl negb; cbv iota.
    - intros [= <- <-].
      apply IH in E as (j & Hj & Hsw); [|done|done|by rewrite length_drop].
      rewrite length_drop in Hj. exists (S j). split; [lia|by apply swap_drop1].
    - by destruct (Slice.swap _ 0 1). }
  apply Z.eqb_neq in E1, E2.
  unfold swapZ. destruct (_ && _); [|done].
  destruct (Slice.swap _ _ _) as [p1|] eqn:Es; [|done].
  intros [= <- <-].
  exists (Z.to_nat (i - 1)).
  replace (S (Z.to_nat (i - 1))) with (Z.to_nat i) by lia.
  split; [lia|]. rewrite swap_comm by lia. done.
Qed.

Lemma calls_inv k : ∀ g p g' p' bs,
  wfI g → fits g (length p) → calls k g p = Some (g', p', bs) →
  wfI g' ∧ fits g' (length p) ∧ (started g → started g').
Proof.
  induction k as [|k IH]; intros g p g' p' bs Hwf Hfit.
  { by intros [= <- _ _]. }
  rewrite calls_S. destruct (step g p) as [[[g1 p1] b1]|] eqn:E; [|done].
  destruct (calls k g1 p1) as [[[g2 p2] bs2]|] eqn:E2; [|done].
  intros [= <- _ _].
  pose proof (step_length _ _ _ _ _ E) as Hl.
  apply step_inv in E as (? & ? & ?); [|done|done].
  apply IH in E2 as (? & ? & ?); [|done|by rewrite Hl].
  rewrite Hl in *. auto.
Qed.

Lemma step_first n : ∀ p,
  length p = n →
  ∃ g, step (sjtr n) p = Some (g, p, true) ∧ started g.
Proof.
  induction n as [|n IH]; intros p Hp; [by exists (Base false)|].
  destruct n as [|m]; [by exists (Base false)|].
  rewrite sjtr_SS, step_top by (done || lia).
  destruct (IH (take (S (S m) - 1) p)) as (g & -> & Hst).
  { rewrite length_take. lia. }
  eexists. by rewrite take_drop.
Qed.

(** C6, amended: the first invocation returns true and leaves
    the slice as it is; every later invocation that returns true changes
    the slice by one swap of two adjacent positions; and for slices of
    length at least two the terminal invocation, which returns false,
    performs the swap of the first two positions that restores the
    initial order. *)
Theorem SJTRecursive_adjacent_swaps (p : list Z) :
  (∃ g, step (SJTRecursive p) p = Some (g, p, true)) ∧
  (∀ k g q bs g' q',
     (1 ≤ k)%nat →
     calls k (SJTRecursive p) p = Some (g, q, bs) →
     step g q = Some (g', q', true) →
     ∃ j, (S j < length p)%nat ∧ Slice.swap q j (S j) = Some q') ∧
  ((2 ≤ length p)%nat →
   ∃ g q g',
     calls (fact (length p)) (SJTRecursive p) p
       = Some (g, q, replicate (fact (length p)) true) ∧
     step g q = Some (g', p, false) ∧
     Slice.swap q 0 1 = Some p).
Proof.
  unfold SJTRecursive. split_and!.
  - destruct (step_first (length p) p eq_refl) as (g & Hg & _). by exists g.
  - intros k g q bs g' q' Hk Hcalls Hstep.
    destruct k as [|k]; [lia|].
    rewrite calls_S in Hcalls.
    destruct (step_first (length p) p eq_refl) as (g1 & Hg1 & Hst1).
    rewrite Hg1 in Hcalls.
    destruct (calls k g1 p) as [[[g2 p2] bs2]|] eqn:E2; [|done].
    simplify_eq.
    destruct (wfI_sjtr (length p)) as [Hwf Hfit].
    apply step_inv in Hg1 as (Hwf1 & Hfit1 & _); [|done|done].
    pose proof (calls_length _ _ _ _ _ _ E2) as Hl.
    apply calls_inv in E2 as (Hwf2 & Hfit2 & Hst2); [|done|done].
    rewrite <- Hl. apply (step_swap g _ g'); auto. by rewrite Hl.
  - intros Hn.
    destruct (sjtr_run (length p) p eq_refl)
      as (g_end & p_end & g_fin & Hcalls & Hstep & _ & Hswap).
    exists g_end, p_end, g_fin. auto.
Qed.

Lemma SJTRecursive_adjacent_swaps_witness :
  (∃ j, (S j < 3)%nat ∧ Slice.swap [0; 1; 2] j (S j) = Some [0; 2; 1]) ∧
  (∃ g q g',
     calls (fact 3) (SJTRecursive [0; 1; 2]) [0; 1; 2]
       = Some (g, q, replicate (fact 3) true) ∧
     step g q = Some (g', [0; 1; 2], false) ∧
     Slice.swap q 0 1 = Some [0; 1; 2]).
Proof.
  split.
  - eapply (proj1 (proj2 (SJTRecursive_adjacent_swaps [0; 1; 2])) 1%nat);
      [lia | vm_compute; reflexivity | vm_compute; reflexivity].
  - apply (proj2 (proj2 (SJTRecursive_adjacent_swaps [0; 1; 2]))).
    simpl; lia.
Defined.

(** C6 as stated fails: the first invocation on [[0; 1]] returns true
    and leaves the slice as it was, which is not the result of a swap of
    two adjacent positions. *)
Lemma SJTRecursive_first_call_no_swap :
  ¬ (∀ g q, step (SJTRecursive [0; 1]) [0; 1] = Some (g, q, true) →
            ∃ j, (S j < 2)%nat ∧ Slice.swap [0; 1] j (S j) = Some q).
Proof.
  intros H.
  destruct (H _ _ eq_refl) as ([|[|j]] & Hj & Hs); [| |lia]; vm_compute in Hs; congruence.
Qed.

End SJTFacts.

(** * Properties of LexRank and LexPerm *)

Module RankFacts.
Import Rank.
Local Open Scope Z_scope.

(** C7.  For a rank [r] that is negative or at least [n!], [LexPerm]
    returns [(nil, false)]: no permutation, complete or partial. *)
Theorem LexPerm_out_of_range (r : Z) (n : nat) :
  r < 0 ∨ Z.of_nat (fact n) ≤ r → LexPerm r n = Some None.
Proof.
  intros H. unfold LexPerm, NewFact. destruct H.
  - by rewrite (proj2 (Z.leb_gt _ _)) by lia.
  - by rewrite (proj2 (Z.ltb_ge _ _)), andb_false_r by lia.
Qed.

Lemma LexPerm_out_of_range_witness :
  LexPerm (-1) 3 = Some None ∧ LexPerm 6 3 = Some None.
Proof.
  split; apply LexPerm_out_of_range; [left; lia|right; simpl; lia].
Defined.

(** Whatever digits [NewFact] hands over, the body of [LexPerm] for
    [n = 0] indexes the empty permutation and panics. *)
Lemma LexPerm_digits_size0 (f : list Z) : LexPerm_digits f 0 = None.
Proof.
  unfold LexPerm_digits. change (log2 (Z.of_nat 0)) with 0%nat.
  cbn -[reverse]. by destruct (reverse f).
Qed.

(** C8, at its failing input: the ranks of the permutations of sizes 0
    and 1 are 0 and [LexPerm(0, 1)] is the identity, but [LexPerm(0, 0)]
    panics instead of returning the empty permutation, and so does the
    body of [LexPerm] for every sequence of digits. *)
Theorem LexPerm_size0_panics :
  LexRank [] = Some 0 ∧ LexRank [0] = Some 0 ∧
  LexPerm 0 1 = Some (Some [0]) ∧ LexPerm 0 0 = None ∧
  ∀ f, LexPerm_digits f 0 = None.
Proof. split_and!; try by vm_compute. apply LexPerm_digits_size0. Qed.

(** Rank 0 has only zero digits.  However many of them [LexPerm] is
    given for [n = 5], it does not return the identity: with fewer than
    four the last positions are not filled, with four the last position
    repeats 3, and with more the permutation is indexed out of range. *)
Lemma LexPerm_digits_zero_size5 (m : nat) :
  LexPerm_digits (replicate m 0) 5 ≠ Some [0; 1; 2; 3; 4].
Proof.
  intros H. unfold LexPerm_digits in H.
  rewrite reverse_replicate, length_replicate in H.
  destruct m as [|[|[|[|[|[|m]]]]]]; vm_compute in H; congruence.
Qed.

(** C2, at its failing input: the identity of size 5 has rank 0, and
    [LexPerm(0, 5)] returns [[0; 1; 2; 3; 3]], which is not a
    permutation: the final loop of [LexPerm] reads the count 2 of a node
    that still holds a padding leaf.  No sequence of zero digits makes
    [LexPerm] return the identity. *)
Theorem LexPerm_rank0_size5 :
  LexRank [0; 1; 2; 3; 4] = Some 0 ∧
  LexPerm 0 5 = Some (Some [0; 1; 2; 3; 3]) ∧
  LexPerm_digits [0; 0; 0; 0] 5 = Some [0; 1; 2; 3; 3] ∧
  ∀ m, LexPerm_digits (replicate m 0) 5 ≠ Some [0; 1; 2; 3; 4].
Proof. split_and!; try by vm_compute. apply LexPerm_digits_zero_size5. Qed.

(** The sizes up to 4 round-trip: every rank below [n!] is unranked to a
    permutation whose rank it is. *)
Lemma LexPerm_LexRank_upto4 :
  Forall (λ n : nat,
    Forall (λ r, ∃ p, LexPerm r n = Some (Some p) ∧ LexRank p = Some r)
           (seqZ 0 (Z.of_nat (fact n))))
    [1; 2; 3; 4]%nat.
Proof.
  repeat (apply Forall_cons; split);
    try apply Forall_nil; try (eexists; split; vm_compute; reflexivity).
Qed.

End RankFacts.

(** * Properties of SJTE *)

Module SJTEFacts.
Import SJTE.
Local Open Scope Z_scope.

(** C10, at its failing input: for [n = 0] the arrays have length 2, no
    element is mobile, and the first call of the step function executes
    [p[1], p[2] = 0, 1], which writes outside the array: the call panics
    and returns nothing. *)
Theorem SJTE_size0_panics :
  ∃ s, SJTE 0 = Some s ∧ length (sp s) = 2%nat ∧ step s = None.
Proof. by eexists. Qed.

(** ** The search for the mobile element, on cells *)

Lemma scan_cons prev v dv cs nend i acc :
  scan prev ((v, dv) :: cs) nend i acc =
  scan (Some v) cs nend (S i)
    (if (v >? amax acc) &&
        (match (if dv =? -1 then prev else hdv cs nend) with
         | Some w => v >? w
         | None => false
         end)
     then Some (i, v) else acc).
Proof. by destruct cs as [|[??]?]. Qed.

Lemma hdv_app l1 l2 nend : hdv (l1 ++ l2) nend = hdv l1 (hdv l2 nend).
Proof. by destruct l1 as [|[??]?]. Qed.

Lemma lastv_app prev l1 l2 : lastv prev (l1 ++ l2) = lastv (lastv prev l1) l2.
Proof. revert prev. induction l1 as [|[??]? IH]; intros prev; simpl; auto. Qed.

Lemma scan_app l1 : ∀ prev l2 nend i acc,
  scan prev (l1 ++ l2) nend i acc =
  scan (lastv prev l1) l2 nend (i + length l1)
       (scan prev l1 (hdv l2 nend) i acc).
Proof.
  induction l1 as [|[v dv] l1 IH]; intros prev l2 nend i acc.
  { simpl. by rewrite Nat.add_0_r. }
  rewrite <- app_comm_cons, !scan_cons, IH, hdv_app. simpl lastv. simpl length.
  by replace (S i + length l1)%nat with (i + S (length l1))%nat by lia.
Qed.

Lemma scan_small cs : ∀ prev nend i acc,
  Forall (λ c : cell, c.1 ≤ amax acc) cs → scan prev cs nend i acc = acc.
Proof.
  induction cs as [|[v dv] cs IH]; intros prev nend i acc Hs; [done|].
  apply Forall_cons_1 in Hs as [Hv Hs]. simpl in Hv.
  rewrite scan_cons. destruct (Z.gtb_spec v (amax acc)); [lia|].
  simpl. by apply IH.
Qed.

Lemma scan_bound cs B : ∀ prev nend i acc,
  amax acc < B → Forall (λ c : cell, c.1 < B) cs →
  amax (scan prev cs nend i acc) < B.
Proof.
  induction cs as [|[v dv] cs IH]; intros prev nend i acc Ha Hs; [done|].
  apply Forall_cons_1 in Hs as [Hv Hs]. simpl in Hv.
  rewrite scan_cons. apply IH; [|done].
  by destruct (_ && _).
Qed.

(** A neighbour that no element exceeds is as good as a guard. *)
Lemma scan_wall_r cs w : ∀ prev i acc,
  Forall (λ c : cell, c.1 ≤ w) cs →
  scan prev cs (Some w) i acc = scan prev cs None i acc.
Proof.
  induction cs as [|[v dv] cs IH]; intros prev i acc Hs; [done|].
  apply Forall_cons_1 in Hs as [Hv Hs]. simpl in Hv.
  rewrite !scan_cons, IH by done.
  destruct cs as [|[??]?]; [|done]. simpl hdv.
  destruct (dv =? -1); [done|].
  destruct (Z.gtb_spec v w); [lia|]. by rewrite andb_false_r.
Qed.

Lemma scan_wall_l cs w nend i acc :
  Forall (λ c : cell, c.1 ≤ w) cs →
  scan (Some w) cs nend i acc = scan None cs nend i acc.
Proof.
  destruct cs as [|[v dv] cs]; intros Hs; [done|].
  apply Forall_cons_1 in Hs as [Hv Hs]. simpl in Hv.
  rewrite !scan_cons.
  destruct (dv =? -1); [|done].
  destruct (Z.gtb_spec v w); [lia|]. by rewrite andb_false_r.
Qed.

Lemma amax_shift δ acc : amax (shift δ acc) = amax acc.
Proof. by destruct acc as [[??]|]. Qed.

Lemma scan_shift δ cs : ∀ prev nend i acc,
  scan prev cs nend (δ + i) (shift δ acc) = shift δ (scan prev cs nend i acc).
Proof.
  induction cs as [|[v dv] cs IH]; intros prev nend i acc; [done|].
  rewrite !scan_cons, amax_shift.
  replace (S (δ + i)) with (δ + S i)%nat by lia.
  destruct (_ && _); [|apply IH].
  by rewrite <- IH.
Qed.

(** ** A successful step, on cells *)

Lemma swap_at_app (l1 : list cell) a b l2 :
  swap_at (length l1) (l1 ++ a :: b :: l2) = l1 ++ b :: a :: l2.
Proof.
  unfold swap_at.
  rewrite list_lookup_middle by done.
  rewrite (lookup_app_r l1) by lia.
  replace (S (length l1) - length l1)%nat with 1%nat by lia. simpl.
  rewrite (insert_app_r_alt l1 _ (length l1)) by lia.
  rewrite Nat.sub_diag. simpl.
  rewrite insert_app_r_alt by lia.
  by replace (S (length l1) - length l1)%nat with 1%nat by lia.
Qed.

Lemma map_flip_small max (cs : list cell) :
  Forall (λ c : cell, c.1 ≤ max) cs → map (flip max) cs = cs.
Proof.
  induction 1 as [|[v dv] cs Hv _ IH]; [done|]. simpl in *.
  rewrite IH. unfold flip. simpl. by destruct (Z.gtb_spec v max); [lia|].
Qed.

Lemma lastv_Some prev l w :
  lastv prev l = Some w →
  (l = [] ∧ prev = Some w) ∨ ∃ l' e, l = l' ++ [(w, e)].
Proof.
  revert prev. induction l as [|[v dv] l IH]; intros prev H; [by left|].
  right. simpl in H. destruct (IH _ H) as [[-> [= ->]]|(l' & e & ->)].
  - by exists [], dv.
  - by exists ((v, dv) :: l'), e.
Qed.

Lemma scan_inv cs : ∀ prev nend i acc k max,
  scan prev cs nend i acc = Some (k, max) →
  acc = Some (k, max) ∨
  ∃ l1 v dv l2, cs = l1 ++ (v, dv) :: l2 ∧ k = (i + length l1)%nat ∧ max = v ∧
    ∃ w, (if dv =? -1 then lastv prev l1 else hdv l2 nend) = Some w ∧ w < v.
Proof.
  induction cs as [|[v dv] cs IH]; intros prev nend i acc k max H; [by left|].
  rewrite scan_cons in H. apply IH in H as [H|(l1 & v' & dv' & l2 & -> & -> & -> & w & Hw & Hlt)].
  - destruct (Z.gtb_spec v (amax acc)); simpl in H; [|by left].
    destruct (if dv =? -1 then prev else hdv cs nend) as [w|] eqn:Hnb; [|by left].
    destruct (Z.gtb_spec v w); [|by left].
    simplify_eq. right. exists [], max, dv, cs. simpl.
    split_and!; [done|lia|done|]. by exists w.
  - right. exists ((v, dv) :: l1), v', dv', l2. simpl.
    split_and!; [done|lia|done|]. by exists w.
Qed.

(** The mobile element found in a stand-alone list of cells and the
    neighbour it points to. *)
Lemma scan_found cs k max :
  scan None cs None 1 None = Some (k, max) →
  ∃ l1 a b l2, cs = l1 ++ a :: b :: l2 ∧
    ((k = S (length l1) ∧ a.1 = max ∧ (a.2 =? -1) = false ∧ b.1 < max) ∨
     (k = S (S (length l1)) ∧ b = (max, -1) ∧ a.1 < max)).
Proof.
  intros H. apply scan_inv in H as [?|(l1 & v & dv & l2 & -> & -> & -> & w & Hw & Hlt)];
    [done|].
  destruct (Z.eqb_spec dv (-1)) as [->|Hne].
  - apply lastv_Some in Hw as [[_ ?]|(l' & e & ->)]; [done|].
    exists l', (w, e), (v, -1), l2. rewrite <- app_assoc. split; [done|].
    right. rewrite length_app. simpl. split_and!; [lia|done|done].
  - destruct l2 as [|[w' e] l2]; [done|]. simpl in Hw. simplify_eq.
    exists l1, (v, dv), (w, e), l2. split; [done|].
    left. simpl. split_and!; [lia|done|by apply Z.eqb_neq|done].
Qed.

Lemma astep_of_scan cs l1 a b l2 k max :
  cs = l1 ++ a :: b :: l2 →
  scan None cs None 1 None = Some (k, max) →
  (k = S (length l1) ∧ (a.2 =? -1) = false) ∨
  (k = S (S (length l1)) ∧ b.2 = -1) →
  astep cs = (map (flip max) (l1 ++ b :: a :: l2), true).
Proof.
  intros -> Hscan Hk. unfold astep. rewrite Hscan.
  destruct Hk as [[-> Ha]|[-> Hb]].
  - replace (S (length l1) - 1)%nat with (length l1) by lia.
    rewrite list_lookup_middle by done. destruct a as [va da]. simpl in Ha.
    by rewrite Ha, swap_at_app.
  - replace (S (S (length l1)) - 1)%nat with (S (length l1)) by lia.
    rewrite (lookup_app_r l1) by lia.
    replace (S (length l1) - length l1)%nat with 1%nat by lia.
    destruct b as [vb db]. simpl in *. subst db. simpl.
    replace (length l1 - 0)%nat with (length l1) by lia.
    by rewrite swap_at_app.
Qed.

(** The result of a successful step, from the mobile element found. *)
Lemma astep_true cs cs' :
  astep cs = (cs', true) →
  ∃ l1 a b l2 k max,
    cs = l1 ++ a :: b :: l2 ∧ scan None cs None 1 None = Some (k, max) ∧
    ((k = S (length l1) ∧ (a.2 =? -1) = false) ∨
     (k = S (S (length l1)) ∧ b.2 = -1)) ∧
    cs' = map (flip max) (l1 ++ b :: a :: l2).
Proof.
  intros H. destruct (scan None cs None 1 None) as [[k max]|] eqn:Hscan.
  2:{ unfold astep in H. by rewrite Hscan in H. }
  destruct (scan_found _ _ _ Hscan) as (l1 & a & b & l2 & Hcs & Hk).
  assert (Hk' : (k = S (length l1) ∧ (a.2 =? -1) = false) ∨
                (k = S (S (length l1)) ∧ b.2 = -1)).
  { destruct Hk as [(? & _ & ? & _)|(? & -> & _)]; [by left|by right]. }
  rewrite (astep_of_scan _ _ _ _ _ _ _ Hcs Hscan Hk') in H.
  exists l1, a, b, l2, k, max. split_and!; [done|done|done|congruence].
Qed.

(** ** Steps in the presence of the largest element *)

Lemma Forall_lt_le (x : Z) (cs : list cell) :
  Forall (λ c : cell, c.1 < x) cs → Forall (λ c : cell, c.1 ≤ x) cs.
Proof. apply List.Forall_impl. intros; lia. Qed.

Section largest.
Variable x : Z.
Hypothesis x_nonneg : 0 ≤ x.

(** The largest element, pointing left at a smaller neighbour, moves
    left. *)
Lemma astep_move_left l1 c l2 :
  Forall (λ c : cell, c.1 < x) (l1 ++ c :: l2) →
  astep (l1 ++ c :: (x, -1) :: l2) = (l1 ++ (x, -1) :: c :: l2, true).
Proof.
  intros Hlt.
  apply Forall_app in Hlt as [Hl1 Hl2]. apply Forall_cons_1 in Hl2 as [Hc Hl2].
  assert (Hscan : scan None (l1 ++ c :: (x, -1) :: l2) None 1 None
                  = Some (S (S (length l1)), x)).
  { replace (l1 ++ c :: (x, -1) :: l2) with ((l1 ++ [c]) ++ (x, -1) :: l2)
      by (by rewrite <- app_assoc).
    rewrite scan_app, scan_cons, lastv_app. destruct c as [vc dc]. simpl lastv.
    simpl Z.eqb. cbv iota.
    pose proof (scan_bound (l1 ++ [(vc, dc)]) x None (hdv ((x, -1) :: l2) None) 1 None)
      as Hb.
    destruct (Z.gtb_spec x (amax (scan None (l1 ++ [(vc, dc)]) (hdv ((x, -1) :: l2) None) 1 None))) as [_|Hle].
    2:{ exfalso. apply Z.le_ngt in Hle. apply Hle, Hb; [simpl; lia|].
        apply Forall_app. split; [done|]. by apply Forall_singleton. }
    simpl in Hc. destruct (Z.gtb_spec x vc); [|lia]. simpl andb. cbv iota.
    rewrite scan_small by (by apply Forall_lt_le).
    rewrite length_app. simpl. do 2 f_equal. lia. }
  rewrite (astep_of_scan _ l1 c (x, -1) l2 _ _ eq_refl Hscan) by (by right).
  rewrite map_flip_small; [done|].
  apply Forall_app. split; [by apply Forall_lt_le|].
  constructor; [simpl; lia|].
  constructor; [simpl in *; lia|by apply Forall_lt_le].
Qed.

(** The largest element, pointing right at a smaller neighbour, moves
    right. *)
Lemma astep_move_right l1 c l2 :
  Forall (λ c : cell, c.1 < x) (l1 ++ c :: l2) →
  astep (l1 ++ (x, 1) :: c :: l2) = (l1 ++ c :: (x, 1) :: l2, true).
Proof.
  intros Hlt.
  apply Forall_app in Hlt as [Hl1 Hl2]. apply Forall_cons_1 in Hl2 as [Hc Hl2].
  assert (Hscan : scan None (l1 ++ (x, 1) :: c :: l2) None 1 None
                  = Some (S (length l1), x)).
  { rewrite scan_app, scan_cons. destruct c as [vc dc].
    simpl Z.eqb. cbv iota. simpl hdv.
    pose proof (scan_bound l1 x None (Some x) 1 None) as Hb.
    destruct (Z.gtb_spec x (amax (scan None l1 (Some x) 1 None))) as [_|Hle].
    2:{ exfalso. apply Z.le_ngt in Hle. apply Hle, Hb; [simpl; lia|done]. }
    simpl in Hc. destruct (Z.gtb_spec x vc); [|lia]. simpl andb. cbv iota.
    rewrite scan_small; [done|].
    constructor; [simpl; lia|by apply Forall_lt_le]. }
  rewrite (astep_of_scan _ l1 (x, 1) c l2 _ _ eq_refl Hscan) by (by left).
  rewrite map_flip_small; [done|].
  apply Forall_app. split; [by apply Forall_lt_le|].
  constructor; [simpl in *; lia|].
  constructor; [simpl; lia|by apply Forall_lt_le].
Qed.

Lemma scan_max_lt cs k max :
  Forall (λ c : cell, c.1 < x) cs →
  scan None cs None 1 None = Some (k, max) → max < x.
Proof.
  intros Hlt Hscan.
  pose proof (scan_bound cs x None None 1 None) as Hb.
  rewrite Hscan in Hb. apply Hb; [simpl; lia|done].
Qed.

(** With the largest element at the left end, pointing at the guard, a
    successful step is the step of the other cells, and the direction of
    the largest element is reversed. *)
Lemma astep_under_left s s' :
  Forall (λ c : cell, c.1 < x) s →
  astep s = (s', true) →
  astep ((x, -1) :: s) = ((x, 1) :: s', true).
Proof.
  intros Hlt Hstep.
  destruct (astep_true _ _ Hstep) as (l1 & a & b & l2 & k & max & -> & Hscan & Hk & ->).
  pose proof (scan_max_lt _ _ _ Hlt Hscan) as Hmax.
  assert (Hscan' : scan None ((x, -1) :: l1 ++ a :: b :: l2) None 1 None
                   = Some (S k, max)).
  { rewrite scan_cons. simpl andb. rewrite andb_false_r.
    rewrite scan_wall_l by (by apply Forall_lt_le).
    pose proof (scan_shift 1 (l1 ++ a :: b :: l2) None None 1 None) as Hs.
    simpl shift in Hs at 1. simpl Nat.add in Hs.
    by rewrite Hs, Hscan. }
  rewrite (astep_of_scan ((x, -1) :: l1 ++ a :: b :: l2) ((x, -1) :: l1) a b l2
             _ _ eq_refl Hscan').
  2:{ simpl. destruct Hk as [[-> ?]|[-> ?]]; [by left|by right]. }
  simpl. unfold flip at 1. simpl. by destruct (Z.gtb_spec x max); [|lia].
Qed.

Lemma rollover_app s c :
  (2 ≤ length s)%nat → rollover (s ++ [c]) = rollover s ++ [(c.1, -1)].
Proof.
  destruct s as [|[v0 e0] [|[v1 e1] s]]; simpl; [lia|lia|]. intros _.
  by rewrite map_app.
Qed.

(** With the largest element at the right end, pointing at the guard, a
    step is the step of the other cells, and the direction of the
    largest element is reversed. *)
Lemma astep_under_right s s' b :
  Forall (λ c : cell, c.1 < x) s → (2 ≤ length s)%nat →
  astep s = (s', b) →
  astep (s ++ [(x, 1)]) = (s' ++ [(x, -1)], b).
Proof.
  intros Hlt Hlen Hstep.
  assert (Hscan' : scan None (s ++ [(x, 1)]) None 1 None = scan None s None 1 None).
  { rewrite scan_app, scan_cons. simpl hdv. simpl Z.eqb. cbv iota.
    rewrite andb_false_r. simpl scan.
    by apply scan_wall_r, Forall_lt_le. }
  destruct b.
  - destruct (astep_true _ _ Hstep) as (l1 & a & b & l2 & k & max & -> & Hscan & Hk & ->).
    pose proof (scan_max_lt _ _ _ Hlt Hscan) as Hmax.
    rewrite Hscan in Hscan'.
    rewrite (astep_of_scan ((l1 ++ a :: b :: l2) ++ [(x, 1)]) l1 a b (l2 ++ [(x, 1)])
               _ _ ltac:(by rewrite <- app_assoc) Hscan' Hk).
    replace (l1 ++ b :: a :: l2 ++ [(x, 1)]) with ((l1 ++ b :: a :: l2) ++ [(x, 1)])
      by (by rewrite <- !app_assoc).
    rewrite map_app. simpl. unfold flip at 2. simpl.
    by destruct (Z.gtb_spec x max); [|lia].
  - unfold astep in *. rewrite Hscan'.
    destruct (scan None s None 1 None) as [[k max]|].
    + by destruct (s !! (k - 1)%nat) as [[??]|].
    + simplify_eq. by rewrite rollover_app.
Qed.
End largest.

(** ** Runs on cells *)

Lemma acalls_S k cs :
  acalls (S k) cs =
  let '(cs', b) := astep cs in
  let '(cs'', bs) := acalls k cs' in (cs'', b :: bs).
Proof. reflexivity. Qed.

Lemma acalls_app a : ∀ b cs,
  acalls (a + b) cs =
  let '(c1, r1) := acalls a cs in
  let '(c2, r2) := acalls b c1 in (c2, r1 ++ r2).
Proof.
  induction a as [|a IH]; intros b cs.
  - simpl. by destruct (acalls b cs).
  - rewrite Nat.add_succ_l, !acalls_S. destruct (astep cs) as [c' r].
    rewrite IH. destruct (acalls a c') as [c1 r1].
    by destruct (acalls b c1) as [c2 r2].
Qed.

Lemma acalls_app_eq a b cs c1 r1 c2 r2 :
  acalls a cs = (c1, r1) → acalls b c1 = (c2, r2) →
  acalls (a + b) cs = (c2, r1 ++ r2).
Proof. intros H1 H2. by rewrite acalls_app, H1, H2. Qed.

Lemma acalls_1 cs c' b : astep cs = (c', b) → acalls 1 cs = (c', [b]).
Proof. intros H. simpl. by rewrite H. Qed.

Lemma acalls_true_split a b cs c2 :
  acalls (a + b) cs = (c2, replicate (a + b) true) →
  ∃ c1, acalls a cs = (c1, replicate a true) ∧
        acalls b c1 = (c2, replicate b true).
Proof.
  rewrite acalls_app. destruct (acalls a cs) as [c1 r1] eqn:E1.
  destruct (acalls b c1) as [c2' r2] eqn:E2. intros [= -> Hr].
  assert (length r1 = a).
  { clear -E1. revert cs c1 r1 E1. induction a as [|a IH]; intros cs c1 r1.
    - by intros [= _ <-].
    - rewrite acalls_S. destruct (astep cs) as [c' r].
      destruct (acalls a c') as [c'' r'] eqn:E. intros [= _ <-].
      simpl. f_equal. by apply (IH _ _ _ E). }
  rewrite replicate_add in Hr.
  apply app_inj_1 in Hr as [-> ->]; [|by rewrite length_replicate].
  by exists c1.
Qed.

Lemma Forall_map_flip (P : Z → Prop) max (cs : list cell) :
  Forall (λ c : cell, P c.1) cs → Forall (λ c : cell, P c.1) (map (flip max) cs).
Proof.
  induction 1 as [|[v dv] cs Hv _ IH]; constructor; [|done].
  unfold flip. simpl. by destruct (v >? max).
Qed.

Lemma astep_bounded x cs cs' b :
  2 ≤ x → Forall (λ c : cell, c.1 < x) cs → astep cs = (cs', b) →
  Forall (λ c : cell, c.1 < x) cs' ∧ length cs' = length cs.
Proof.
  intros Hx Hb Hstep. destruct b.
  - destruct (astep_true _ _ Hstep) as (l1 & a & b & l2 & k & max & -> & _ & _ & ->).
    split.
    + apply (Forall_map_flip (λ v, v < x)).
      apply Forall_app in Hb as [H1 H2].
      apply Forall_cons_1 in H2 as [Ha H2]. apply Forall_cons_1 in H2 as [Hb H2].
      apply Forall_app. split; [done|]. by repeat constructor.
    + rewrite length_map, !length_app. simpl. done.
  - unfold astep in Hstep.
    destruct (scan None cs None 1 None) as [[k max]|].
    { by destruct (cs !! (k - 1)%nat) as [[??]|]. }
    simplify_eq.
    destruct cs as [|[v0 e0] [|[v1 e1] cs]]; [done|done|]. simpl.
    apply Forall_cons_1 in Hb as [_ Hb]. apply Forall_cons_1 in Hb as [_ Hb].
    split; [|by rewrite length_map].
    constructor; [simpl; lia|]. constructor; [simpl; lia|].
    apply Forall_map. revert Hb. apply List.Forall_impl. by intros [??].
Qed.

Lemma acalls_bounded x k : ∀ cs cs' bs,
  2 ≤ x → Forall (λ c : cell, c.1 < x) cs → acalls k cs = (cs', bs) →
  Forall (λ c : cell, c.1 < x) cs' ∧ length cs' = length cs.
Proof.
  induction k as [|k IH]; intros cs cs' bs Hx Hb; [by intros [= <- _]|].
  rewrite acalls_S. destruct (astep cs) as [c1 b1] eqn:E1.
  destruct (acalls k c1) as [c2 r2] eqn:E2. intros [= <- _].
  destruct (astep_bounded _ _ _ _ Hx Hb E1) as [Hb1 Hl1].
  destruct (IH _ _ _ Hx Hb1 E2) as [Hb2 Hl2]. split; [done|congruence].
Qed.

Section sweeps.
Variable x : Z.
Hypothesis x_nonneg : 0 ≤ x.

Lemma sweep_left l : ∀ l1 l2,
  Forall (λ c : cell, c.1 < x) (l1 ++ l ++ l2) →
  acalls (length l) (l1 ++ l ++ (x, -1) :: l2)
  = (l1 ++ (x, -1) :: l ++ l2, replicate (length l) true).
Proof.
  induction l as [|c l IH] using rev_ind; intros l1 l2 Hb; [done|].
  rewrite length_app. simpl length.
  replace (length l + 1)%nat with (S (length l)) by lia.
  rewrite acalls_S.
  replace (l1 ++ (l ++ [c]) ++ (x, -1) :: l2)
    with ((l1 ++ l) ++ c :: (x, -1) :: l2) by (by rewrite <- !app_assoc).
  rewrite (astep_move_left x x_nonneg).
  2:{ by rewrite <- !app_assoc in *. }
  rewrite <- app_assoc, (IH l1 (c :: l2)).
  2:{ by rewrite <- !app_assoc in Hb. }
  by rewrite <- !app_assoc.
Qed.

Lemma sweep_right l : ∀ l1 l2,
  Forall (λ c : cell, c.1 < x) (l1 ++ l ++ l2) →
  acalls (length l) (l1 ++ (x, 1) :: l ++ l2)
  = (l1 ++ l ++ (x, 1) :: l2, replicate (length l) true).
Proof.
  induction l as [|c l IH]; intros l1 l2 Hb; [done|].
  simpl length. rewrite acalls_S. simpl app.
  rewrite (astep_move_right x x_nonneg) by done.
  replace (l1 ++ c :: (x, 1) :: l ++ l2) with ((l1 ++ [c]) ++ (x, 1) :: l ++ l2)
    by (by rewrite <- !app_assoc).
  rewrite (IH (l1 ++ [c]) l2).
  2:{ by rewrite <- !app_assoc. }
  by rewrite <- !app_assoc.
Qed.
Lemma sweep_left_all s :
  Forall (λ c : cell, c.1 < x) s →
  acalls (length s) (s ++ [(x, -1)]) = ((x, -1) :: s, replicate (length s) true).
Proof.
  intros Hb. pose proof (sweep_left s [] []) as H.
  rewrite !app_nil_r in H. simpl in H. by apply H.
Qed.

Lemma sweep_right_all s :
  Forall (λ c : cell, c.1 < x) s →
  acalls (length s) ((x, 1) :: s) = (s ++ [(x, 1)], replicate (length s) true).
Proof.
  intros Hb. pose proof (sweep_right s [] []) as H.
  rewrite !app_nil_r in H. simpl in H. by apply H.
Qed.
End sweeps.

Section blocks.
Variables (x : Z) (m : nat).
Hypothesis x_ge : 2 ≤ x.
Hypothesis m_ge : (2 ≤ m)%nat.

(** Two steps of the smaller cells, each preceded by a sweep of the
    largest element across them. *)
Lemma double_block s s1 s2 :
  Forall (λ c : cell, c.1 < x) s → length s = m →
  astep s = (s1, true) → astep s1 = (s2, true) →
  acalls (2 * (m + 1)) (s ++ [(x, -1)])
  = (s2 ++ [(x, -1)], replicate (2 * (m + 1)) true).
Proof.
  intros Hb Hl H1 H2.
  destruct (astep_bounded _ _ _ _ x_ge Hb H1) as [Hb1 Hl1].
  replace (2 * (m + 1))%nat with (m + (1 + (m + 1)))%nat by lia.
  rewrite !replicate_add.
  eapply acalls_app_eq.
  { rewrite <- Hl. by apply (sweep_left_all x ltac:(lia)). }
  eapply acalls_app_eq.
  { apply acalls_1. by apply (astep_under_left x ltac:(lia)). }
  eapply acalls_app_eq.
  { replace m with (length s1) by lia. by apply (sweep_right_all x ltac:(lia)). }
  apply acalls_1.
  apply (astep_under_right x ltac:(lia)); [done|lia|done].
Qed.

Lemma blocks j : ∀ s s_end,
  Forall (λ c : cell, c.1 < x) s → length s = m →
  acalls (2 * j) s = (s_end, replicate (2 * j) true) →
  acalls (2 * j * (m + 1)) (s ++ [(x, -1)])
  = (s_end ++ [(x, -1)], replicate (2 * j * (m + 1)) true).
Proof.
  induction j as [|j IH]; intros s s_end Hb Hl Hrun.
  { simpl in *. by inversion Hrun. }
  replace (2 * S j)%nat with (2 + 2 * j)%nat in Hrun by lia.
  apply acalls_true_split in Hrun as (c1 & Hfirst & Hrest).
  simpl in Hfirst.
  destruct (astep s) as [s1 b1] eqn:E1.
  destruct (astep s1) as [s2 b2] eqn:E2.
  assert (s2 = c1 ∧ b1 = true ∧ b2 = true) as (-> & -> & ->)
    by (by inversion Hfirst).
  destruct (astep_bounded _ _ _ _ x_ge Hb E1) as [Hb1 Hl1].
  destruct (astep_bounded _ _ _ _ x_ge Hb1 E2) as [Hb2 Hl2].
  replace (2 * S j * (m + 1))%nat with (2 * (m + 1) + 2 * j * (m + 1))%nat by lia.
  rewrite replicate_add.
  eapply acalls_app_eq; [by apply (double_block s s1)|].
  apply IH; [done|lia|done].
Qed.
End blocks.

(** ** The cycle, on cells *)

Lemma init_cells_S m :
  init_cells (S m) = init_cells m ++ [(Z.of_nat m, -1)].
Proof. unfold init_cells. by rewrite seq_S, map_app. Qed.

Lemma init_cells_bounded m :
  Forall (λ c : cell, c.1 < Z.of_nat m) (init_cells m).
Proof.
  induction m as [|m IH]; [constructor|].
  rewrite init_cells_S. apply Forall_app. split.
  - revert IH. apply List.Forall_impl. intros c. lia.
  - constructor; [simpl; lia|constructor].
Qed.

Lemma length_init_cells m : length (init_cells m) = m.
Proof. unfold init_cells. by rewrite length_map, length_seq. Qed.

(** The cycle of the cells: [m! - 1] successful steps, then a step that
    fails and leaves the initial cells. *)
Lemma cells_cycle m :
  (2 ≤ m)%nat →
  ∃ c_last,
    acalls (fact m - 1) (init_cells m) = (c_last, replicate (fact m - 1) true) ∧
    astep c_last = (init_cells m, false).
Proof.
  induction m as [|m IH]; [lia|]. intros Hm.
  destruct (decide (m = 1%nat)) as [->|Hne].
  { by eexists. }
  destruct IH as (c_last & Hrun & Hlast); [lia|].
  destruct m as [|[|m']]; [lia|lia|].
  set (m := S (S m')) in *.
  destruct (SJTFacts.fact_even m') as [j' Hj']. fold m in Hj'.
  assert (Hj : (fact m - 1 = 2 * (j' - 1) + 1)%nat).
  { pose proof (lt_O_fact m). lia. }
  rewrite Hj in Hrun.
  apply acalls_true_split in Hrun as (s_a & Hrun & Hstep).
  simpl in Hstep. destruct (astep s_a) as [c1 b1] eqn:Ea. simplify_eq.
  pose proof (init_cells_bounded m) as Hb0.
  assert (Hx : 2 ≤ Z.of_nat m) by lia.
  destruct (acalls_bounded _ _ _ _ _ Hx Hb0 Hrun) as [Hba Hla].
  destruct (astep_bounded _ _ _ _ Hx Hba Ea) as [Hbl Hll].
  rewrite length_init_cells in Hla.
  exists (c_last ++ [(Z.of_nat m, 1)]). split.
  - rewrite init_cells_S.
    replace (fact (S m) - 1)%nat
      with (2 * (j' - 1) * (m + 1) + (m + (1 + m)))%nat.
    2:{ change (fact (S m)) with (S m * fact m)%nat. lia. }
    rewrite !replicate_add.
    eapply acalls_app_eq.
    { apply (blocks (Z.of_nat m) m Hx ltac:(lia) (j' - 1));
        [done|apply length_init_cells|done]. }
    eapply acalls_app_eq.
    { replace (replicate m true) with (replicate (length s_a) true) by (by rewrite Hla).
      replace (acalls m) with (acalls (length s_a)) by (by rewrite Hla).
      by apply (sweep_left_all (Z.of_nat m) ltac:(lia)). }
    eapply acalls_app_eq.
    { apply acalls_1. by apply (astep_under_left (Z.of_nat m) ltac:(lia)). }
    replace (replicate m true) with (replicate (length c_last) true)
      by (f_equal; lia).
    replace (acalls m) with (acalls (length c_last)) by (f_equal; lia).
    by apply (sweep_right_all (Z.of_nat m) ltac:(lia)).
  - rewrite init_cells_S.
    apply (astep_under_right (Z.of_nat m) ltac:(lia)); [done|lia|done].
Qed.

(** ** From the arrays to the cells *)

Lemma store_app {A} (a : list A) u b v :
  Slice.store (a ++ u :: b) (length a) v = Some (a ++ v :: b).
Proof.
  unfold Slice.store. rewrite decide_True by (rewrite length_app; simpl; lia).
  by rewrite insert_app_r_alt, Nat.sub_diag by lia.
Qed.

Lemma getZ_app (a : list Z) u b i :
  i = Z.of_nat (length a) → Slice.getZ (a ++ u :: b) i = Some u.
Proof.
  intros ->. unfold Slice.getZ. rewrite (proj2 (Z.leb_le 0 _)) by lia.
  rewrite Nat2Z.id. by apply list_lookup_middle.
Qed.

Lemma setZ_app (a : list Z) u b i v :
  i = Z.of_nat (length a) → Slice.setZ (a ++ u :: b) i v = Some (a ++ v :: b).
Proof.
  intros ->. unfold Slice.setZ. rewrite (proj2 (Z.leb_le 0 _)) by lia.
  rewrite Nat2Z.id. apply store_app.
Qed.

Lemma find_mobile_cons i ixs p d k max :
  find_mobile (i :: ixs) p d k max =
  match p !! i with
  | Some v =>
      if v >? max then
        match d !! i with
        | Some di =>
            match Slice.getZ p (Z.of_nat i + di) with
            | Some w =>
                if v >? w then find_mobile ixs p d (Z.of_nat i) v
                else find_mobile ixs p d k max
            | None => None
            end
        | None => None
        end
      else find_mobile ixs p d k max
  | None => None
  end.
Proof. reflexivity. Qed.

Lemma nb_ok_tail o w c cs : nb_ok o w (c :: cs) → nb_ok o w cs.
Proof. destruct o; simpl; [done|]. by intros [_ ?]%Forall_cons_1. Qed.

Lemma find_mobile_scan cs : ∀ a wl a' b wr b' prev nend i acc,
  length (a ++ [wl]) = i → length a' = i →
  nb_ok prev wl cs → nb_ok nend wr cs → dirs_ok cs →
  find_mobile (seq i (length cs))
              ((a ++ [wl]) ++ map fst cs ++ wr :: b)
              (a' ++ map snd cs ++ b')
              (enck acc) (amax acc)
  = Some (enck (scan prev cs nend i acc), amax (scan prev cs nend i acc)).
Proof.
  induction cs as [|[v dv] cs IH];
    intros a wl a' b wr b' prev nend i acc Ha Ha' Hprev Hnend Hdirs; [done|].
  apply Forall_cons_1 in Hdirs as [Hdv Hdirs]. simpl in Hdv.
  simpl length. simpl seq. rewrite find_mobile_cons, scan_cons.
  simpl map. rewrite <- !app_comm_cons.
  rewrite (list_lookup_middle (a ++ [wl]) _ v i) by done.
  assert (Hrec : ∀ acc',
    find_mobile (seq (S i) (length cs))
      ((a ++ [wl]) ++ v :: map fst cs ++ wr :: b)
      (a' ++ dv :: map snd cs ++ b') (enck acc') (amax acc')
    = Some (enck (scan (Some v) cs nend (S i) acc'),
            amax (scan (Some v) cs nend (S i) acc'))).
  { intros acc'.
    replace ((a ++ [wl]) ++ v :: map fst cs ++ wr :: b)
      with (((a ++ [wl]) ++ [v]) ++ map fst cs ++ wr :: b)
      by (by rewrite <- !app_assoc).
    replace (a' ++ dv :: map snd cs ++ b')
      with ((a' ++ [dv]) ++ map snd cs ++ b') by (by rewrite <- !app_assoc).
    apply IH; try done.
    - rewrite length_app. simpl. lia.
    - rewrite length_app. simpl. lia.
    - by apply nb_ok_tail in Hnend. }
  destruct (Z.gtb_spec v (amax acc)) as [Hgt|Hle]; [|apply (Hrec acc)].
  rewrite (list_lookup_middle a' _ dv i) by done.
  simpl andb.
  assert (Hnb : Slice.getZ ((a ++ [wl]) ++ v :: map fst cs ++ wr :: b) (Z.of_nat i + dv)
                = Some (if dv =? -1 then wl
                        else match cs with [] => wr | (w, _) :: _ => w end)).
  { destruct Hdv as [-> | ->]; simpl Z.eqb; cbv iota.
    - replace ((a ++ [wl]) ++ v :: map fst cs ++ wr :: b)
        with (((a ++ [wl]) ++ [v]) ++
              (match cs with [] => wr | (w, _) :: _ => w end) ::
              (match cs with [] => b | _ :: cs' => map fst cs' ++ wr :: b end)).
      2:{ rewrite <- !app_assoc. simpl. by destruct cs as [|[??]?]. }
      apply getZ_app. rewrite length_app. simpl. lia.
    - rewrite <- (app_assoc a). simpl.
      apply getZ_app. rewrite length_app in Ha. simpl in Ha. lia. }
  rewrite Hnb. clear Hnb.
  destruct Hdv as [-> | ->]; simpl Z.eqb; cbv iota.
  - (* pointing right *)
    destruct cs as [|[w e] cs]; simpl hdv.
    + destruct nend as [u|]; simpl in Hnend.
      * subst wr. destruct (v >? u); [apply (Hrec (Some (i, v)))|apply (Hrec acc)].
      * apply Forall_cons_1 in Hnend as [Hv _]. simpl in Hv.
        destruct (Z.gtb_spec v wr); [lia|]. apply (Hrec acc).
    + destruct (v >? w); [apply (Hrec (Some (i, v)))|apply (Hrec acc)].
  - (* pointing left *)
    destruct prev as [u|]; simpl in Hprev.
    + subst wl. destruct (v >? u); [apply (Hrec (Some (i, v)))|apply (Hrec acc)].
    + apply Forall_cons_1 in Hprev as [Hv _]. simpl in Hv.
      destruct (Z.gtb_spec v wl); [lia|]. apply (Hrec acc).
Qed.

Lemma getZ_app2 (a : list Z) u v b i :
  i = Z.of_nat (length a) + 1 → Slice.getZ (a ++ u :: v :: b) i = Some v.
Proof.
  intros ->. replace (a ++ u :: v :: b) with ((a ++ [u]) ++ v :: b)
    by (by rewrite <- app_assoc).
  apply getZ_app. rewrite length_app. simpl. lia.
Qed.

Lemma setZ_app2 (a : list Z) u v b i x :
  i = Z.of_nat (length a) + 1 →
  Slice.setZ (a ++ u :: v :: b) i x = Some (a ++ u :: x :: b).
Proof.
  intros ->. replace (a ++ u :: v :: b) with ((a ++ [u]) ++ v :: b)
    by (by rewrite <- app_assoc).
  rewrite (setZ_app (a ++ [u]) v b _ x) by (rewrite length_app; simpl; lia).
  by rewrite <- app_assoc.
Qed.

Lemma reset_dirs_spec l : ∀ a b,
  reset_dirs (seq (length a) (length l)) (a ++ l ++ b)
  = Some (a ++ map (λ _, -1) l ++ b).
Proof.
  induction l as [|u l IH]; intros a b; [done|].
  simpl length. simpl seq. simpl reset_dirs. rewrite <- ?app_comm_cons.
  rewrite store_app.
  replace (a ++ -1 :: l ++ b) with ((a ++ [-1]) ++ l ++ b) by (by rewrite <- app_assoc).
  replace (S (length a)) with (length (a ++ [-1])) by (rewrite length_app; simpl; lia).
  rewrite IH. by rewrite <- app_assoc.
Qed.

Lemma flip_dirs_spec max cs : ∀ a a' b b',
  length a = length a' →
  flip_dirs (seq (length a) (length cs))
            (a ++ map fst cs ++ b) (a' ++ map snd cs ++ b') max
  = Some (a' ++ map snd (map (flip max) cs) ++ b').
Proof.
  induction cs as [|[v dv] cs IH]; intros a a' b b' Hlen; [done|].
  simpl length. simpl seq. simpl map. rewrite <- ?app_comm_cons.
  simpl flip_dirs. rewrite list_lookup_middle by done.
  unfold flip at 1. simpl fst. simpl snd.
  assert (Hrec : ∀ e,
    flip_dirs (seq (S (length a)) (length cs))
              (a ++ v :: map fst cs ++ b) (a' ++ e :: map snd cs ++ b') max
    = Some (a' ++ e :: map snd (map (flip max) cs) ++ b')).
  { intros e.
    replace (a ++ v :: map fst cs ++ b) with ((a ++ [v]) ++ map fst cs ++ b)
      by (by rewrite <- app_assoc).
    replace (a' ++ e :: map snd cs ++ b') with ((a' ++ [e]) ++ map snd cs ++ b')
      by (by rewrite <- app_assoc).
    replace (S (length a)) with (length (a ++ [v])) by (rewrite length_app; simpl; lia).
    rewrite IH by (rewrite !length_app; simpl; lia).
    by rewrite <- app_assoc. }
  destruct (v >? max); simpl snd; [|apply Hrec].
  rewrite list_lookup_middle by done.
  rewrite Hlen, store_app. rewrite <- Hlen. apply Hrec.
Qed.

Lemma map_fst_flip max (cs : list cell) : map fst (map (flip max) cs) = map fst cs.
Proof.
  induction cs as [|[v dv] cs IH]; [done|]. simpl. rewrite IH.
  unfold flip. simpl. by destruct (v >? max).
Qed.

(** On a state whose guards are at least as large as every element and
    whose direction flags are 1 or -1, [step] does to the arrays what
    [astep] does to the cells. *)
Lemma step_embed n gl gr d0 d1 cs :
  (2 ≤ n)%nat → length cs = n →
  Forall (λ c : cell, c.1 ≤ gl) cs → Forall (λ c : cell, c.1 ≤ gr) cs →
  dirs_ok cs →
  step (embed n gl gr d0 d1 cs)
  = Some (embed n gl gr d0 d1 (astep cs).1, (astep cs).2).
Proof.
  intros Hn Hlen Hgl Hgr Hdirs. subst n.
  unfold step, embed. cbn [sn sp sd].
  pose proof (find_mobile_scan cs [] gl [d0] [] gr [d1] None None 1 None
                eq_refl eq_refl Hgl Hgr Hdirs) as Hfm.
  cbn [app enck amax] in Hfm. rewrite Hfm. clear Hfm.
  destruct (scan None cs None 1 None) as [[k max]|] eqn:Hscan.
  - destruct (scan_found _ _ _ Hscan) as (l1 & a & b & l2 & Hcs & Hk).
    assert (Hk' : (k = S (length l1) ∧ (a.2 =? -1) = false) ∨
                  (k = S (S (length l1)) ∧ b.2 = -1)).
    { destruct Hk as [(? & _ & ? & _)|(? & -> & _)]; [by left|by right]. }
    rewrite (astep_of_scan _ _ _ _ _ _ _ Hcs Hscan Hk'). cbn [fst snd enck amax].
    assert (Hk0 : (Z.of_nat k =? 0) = false) by (apply Z.eqb_neq; lia).
    rewrite Hk0. clear Hk0 Hk'.
    set (cs2 := l1 ++ b :: a :: l2).
    assert (Hl2 : length cs = length cs2).
    { subst cs cs2. rewrite !length_app. done. }
    assert (Hp : gl :: map fst cs ++ [gr]
                 = (gl :: map fst l1) ++ a.1 :: b.1 :: (map fst l2 ++ [gr])).
    { subst cs. rewrite map_app. simpl. by rewrite <- app_assoc. }
    assert (Hd : d0 :: map snd cs ++ [d1]
                 = (d0 :: map snd l1) ++ a.2 :: b.2 :: (map snd l2 ++ [d1])).
    { subst cs. rewrite map_app. simpl. by rewrite <- app_assoc. }
    assert (Hp2 : (gl :: map fst l1) ++ b.1 :: a.1 :: (map fst l2 ++ [gr])
                  = [gl] ++ map fst cs2 ++ [gr]).
    { subst cs2. rewrite map_app. simpl. by rewrite <- app_assoc. }
    assert (Hd2 : (d0 :: map snd l1) ++ b.2 :: a.2 :: (map snd l2 ++ [d1])
                  = [d0] ++ map snd cs2 ++ [d1]).
    { subst cs2. rewrite map_app. simpl. by rewrite <- app_assoc. }
    assert (Hdirs2 : a.2 = 1 ∨ a.2 = -1).
    { subst cs. apply Forall_app in Hdirs as [_ Hd']. by apply Forall_cons_1 in Hd' as [? _]. }
    rewrite Hp, Hd, Hl2.
    assert (HlenA : length (gl :: map fst l1) = S (length l1))
      by (simpl; by rewrite length_map).
    assert (HlenA' : length (d0 :: map snd l1) = S (length l1))
      by (simpl; by rewrite length_map).
    destruct Hk as [(-> & Hmax & Ha & Hlt)|(-> & Hb & Hlt)].
    + (* the mobile element points right *)
      assert (Ha1 : a.2 = 1).
      { destruct Hdirs2 as [?|Hm]; [done|]. rewrite Hm in Ha. done. }
      rewrite (getZ_app _ _ _ _ ltac:(rewrite HlenA'; done)).
      rewrite (getZ_app2 _ _ _ _ (Z.of_nat (S (length l1)) + a.2))
        by (rewrite HlenA, Ha1; lia).
      rewrite (setZ_app _ _ _ _ _ ltac:(rewrite HlenA; done)).
      rewrite (setZ_app2 _ _ _ _ (Z.of_nat (S (length l1)) + a.2))
        by (rewrite HlenA, Ha1; lia).
      rewrite (getZ_app2 _ _ _ _ (Z.of_nat (S (length l1)) + a.2))
        by (rewrite HlenA', Ha1; lia).
      rewrite (setZ_app _ _ _ _ _ ltac:(rewrite HlenA'; done)).
      rewrite (setZ_app2 _ _ _ _ (Z.of_nat (S (length l1)) + a.2))
        by (rewrite HlenA', Ha1; lia).
      rewrite <- Hmax, Hp2, Hd2.
      change (seq 1 (length cs2)) with (seq (length [gl]) (length cs2)).
      rewrite flip_dirs_spec by done.
      by rewrite map_fst_flip.
    + (* the mobile element points left *)
      destruct b as [vb db]. injection Hb as -> ->. cbn [fst snd] in *.
      rewrite (getZ_app2 _ _ _ _ (Z.of_nat (S (S (length l1)))))
        by (rewrite HlenA'; lia).
      rewrite (getZ_app _ _ _ (Z.of_nat (S (S (length l1))) + -1))
        by (rewrite HlenA; lia).
      rewrite (setZ_app2 _ _ _ _ (Z.of_nat (S (S (length l1)))))
        by (rewrite HlenA; lia).
      rewrite (setZ_app _ _ _ (Z.of_nat (S (S (length l1))) + -1))
        by (rewrite HlenA; lia).
      rewrite (getZ_app _ _ _ (Z.of_nat (S (S (length l1))) + -1))
        by (rewrite HlenA'; lia).
      rewrite (setZ_app2 _ _ _ _ (Z.of_nat (S (S (length l1)))))
        by (rewrite HlenA'; lia).
      rewrite (setZ_app _ _ _ (Z.of_nat (S (S (length l1))) + -1))
        by (rewrite HlenA'; lia).
      rewrite Hp2, Hd2.
      change (seq 1 (length cs2)) with (seq (length [gl]) (length cs2)).
      rewrite flip_dirs_spec by done.
      by rewrite map_fst_flip.
  - cbn [enck]. simpl Z.eqb. cbv iota.
    unfold astep. rewrite Hscan. cbn [fst snd].
    destruct cs as [|[v0 e0] [|[v1 e1] rest]]; simpl in Hn; [lia|lia|].
    simpl map. simpl rollover.
    change (gl :: (v0 :: v1 :: map fst rest) ++ [gr])
      with ([gl] ++ v0 :: (v1 :: map fst rest ++ [gr])).
    rewrite (store_app [gl]).
    change ([gl] ++ 0 :: v1 :: map fst rest ++ [gr])
      with ([gl; 0] ++ v1 :: (map fst rest ++ [gr])).
    rewrite (store_app [gl; 0]).
    simpl length.
    replace (S (S (length rest)) - 2)%nat with (length (map snd rest))
      by (rewrite length_map; lia).
    change (d0 :: (e0 :: e1 :: map snd rest) ++ [d1])
      with ([d0; e0; e1] ++ map snd rest ++ [d1]).
    change 3%nat with (length [d0; e0; e1]).
    rewrite reset_dirs_spec. simpl app.
    rewrite !map_map. reflexivity.
Qed.

(** ** The cycle of the step function *)

Lemma flip_dir_ok max (c : cell) :
  c.2 = 1 ∨ c.2 = -1 → (flip max c).2 = 1 ∨ (flip max c).2 = -1.
Proof. destruct c as [v dv]. unfold flip. simpl. destruct (v >? max); simpl; lia. Qed.

Lemma astep_dirs cs cs' b : dirs_ok cs → astep cs = (cs', b) → dirs_ok cs'.
Proof.
  unfold dirs_ok. intros Hd Hstep. destruct b.
  - destruct (astep_true _ _ Hstep) as (l1 & a & b & l2 & k & max & -> & _ & _ & ->).
    apply Forall_app in Hd as [H1 H2].
    apply Forall_cons_1 in H2 as [Ha H2]. apply Forall_cons_1 in H2 as [Hb H2].
    apply Forall_map. apply Forall_app. split.
    + revert H1. apply List.Forall_impl. intros c. apply flip_dir_ok.
    + constructor; [by apply flip_dir_ok|]. constructor; [by apply flip_dir_ok|].
      revert H2. apply List.Forall_impl. intros c. apply flip_dir_ok.
  - unfold astep in Hstep.
    destruct (scan None cs None 1 None) as [[k max]|].
    { by destruct (cs !! (k - 1)%nat) as [[??]|]. }
    injection Hstep as <-.
    destruct cs as [|[v0 e0] [|[v1 e1] cs]]; [done|done|]. simpl.
    apply Forall_cons_1 in Hd as [H0 Hd]. apply Forall_cons_1 in Hd as [H1 Hd].
    constructor; [done|]. constructor; [done|].
    apply Forall_map, Forall_forall. intros c _. by right.
Qed.

Lemma step_calls_S k s :
  calls (S k) s =
  match step s with
  | Some (s', b) =>
      match calls k s' with
      | Some (s'', bs) => Some (s'', b :: bs)
      | None => None
      end
  | None => None
  end.
Proof. reflexivity. Qed.

Lemma step_calls_app a : ∀ b s s1 r1 s2 r2,
  calls a s = Some (s1, r1) → calls b s1 = Some (s2, r2) →
  calls (a + b) s = Some (s2, r1 ++ r2).
Proof.
  induction a as [|a IH]; intros b s s1 r1 s2 r2 H1 H2.
  - by injection H1 as <- <-.
  - rewrite Nat.add_succ_l, step_calls_S. rewrite step_calls_S in H1.
    destruct (step s) as [[s' b']|]; [|done].
    destruct (calls a s') as [[s'' bs]|] eqn:E; [|done].
    injection H1 as <- <-. by rewrite (IH _ _ _ _ _ _ E H2).
Qed.

(** A run of the step function is the run of [astep] on the cells. *)
Lemma calls_embed n d0 d1 k : ∀ cs,
  (2 ≤ n)%nat → length cs = n →
  Forall (λ c : cell, c.1 < Z.of_nat n) cs → dirs_ok cs →
  calls k (embed n (Z.of_nat n) (Z.of_nat n) d0 d1 cs)
  = Some (embed n (Z.of_nat n) (Z.of_nat n) d0 d1 (acalls k cs).1,
          (acalls k cs).2).
Proof.
  induction k as [|k IH]; intros cs Hn Hlen Hb Hd; [done|].
  rewrite step_calls_S, acalls_S.
  rewrite step_embed by (done || by apply Forall_lt_le).
  destruct (astep cs) as [cs' b] eqn:E. cbn [fst snd].
  destruct (astep_bounded (Z.of_nat n) _ _ _ ltac:(lia) Hb E) as [Hb' Hl'].
  pose proof (astep_dirs _ _ _ Hd E) as Hd'.
  rewrite IH by (done || lia).
  by destruct (acalls k cs') as [cs'' bs].
Qed.

Lemma init_loop_spec m : ∀ j pa da,
  length pa = S j → length da = j →
  init_loop (seq j m) (pa ++ replicate m 0) (da ++ replicate (S m) 0)
  = Some (pa ++ map Z.of_nat (seq j m), da ++ replicate m (-1) ++ [0]).
Proof.
  induction m as [|m IH]; intros j pa da Hpa Hda; [done|].
  simpl seq. simpl init_loop. simpl replicate.
  rewrite <- Hpa, store_app. subst j. rewrite store_app.
  replace (pa ++ Z.of_nat (length da) :: replicate m 0)
    with ((pa ++ [Z.of_nat (length da)]) ++ replicate m 0) by (by rewrite <- app_assoc).
  replace (da ++ -1 :: 0 :: replicate m 0)
    with ((da ++ [-1]) ++ replicate (S m) 0) by (by rewrite <- app_assoc).
  rewrite Hpa.
  rewrite IH by (rewrite length_app; simpl; lia).
  by rewrite <- !app_assoc.
Qed.

Lemma map_fst_init_cells n : map fst (init_cells n) = map Z.of_nat (seq 0 n).
Proof. unfold init_cells. by rewrite map_map. Qed.

Lemma map_snd_init_cells n : map snd (init_cells n) = replicate n (-1).
Proof.
  unfold init_cells. rewrite map_map. simpl.
  generalize 0%nat. induction n as [|n IH]; intros j; [done|].
  simpl. by rewrite IH.
Qed.

Lemma SJTE_init n : SJTE n = Some (init n).
Proof.
  unfold SJTE.
  replace (n + 2)%nat with (S (S n)) by lia. simpl replicate.
  change (Slice.store (0 :: 0 :: replicate n 0) 0 (Z.of_nat n))
    with (Slice.store ([] ++ 0 :: 0 :: replicate n 0) (length (@nil Z)) (Z.of_nat n)).
  rewrite store_app. simpl app. simpl length. rewrite length_replicate.
  replace (S (S n) - 1)%nat with (S n) by lia.
  pose proof (init_loop_spec (S n) 0 [Z.of_nat n] [] eq_refl eq_refl) as H.
  simpl app in H. simpl replicate in H. simpl replicate. rewrite H.
  change (Z.of_nat 0 :: map Z.of_nat (seq 1 n)) with (map Z.of_nat (seq 0 (S n))).
  unfold init, embed. rewrite map_fst_init_cells, map_snd_init_cells.
  by rewrite seq_S, map_app.
Qed.

Lemma view_init n : view (init n) = map Z.of_nat (seq 0 n).
Proof.
  unfold view, init, embed. cbn [sn sp]. rewrite skipn_cons, drop_0.
  rewrite map_fst_init_cells.
  rewrite take_app_length'; [done|]. by rewrite length_map, length_seq.
Qed.

Lemma init_cells_dirs n : dirs_ok (init_cells n).
Proof.
  unfold dirs_ok, init_cells. apply Forall_map, Forall_forall. intros; by right.
Qed.

Lemma step_calls_prefix a : ∀ b s,
  is_Some (calls (a + b) s) → is_Some (calls a s).
Proof.
  induction a as [|a IH]; intros b s H; [by eexists|].
  rewrite Nat.add_succ_l, step_calls_S in H. rewrite step_calls_S.
  destruct (step s) as [[s' b']|]; [|by destruct H].
  destruct (calls (a + b) s') as [[s1 bs1]|] eqn:E; [|by destruct H].
  destruct (IH b s') as [[s'' bs] Hs]; [by rewrite E|].
  rewrite Hs. by eexists.
Qed.

(** One cycle: [n! - 1] calls return true and the next returns false,
    leaving the initial state. *)
Lemma SJTE_cycle_run (n : nat) :
  (1 ≤ n)%nat →
  ∃ s_last,
    calls (fact n - 1) (init n) = Some (s_last, replicate (fact n - 1) true) ∧
    step s_last = Some (init n, false).
Proof.
  intros Hn. destruct (decide (n = 1%nat)) as [->|Hne].
  { by exists (init 1). }
  destruct (cells_cycle n ltac:(lia)) as (c_last & Hrun & Hlast).
  exists (embed n (Z.of_nat n) (Z.of_nat n) (-1) 0 c_last).
  pose proof (init_cells_bounded n) as Hb.
  pose proof (init_cells_dirs n) as Hd.
  assert (Hdl : dirs_ok c_last).
  { clear -Hrun Hd. revert Hrun Hd. generalize (init_cells n).
    generalize (replicate (fact n - 1) true).
    induction (fact n - 1)%nat as [|k IH]; intros bs cs Hrun Hd.
    - by injection Hrun as <-.
    - rewrite acalls_S in Hrun. destruct (astep cs) as [c1 b1] eqn:E1.
      destruct (acalls k c1) as [c2 r2] eqn:E2. injection Hrun as <- _.
      apply (IH _ _ E2). by apply (astep_dirs _ _ _ Hd E1). }
  destruct (acalls_bounded (Z.of_nat n) _ _ _ _ ltac:(lia) Hb Hrun) as [Hbl Hll].
  rewrite length_init_cells in Hll.
  split.
  - unfold init. rewrite calls_embed;
      [by rewrite Hrun|lia|apply length_init_cells|done|done].
  - rewrite step_embed by (done || lia || by apply Forall_lt_le).
    by rewrite Hlast.
Qed.

(** Any number of cycles: each is [n! - 1] times true and once false. *)
Lemma SJTE_cycles (n : nat) :
  (1 ≤ n)%nat →
  ∀ c, calls (c * fact n) (init n)
       = Some (init n,
               mjoin (replicate c (replicate (fact n - 1) true ++ [false]))).
Proof.
  intros Hn. destruct (SJTE_cycle_run n Hn) as (s_last & Hrun & Hlast).
  assert (Hone : calls (fact n) (init n)
                 = Some (init n, replicate (fact n - 1) true ++ [false])).
  { replace (fact n) with ((fact n - 1) + 1)%nat at 1
      by (pose proof (lt_O_fact n); lia).
    eapply step_calls_app; [exact Hrun|]. simpl. by rewrite Hlast. }
  induction c as [|c IH]; [done|].
  replace (S c * fact n)%nat with (fact n + c * fact n)%nat by lia.
  simpl replicate. simpl mjoin.
  by apply (step_calls_app _ _ _ _ _ _ _ Hone IH).
Qed.

(** C4, amended: for [n >= 1], [SJTE(n)] returns the identity order and a
    step function that returns true on the first [n! - 1] calls of each
    cycle; the [n!]-th call returns false and leaves the state as [SJTE]
    built it, the returned slice being the identity order again, so that
    every further cycle is the same. *)
Theorem SJTE_cycle (n : nat) :
  (1 ≤ n)%nat →
  SJTE n = Some (init n) ∧
  view (init n) = map Z.of_nat (seq 0 n) ∧
  (∃ s_last,
     calls (fact n - 1) (init n) = Some (s_last, replicate (fact n - 1) true) ∧
     step s_last = Some (init n, false)) ∧
  ∀ c, calls (c * fact n) (init n)
       = Some (init n,
               mjoin (replicate c (replicate (fact n - 1) true ++ [false]))).
Proof.
  intros Hn. split_and!.
  - apply SJTE_init.
  - apply view_init.
  - by apply SJTE_cycle_run.
  - by apply SJTE_cycles.
Qed.

Lemma SJTE_cycle_witness :
  SJTE 3 = Some (init 3) ∧
  view (init 3) = [0; 1; 2] ∧
  (∃ s_last,
     calls 5 (init 3) = Some (s_last, [true; true; true; true; true]) ∧
     step s_last = Some (init 3, false)) ∧
  ∀ c, calls (c * 6) (init 3)
       = Some (init 3,
               mjoin (replicate c ([true; true; true; true; true] ++ [false]))).
Proof. apply (SJTE_cycle 3). lia. Defined.

(** C4 as stated fails: for [n = 2] the second call already returns
    false, so the first [2!] calls are not all successful. *)
Lemma SJTE_second_call_false :
  ¬ ∃ s s', SJTE 2 = Some s ∧
            calls (fact 2 + 1) s = Some (s', replicate (fact 2) true ++ [false]).
Proof.
  intros (s & s' & Hs & Hc). vm_compute in Hs. injection Hs as <-.
  vm_compute in Hc. discriminate.
Qed.

(** For [n >= 1] every call of the step function returns: no access is
    out of range. *)
Lemma SJTE_returns (n k : nat) :
  (1 ≤ n)%nat → ∃ s, SJTE n = Some s ∧ is_Some (calls k s).
Proof.
  intros Hn. pose proof (SJTE_cycles n Hn) as Hall.
  exists (init n). split; [apply SJTE_init|].
  apply (step_calls_prefix k (k * fact n - k)).
  replace (k + (k * fact n - k))%nat with (k * fact n)%nat
    by (pose proof (lt_O_fact n); nia).
  rewrite Hall. by eexists.
Qed.

End SJTEFacts.

(** * Ints *)

Module UtilFacts.
Import Util.

Lemma ints_loop_spec m : ∀ (pa : list Z),
  ints_loop (seq (length pa) m) (pa ++ replicate m 0)
  = Some (pa ++ map Z.of_nat (seq (length pa) m)).
Proof.
  induction m as [|m IH]; intros pa; [done|].
  simpl seq. simpl ints_loop. simpl replicate.
  rewrite SJTEFacts.store_app.
  replace (pa ++ Z.of_nat (length pa) :: replicate m 0)
    with ((pa ++ [Z.of_nat (length pa)]) ++ replicate m 0) by (by rewrite <- app_assoc).
  replace (S (length pa)) with (length (pa ++ [Z.of_nat (length pa)]))
    by (rewrite length_app; simpl; lia).
  rewrite IH. rewrite <- app_assoc. simpl. do 3 f_equal.
  all: try (rewrite length_app; simpl; f_equal; lia).
Qed.

(** X1. [Ints(n)] returns, without panic, the slice [0, 1, ..., n-1]. *)
Theorem Ints_spec (n : nat) :
  Ints n = Some (map Z.of_nat (seq 0 n)).
Proof.
  unfold Ints. rewrite length_replicate.
  apply (ints_loop_spec n []).
Qed.

End UtilFacts.

(** * SJTRecursive: the values are not considered *)

Module SJTRelabel.
Import SJT.
Local Open Scope Z_scope.

Lemma swap_fmap (f : Z → Z) (p : list Z) i j :
  Slice.swap (f <$> p) i j = fmap (M:=option) (fmap (M:=list) f) (Slice.swap p i j).
Proof.
  unfold Slice.swap. rewrite !list_lookup_fmap.
  destruct (p !! i) as [x|]; [|done]. destruct (p !! j) as [y|]; [|done].
  simpl. by rewrite !list_fmap_insert.
Qed.

Lemma swapZ_fmap (f : Z → Z) (p : list Z) i j :
  swapZ (f <$> p) i j = fmap (M:=option) (fmap (M:=list) f) (swapZ p i j).
Proof. unfold swapZ. destruct (_ && _); [apply swap_fmap|done]. Qed.

Lemma step_fmap (f : Z → Z) g : ∀ p : list Z,
  step g (f <$> p)
  = option_map (λ r : gen * list Z * bool, (r.1.1, f <$> r.1.2, r.2)) (step g p).
Proof.
  induction g as [perm|n perm i d p0 IH]; intros p; [done|].
  simpl step. rewrite length_fmap.
  destruct (negb perm); [done|].
  destruct (i =? Z.of_nat n).
  - destruct (_ && _); [|done].
    rewrite <- fmap_take, IH, <- fmap_drop.
    destruct (step p0 _) as [[[p0' q] b]|]; [|done].
    simpl. by rewrite fmap_app.
  - destruct (i =? 0).
    + destruct (1 <=? _); [|done].
      rewrite <- fmap_drop, IH, <- fmap_take.
      destruct (step p0 _) as [[[p0' q] b]|]; [|done].
      simpl. rewrite <- fmap_app. destruct (negb b); [|done].
      rewrite swap_fmap. by destruct (Slice.swap _ 0 1).
    + rewrite swapZ_fmap. by destruct (swapZ p i (i - 1)).
Qed.

Lemma calls_fmap (f : Z → Z) k : ∀ g (p : list Z),
  calls k g (f <$> p)
  = option_map (λ r : gen * list Z * list bool, (r.1.1, f <$> r.1.2, r.2))
               (calls k g p).
Proof.
  induction k as [|k IH]; intros g p; [done|].
  simpl calls. rewrite step_fmap.
  destruct (step g p) as [[[g' q] b]|]; [|done].
  simpl. rewrite IH. by destruct (calls k g' q) as [[[g'' q'] bs]|].
Qed.

(** X3. [SJTRecursive] does not look at the values in the slice: relabelling
    the elements of [p] by any function [f] commutes with any number of
    calls of the iterator.  The booleans returned and the state of the
    generator are the same, and the slice is the relabelled one. *)
Theorem SJTRecursive_relabel (f : Z → Z) (p : list Z) (k : nat) :
  calls k (SJTRecursive (f <$> p)) (f <$> p)
  = option_map (λ r : gen * list Z * list bool, (r.1.1, f <$> r.1.2, r.2))
               (calls k (SJTRecursive p) p).
Proof. unfold SJTRecursive. rewrite length_fmap. apply calls_fmap. Qed.

End SJTRelabel.

(** * LexNext: locality; LexNextSort over any sort.Interface *)

Module LexMore.
Import Lex LexFacts.
Local Open Scope Z_scope.

Lemma LexNext_total p : ∃ b q, LexNext p = Some (b, q).
Proof.
  destruct (nonincreasing p) eqn:E.
  - exists false, p. by apply LexNext_last.
  - destruct (LexNext_step p E) as (q & Hq & _). by exists true, q.
Qed.

(** X4. [LexNext] is local: when it advances a slice [s], it advances
    [pre ++ s] in the same way and leaves the prefix [pre] as it was. *)
Theorem LexNext_prefix (pre s q : list Z) :
  LexNext s = Some (true, q) →
  LexNext (pre ++ s) = Some (true, pre ++ q).
Proof.
  intros Hs. destruct (nonincreasing s) eqn:E.
  { rewrite LexNext_last in Hs by done. congruence. }
  destruct (LexNext_decompose s E) as (pre' & a & s1 & b & s2 & -> & Hn & Hab & H1 & H2).
  rewrite LexNext_pivot in Hs by done. injection Hs as <-.
  rewrite !app_assoc. by apply LexNext_pivot.
Qed.

Lemma LexNext_prefix_witness :
  LexNext ([5; 4] ++ [1; 3; 2]) = Some (true, [5; 4] ++ [2; 1; 3]).
Proof. apply (LexNext_prefix [5; 4] [1; 3; 2] [2; 1; 3]). reflexivity. Defined.

Section generic.
Context {S : Type} `{SortInterface S} (keys : S → list Z).
Hypothesis Len_keys : ∀ s, Len s = length (keys s).
Hypothesis Less_keys : ∀ s i j a b,
  keys s !! i = Some a → keys s !! j = Some b → Less s i j = Some (a <? b).
Hypothesis Swap_keys : ∀ s i j q,
  Slice.swap (keys s) i j = Some q → ∃ s', Swap s i j = Some s' ∧ keys s' = q.

Lemma sort_find_k_keys s k r :
  find_k (keys s) k = Some r → sort_find_k s k = Some r.
Proof.
  revert r. induction k as [|k IH]; intros r; simpl.
  - destruct (keys s !! 0%nat) as [a|] eqn:Ea; [|done].
    destruct (keys s !! 1%nat) as [b|] eqn:Eb; [|done].
    rewrite (Less_keys s 0 1 a b) by done.
    rewrite Z.geb_leb, Z.leb_antisym. done.
  - destruct (keys s !! Datatypes.S k) as [a|] eqn:Ea; [|done].
    destruct (keys s !! Datatypes.S (Datatypes.S k)) as [b|] eqn:Eb; [|done].
    rewrite (Less_keys s _ _ a b) by done.
    rewrite Z.geb_leb, Z.leb_antisym.
    destruct (negb (a <? b)); [apply IH|done].
Qed.

Lemma sort_find_l_keys s k l r :
  find_l (keys s) k l = Some r → sort_find_l s k l = Some r.
Proof.
  revert r. induction l as [|l IH]; intros r; simpl.
  - destruct (keys s !! k) as [a|] eqn:Ea; [|done].
    destruct (keys s !! 0%nat) as [b|] eqn:Eb; [|done].
    rewrite (Less_keys s k 0 a b) by done.
    rewrite Z.geb_leb, Z.leb_antisym. done.
  - destruct (keys s !! k) as [a|] eqn:Ea; [|done].
    destruct (keys s !! Datatypes.S l) as [b|] eqn:Eb; [|done].
    rewrite (Less_keys s _ _ a b) by done.
    rewrite Z.geb_leb, Z.leb_antisym.
    destruct (negb (a <? b)); [apply IH|done].
Qed.

Lemma sort_reverse_loop_keys r : ∀ s l q,
  reverse_loop (keys s) l r = Some q →
  ∃ s', sort_reverse_loop s l r = Some s' ∧ keys s' = q.
Proof.
  induction r as [|r IH]; intros s l q; simpl.
  - destruct (l <? 0)%nat eqn:E; [apply Nat.ltb_lt in E; lia|].
    intros [= <-]. by exists s.
  - destruct (l <? Datatypes.S r)%nat; [|intros [= <-]; by exists s].
    destruct (Slice.swap (keys s) l (Datatypes.S r)) as [q1|] eqn:Esw; [|done].
    destruct (Swap_keys _ _ _ _ Esw) as (s1 & -> & <-). apply IH.
Qed.

Lemma LexNextSort_keys_aux s b q :
  LexNext (keys s) = Some (b, q) →
  ∃ s', LexNextSort s = Some (b, s') ∧ keys s' = q.
Proof.
  unfold LexNext, LexNextSort. rewrite Len_keys.
  destruct (length (keys s) <=? 1)%nat; [intros [= <- <-]; by exists s|].
  cbv zeta.
  destruct (find_k (keys s) _) as [[k|]|] eqn:Ek; [| |done].
  2: { rewrite (sort_find_k_keys _ _ _ Ek). intros [= <- <-]. by exists s. }
  rewrite (sort_find_k_keys _ _ _ Ek).
  destruct (find_l (keys s) k _) as [l|] eqn:El; [|done].
  rewrite (sort_find_l_keys _ _ _ _ El).
  destruct (Slice.swap (keys s) k l) as [q1|] eqn:Esw; [|done].
  destruct (Swap_keys _ _ _ _ Esw) as (s1 & -> & <-).
  destruct (reverse_loop (keys s1) _ _) as [q2|] eqn:Er; [|done].
  destruct (sort_reverse_loop_keys _ _ _ _ Er) as (s2 & -> & <-).
  intros [= <- <-]. by exists s2.
Qed.

End generic.

(** X5. [LexNextSort] over any implementation of [sort.Interface] whose
    [Less] compares integer keys and whose [Swap] exchanges two elements
    never panics, and acts on the keys exactly as [LexNext] acts on a slice
    of integers. *)
Theorem LexNextSort_keys {S : Type} `{SortInterface S} (keys : S → list Z) :
  (∀ s, Len s = length (keys s)) →
  (∀ s i j a b, keys s !! i = Some a → keys s !! j = Some b →
                Less s i j = Some (a <? b)) →
  (∀ s i j q, Slice.swap (keys s) i j = Some q →
              ∃ s', Swap s i j = Some s' ∧ keys s' = q) →
  ∀ s, ∃ b s', LexNextSort s = Some (b, s') ∧
               LexNext (keys s) = Some (b, keys s').
Proof.
  intros HL HLe HS s. destruct (LexNext_total (keys s)) as (b & q & Hq).
  destruct (LexNextSort_keys_aux keys HL HLe HS s b q Hq) as (s' & Hs' & <-).
  by exists b, s'.
Qed.

Lemma LexNextSort_keys_witness :
  ∃ b s', LexNextSort [1; 3; 2] = Some (b, s') ∧
          LexNext [1; 3; 2] = Some (b, s').
Proof.
  apply (LexNextSort_keys (S:=list Z) (λ x, x)).
  - reflexivity.
  - intros s i j a b Ha Hb. simpl. by rewrite Ha, Hb.
  - intros s i j q Hq. by exists q.
Defined.

End LexMore.

(** * Plain changes: the reference order *)

Module PlainFacts.
Import Plain.
Local Open Scope Z_scope.

Local Open Scope nat_scope.

Lemma insert_at_perm i x l : insert_at i x l ≡ₚ x :: l.
Proof.
  unfold insert_at. rewrite <- Permutation_middle. by rewrite take_drop.
Qed.

Lemma length_insert_at i x l : length (insert_at i x l) = S (length l).
Proof. by rewrite insert_at_perm. Qed.

Lemma insert_at_0 x l : insert_at 0 x l = x :: l.
Proof. done. Qed.

Lemma insert_at_S i x y l : insert_at (S i) x (y :: l) = y :: insert_at i x l.
Proof. done. Qed.

Lemma insert_at_end x l : insert_at (length l) x l = l ++ [x].
Proof. unfold insert_at. by rewrite firstn_all, drop_all. Qed.

Lemma insert_at_app x a b : insert_at (length a) x (a ++ b) = a ++ x :: b.
Proof.
  unfold insert_at. by rewrite take_app_length, drop_app_length.
Qed.

(** The position of an element that occurs once determines the
    insertion. *)
Lemma insert_at_inj x i : ∀ i' l l',
  x ∉ l → x ∉ l' → i ≤ length l → i' ≤ length l' →
  insert_at i x l = insert_at i' x l' → i = i' ∧ l = l'.
Proof.
  induction i as [|i IH]; intros i' l l' Hl Hl' Hi Hi' E.
  - destruct i' as [|i']; [by injection E|].
    destruct l' as [|y l']; [simpl in Hi'; lia|].
    rewrite insert_at_0, insert_at_S in E. injection E as -> _.
    exfalso. apply Hl'. by left.
  - destruct l as [|y l]; [simpl in Hi; lia|].
    destruct i' as [|i'].
    + rewrite insert_at_0, insert_at_S in E. injection E as -> _.
      exfalso. apply Hl. by left.
    + destruct l' as [|y' l']; [simpl in Hi'; lia|].
      rewrite !insert_at_S in E. injection E as -> E.
      apply not_elem_of_cons in Hl as [_ Hl]. apply not_elem_of_cons in Hl' as [_ Hl'].
      simpl in Hi, Hi'.
      destruct (IH i' l l' Hl Hl' ltac:(lia) ltac:(lia) E) as [-> ->]. done.
Qed.

Lemma sweep_pos_le m b r : sweep_pos m b r ≤ Nat.max m r.
Proof. unfold sweep_pos. destruct (Nat.even b); lia. Qed.

Lemma sweep_pos_inj m b r r' :
  r ≤ m → r' ≤ m → sweep_pos m b r = sweep_pos m b r' → r = r'.
Proof. unfold sweep_pos. destruct (Nat.even b); lia. Qed.

Lemma plain_rev_cons x rq k :
  plain_rev (x :: rq) k
  = insert_at (sweep_pos (length rq) (k / S (length rq)) (k mod S (length rq))) x
              (plain_rev rq (k / S (length rq))).
Proof. reflexivity. Qed.

Lemma plain_rev_perm rp : ∀ k, plain_rev rp k ≡ₚ rp.
Proof.
  induction rp as [|x rq IH]; intros k; [done|].
  by rewrite plain_rev_cons, insert_at_perm, IH.
Qed.

Lemma plain_change_perm p k : plain_change p k ≡ₚ p.
Proof. unfold plain_change. by rewrite plain_rev_perm, reverse_Permutation. Qed.

Lemma plain_change_snoc q x k :
  plain_change (q ++ [x]) k
  = insert_at (sweep_pos (length q) (k / S (length q)) (k mod S (length q))) x
              (plain_change q (k / S (length q))).
Proof.
  unfold plain_change. by rewrite reverse_snoc, plain_rev_cons, length_reverse.
Qed.

Lemma div_fact_lt m k : k < fact (S m) → k / S m < fact m.
Proof.
  intros Hk. apply Nat.Div0.div_lt_upper_bound. simpl in Hk. lia.
Qed.

(** Distinct numbers below [n!] give distinct arrangements. *)
Lemma plain_rev_inj rp : ∀ k k',
  NoDup rp → k < fact (length rp) → k' < fact (length rp) →
  plain_rev rp k = plain_rev rp k' → k = k'.
Proof.
  induction rp as [|x rq IH]; intros k k' Hnd Hk Hk' E.
  - simpl in Hk, Hk'. lia.
  - apply NoDup_cons in Hnd as [Hx Hnd]. rewrite !plain_rev_cons in E.
    set (m := length rq) in *.
    assert (Hr : ∀ j, j mod S m ≤ m).
    { intros j. pose proof (Nat.mod_upper_bound j (S m)). lia. }
    apply insert_at_inj in E as [Hp Hq].
    + apply IH in Hq; [|done|apply div_fact_lt; exact Hk|apply div_fact_lt; exact Hk'].
      rewrite Hq in Hp. apply sweep_pos_inj in Hp; [|apply Hr..].
      transitivity (S m * (k / S m) + k mod S m); [apply Nat.div_mod_eq|].
      rewrite Hq, Hp. symmetry. apply Nat.div_mod_eq.
    + by rewrite plain_rev_perm.
    + by rewrite plain_rev_perm.
    + rewrite plain_rev_perm. fold m. pose proof (sweep_pos_le m (k / S m) (k mod S m)).
      specialize (Hr k). lia.
    + rewrite plain_rev_perm. fold m. pose proof (sweep_pos_le m (k' / S m) (k' mod S m)).
      specialize (Hr k'). lia.
Qed.

Lemma plain_change_inj p k k' :
  NoDup p → k < fact (length p) → k' < fact (length p) →
  plain_change p k = plain_change p k' → k = k'.
Proof.
  intros Hnd Hk Hk'. unfold plain_change. apply plain_rev_inj.
  - by rewrite reverse_Permutation.
  - by rewrite length_reverse.
  - by rewrite length_reverse.
Qed.

Lemma mrec_NoDup p : NoDup p → Lex.mrec p = 1.
Proof.
  induction 1 as [|x l Hx Hnd IH]; [done|].
  rewrite LexFacts.mrec_cons, IH.
  rewrite LexFacts.count_zero by done. lia.
Qed.

(** Every arrangement of distinct elements is a plain change. *)
Lemma plain_change_all p q :
  NoDup p → q ≡ₚ p → ∃ k, k < fact (length p) ∧ plain_change p k = q.
Proof.
  intros Hnd Hq.
  set (vs := map (plain_change p) (seq 0 (fact (length p)))).
  assert (Hvs : NoDup vs).
  { apply NoDup_fmap_2_strong; [|apply NoDup_seq].
    intros k k' Hk Hk'. apply elem_of_seq in Hk, Hk'.
    apply plain_change_inj; [done|lia..]. }
  assert (Hsub : vs ⊆+ Lex.arrangements (length p) p).
  { apply NoDup_submseteq; [done|]. intros v (k & -> & _)%list_elem_of_fmap.
    apply LexFacts.elem_of_arrangements; [done|]. apply plain_change_perm. }
  assert (Hlen : length (Lex.arrangements (length p) p) = fact (length p)).
  { pose proof (LexFacts.length_arrangements (length p) p eq_refl) as H.
    rewrite mrec_NoDup in H by done. lia. }
  apply submseteq_length_Permutation in Hsub;
    [|unfold vs; rewrite length_map, length_seq; lia].
  assert (Hin : q ∈ vs).
  { rewrite Hsub. by apply LexFacts.elem_of_arrangements. }
  apply list_elem_of_fmap in Hin as (k & -> & Hk). apply elem_of_seq in Hk.
  exists k. split; [lia|done].
Qed.

End PlainFacts.

(** * SJTRecursive: the order of plain changes *)

Module SJTOrder.
Import Plain PlainFacts SJT SJTFacts.
Local Open Scope Z_scope.

Local Open Scope nat_scope.

Lemma calls_snoc_inv b : ∀ g p g2 p2,
  calls (S b) g p = Some (g2, p2, replicate (S b) true) →
  ∃ g1 p1, calls b g p = Some (g1, p1, replicate b true) ∧
           step g1 p1 = Some (g2, p2, true).
Proof.
  induction b as [|b IH]; intros g p g2 p2 H.
  - apply (calls_S_inv 0) in H as (g1 & p1 & Hs & Hc). injection Hc as <- <-.
    by exists g, p.
  - apply (calls_S_inv (S b)) in H as (g1 & p1 & Hs & Hc).
    apply IH in Hc as (g3 & p3 & Hc & Hs3). exists g3, p3. split; [|done].
    rewrite calls_S, Hs, Hc. done.
Qed.

(** The first [r + 1] calls of a block in which the last element comes
    down, and of one in which it goes up. *)
Lemma part_down n x g d q g' q' r :
  2 ≤ n → length q = n - 1 → r ≤ n - 1 →
  step g q = Some (g', q', true) →
  calls (S r) (Level n true (Z.of_nat n) d g) (q ++ [x])
  = Some (Level n true (Z.of_nat (n - 1 - r)) (-1) g',
          insert_at (n - 1 - r) x q', replicate (S r) true).
Proof.
  intros Hn Hq Hr Hs.
  assert (Hq' : length q' = n - 1) by (by rewrite (step_length _ _ _ _ _ Hs)).
  apply (calls_app_Some 1 r _ _ (Level n true (Z.of_nat n - 1) (-1) g') (q' ++ [x]) [true]).
  - rewrite calls_S, step_top by (rewrite ?length_app; simpl; lia).
    rewrite <- Hq, take_app_length, drop_app_length, Hs. done.
  - pose proof (sweep_down n x g' (drop (n - 1 - r) q') (take (n - 1 - r) q') []) as H.
    rewrite length_take, length_drop, Hq' in H.
    replace (n - 1 - (n - 1 - r)) with r in H by lia.
    rewrite (Nat.min_l (n - 1 - r) (n - 1)) in H by lia.
    replace (n - 1 - r + r) with (n - 1) in H by lia.
    rewrite app_assoc, take_drop, app_nil_r in H.
    replace (Z.of_nat n - 1)%Z with (Z.of_nat (n - 1)) by lia.
    apply H. simpl. lia.
Qed.

Lemma part_up n x g d q g' q' r :
  2 ≤ n → length q = n - 1 → r ≤ n - 1 →
  step g q = Some (g', q', true) →
  calls (S r) (Level n true 0 d g) (x :: q)
  = Some (Level n true (Z.of_nat (1 + r)) 1 g',
          insert_at r x q', replicate (S r) true).
Proof.
  intros Hn Hq Hr Hs.
  assert (Hq' : length q' = n - 1) by (by rewrite (step_length _ _ _ _ _ Hs)).
  apply (calls_app_Some 1 r _ _ (Level n true 1 1 g') (x :: q') [true]).
  - rewrite calls_S, step_bottom by (simpl; lia).
    simpl drop. rewrite drop_0, Hs. done.
  - pose proof (sweep_up n x g' (take r q') [] (drop r q')) as H.
    rewrite length_take, length_drop, Hq' in H.
    rewrite (Nat.min_l r (n - 1)) in H by lia.
    simpl in H. rewrite take_drop in H. apply H. lia.
Qed.

Lemma list_snoc_inv (p : list Z) n :
  length p = S n → ∃ q x, p = q ++ [x] ∧ length q = n.
Proof.
  destruct p as [|y p] using rev_ind; [done|].
  rewrite length_app. simpl. intros H. exists p, y. split; [done|lia].
Qed.

(** The slice after call number [k + 1] is the [k]-th plain change. *)
Lemma sjtr_order n : ∀ p k,
  length p = n → k < fact n →
  ∃ g, calls (S k) (sjtr n) p
       = Some (g, plain_change p k, replicate (S k) true).
Proof.
  induction n as [|[|m] IH]; intros p k Hp Hk.
  - destruct p; [|done]. simpl in Hk. assert (k = 0) as -> by lia. by eexists.
  - destruct p as [|x [|]]; try done. simpl in Hk. assert (k = 0) as -> by lia.
    by eexists.
  - destruct (list_snoc_inv p (S m) Hp) as (q & x & -> & Hq).
    rewrite plain_change_snoc, Hq. set (N := S (S m)) in *.
    set (b := k / N). set (r := k mod N).
    assert (Hb : b < fact (S m)) by (by apply div_fact_lt).
    assert (Hr : r ≤ S m).
    { pose proof (Nat.mod_upper_bound k N). unfold r, N in *. lia. }
    assert (Hkbr : k = b * N + r).
    { unfold b, r. rewrite (Nat.div_mod_eq k N) at 1. lia. }
    destruct (IH q b Hq Hb) as (g' & Hc).
    apply calls_snoc_inv in Hc as (gb & qb & Hcb & Hsb).
    assert (Hqb : length qb = S m) by (by rewrite (calls_length _ _ _ _ _ _ Hcb)).
    unfold N at 1. rewrite sjtr_SS. fold N.
    unfold sweep_pos. destruct (Nat.even b) eqn:Eb.
    + apply Nat.even_spec in Eb as [j Ej].
      rewrite Ej in Hcb.
      destruct (pair_blocks N x ltac:(unfold N; lia) j (sjtr (S m)) q 0%Z gb qb
                  ltac:(unfold N; lia) Hcb) as (d' & Hpair).
      pose proof (part_down N x gb d' qb g' (plain_change q b) r
                    ltac:(unfold N; lia) ltac:(unfold N; lia) ltac:(unfold N; lia) Hsb) as Hpart.
      replace (N - 1 - r) with (S m - r) in Hpart by (unfold N; lia).
      eexists. replace (S k) with (2 * j * N + S r) by lia.
      replace (replicate (2 * j * N + S r) true)
        with (replicate (2 * j * N) true ++ replicate (S r) true)
        by (by rewrite <- replicate_add).
      eapply calls_app_Some; [exact Hpair|exact Hpart].
    + assert (Nat.odd b = true) as Ho by (by rewrite <- Nat.negb_even, Eb).
      apply Nat.odd_spec in Ho as [j Ej].
      replace b with (S (2 * j)) in Hcb by lia.
      apply calls_snoc_inv in Hcb as (g2 & q2 & Hc2 & Hs2).
      assert (Hq2 : length q2 = S m) by (by rewrite (calls_length _ _ _ _ _ _ Hc2)).
      destruct (pair_blocks N x ltac:(unfold N; lia) j (sjtr (S m)) q 0%Z g2 q2
                  ltac:(unfold N; lia) Hc2) as (d' & Hpair).
      pose proof (block_down N x g2 d' q2 gb qb
                    ltac:(unfold N; lia) ltac:(unfold N; lia) Hs2) as Hdown.
      pose proof (part_up N x gb (-1)%Z qb g' (plain_change q b) r
                    ltac:(unfold N; lia) ltac:(unfold N; lia) ltac:(unfold N; lia) Hsb) as Hpart.
      eexists. replace (S k) with (2 * j * N + (N + S r)) by lia.
      replace (replicate (2 * j * N + (N + S r)) true)
        with (replicate (2 * j * N) true ++ replicate N true ++ replicate (S r) true)
        by (by rewrite <- !replicate_add).
      eapply calls_app_Some; [exact Hpair|].
      eapply calls_app_Some; [exact Hdown|exact Hpart].
Qed.

(** X7. [SJTRecursive] generates the arrangements of [p] in the order of
    plain changes: for [k < n!], the call number [k + 1] of the iterator
    returns true, as all calls before it, and leaves in [p] the [k]-th
    arrangement of that order. *)
Theorem SJTRecursive_plain_changes (p : list Z) (k : nat) :
  k < fact (length p) →
  ∃ g, calls (S k) (SJTRecursive p) p
       = Some (g, plain_change p k, replicate (S k) true).
Proof. intros Hk. by apply sjtr_order. Qed.

Lemma SJTRecursive_plain_changes_witness :
  ∃ g, calls 4 (SJTRecursive [5; 6; 7]%Z) [5; 6; 7]%Z
       = Some (g, [7; 6; 5]%Z, [true; true; true; true]).
Proof. apply (SJTRecursive_plain_changes [5; 6; 7]%Z 3). simpl. lia. Defined.

(** X8. Over a slice [p] of distinct elements, the first [n!] calls of the
    iterator of [SJTRecursive] leave every permutation of [p] in the slice
    exactly once. *)
Theorem SJTRecursive_visits_all_once (p q : list Z) :
  NoDup p → q ≡ₚ p →
  ∃ k, k < fact (length p) ∧
       (∃ g bs, calls (S k) (SJTRecursive p) p = Some (g, q, bs)) ∧
       ∀ k', k' < fact (length p) →
             (∃ g bs, calls (S k') (SJTRecursive p) p = Some (g, q, bs)) →
             k' = k.
Proof.
  intros Hnd Hq. destruct (plain_change_all p q Hnd Hq) as (k & Hk & <-).
  exists k. split; [done|]. split.
  - destruct (sjtr_order (length p) p k eq_refl Hk) as (g & Hg). by eexists g, _.
  - intros k' Hk' (g & bs & Hc).
    destruct (sjtr_order (length p) p k' eq_refl Hk') as (g' & Hg').
    unfold SJTRecursive in Hc. rewrite Hg' in Hc. injection Hc as _ Hc _.
    by apply (plain_change_inj p).
Qed.

Lemma SJTRecursive_visits_all_once_witness :
  ∃ k, k < 6 ∧
       (∃ g bs, calls (S k) (SJTRecursive [0; 1; 2]%Z) [0; 1; 2]%Z
                = Some (g, [2; 1; 0]%Z, bs)) ∧
       ∀ k', k' < 6 →
             (∃ g bs, calls (S k') (SJTRecursive [0; 1; 2]%Z) [0; 1; 2]%Z
                      = Some (g, [2; 1; 0]%Z, bs)) →
             k' = k.
Proof.
  apply (SJTRecursive_visits_all_once [0; 1; 2]%Z [2; 1; 0]%Z).
  - change (NoDup (Z.of_nat <$> seq 0 3)). apply (NoDup_fmap_2 Z.of_nat), NoDup_seq.
  - symmetry. exact (Permutation_rev [0; 1; 2]%Z).
Defined.


End SJTOrder.

(** * SJTE: adjacent exchanges and the order of plain changes *)

Module SJTEMore.
Import Plain PlainFacts SJTE SJTEFacts.
Local Open Scope Z_scope.

Lemma acalls_dirs k : ∀ cs, dirs_ok cs → dirs_ok (acalls k cs).1.
Proof.
  induction k as [|k IH]; intros cs Hd; [done|].
  rewrite acalls_S. destruct (astep cs) as [cs' b] eqn:E.
  specialize (IH cs' (astep_dirs _ _ _ Hd E)).
  by destruct (acalls k cs') as [cs'' bs].
Qed.

Lemma view_embed n gl gr d0 d1 cs :
  length cs = n → view (embed n gl gr d0 d1 cs) = map fst cs.
Proof.
  intros Hl. unfold view, embed. simpl. rewrite drop_0.
  rewrite take_app_length'; [done|]. by rewrite length_map.
Qed.

Lemma reach_cells n k s bs :
  (2 ≤ n)%nat → calls k (init n) = Some (s, bs) →
  ∃ cs, s = embed n (Z.of_nat n) (Z.of_nat n) (-1) 0 cs ∧ length cs = n ∧
        Forall (λ c : cell, c.1 < Z.of_nat n) cs ∧ dirs_ok cs ∧
        acalls k (init_cells n) = (cs, bs).
Proof.
  intros Hn. unfold init.
  rewrite calls_embed by auto using length_init_cells, init_cells_bounded, init_cells_dirs.
  intros [= <- <-]. destruct (acalls k (init_cells n)) as [cs bs] eqn:E.
  exists cs. simpl.
  destruct (acalls_bounded (Z.of_nat n) k _ _ _ ltac:(lia) (init_cells_bounded n) E) as [Hb Hl].
  rewrite length_init_cells in Hl. split_and!; try done.
  pose proof (acalls_dirs k _ (init_cells_dirs n)) as Hd. by rewrite E in Hd.
Qed.

Lemma step_swap_embed n cs s' :
  (2 ≤ n)%nat → length cs = n →
  Forall (λ c : cell, c.1 < Z.of_nat n) cs → dirs_ok cs →
  step (embed n (Z.of_nat n) (Z.of_nat n) (-1) 0 cs) = Some (s', true) →
  ∃ j, (S j < n)%nat ∧
       Slice.swap (map fst cs) j (S j) = Some (view s').
Proof.
  intros Hn Hl Hb Hd.
  rewrite step_embed by (try done; revert Hb; apply List.Forall_impl; intros; lia).
  destruct (astep cs) as [cs' b] eqn:E. simpl. intros [= <- ->].
  destruct (astep_bounded (Z.of_nat n) _ _ _ ltac:(lia) Hb E) as [_ Hl'].
  rewrite view_embed by lia.
  destruct (astep_true _ _ E) as (l1 & a & c & l2 & k & max & -> & _ & _ & ->).
  exists (length l1). rewrite length_app in Hl. simpl in Hl. split; [lia|].
  rewrite map_fst_flip, !map_app. simpl.
  rewrite SJTFacts.swap_comm by lia.
  rewrite <- (length_map fst l1). apply SJTFacts.swap_adjacent.
Qed.

Lemma calls_1_false k : ∀ s bs,
  calls k (init 1) = Some (s, bs) → s = init 1.
Proof.
  induction k as [|k IH]; intros s bs; [by intros [= <- <-]|].
  rewrite step_calls_S.
  change (step (init 1)) with (Some (init 1, false)). cbv beta iota.
  destruct (calls k (init 1)) as [[s' bs']|] eqn:E; [|done].
  intros [= <- <-]. by eapply IH.
Qed.

Lemma SJTE_swap_aux (n k : nat) s bs s' :
  calls k (init n) = Some (s, bs) → step s = Some (s', true) →
  ∃ j, (S j < n)%nat ∧ Slice.swap (view s) j (S j) = Some (view s').
Proof.
  intros Hc Hs.
  destruct n as [|[|n]].
  - assert (Hnone : ∀ k s bs, calls (S k) (init 0) ≠ Some (s, bs)).
    { intros k0 s0 bs0. rewrite step_calls_S.
      by change (step (init 0)) with (@None (state * bool)). }
    destruct k as [|k]; [|by apply Hnone in Hc].
    injection Hc as <- <-. done.
  - apply calls_1_false in Hc. subst s. done.
  - destruct (reach_cells (S (S n)) _ _ _ ltac:(lia) Hc) as (cs & -> & Hl & Hb & Hd & _).
    rewrite view_embed by done. apply step_swap_embed; [lia|done..].
Qed.

(** X9. Every call of the step function of [SJTE] that returns true
    exchanges two adjacent elements of the returned slice and changes
    nothing else in it. *)
Theorem SJTE_adjacent_swaps (n k : nat) s0 s bs s' :
  SJTE n = Some s0 → calls k s0 = Some (s, bs) → step s = Some (s', true) →
  ∃ j, (S j < n)%nat ∧ Slice.swap (view s) j (S j) = Some (view s').
Proof.
  rewrite SJTE_init. intros [= <-]. apply SJTE_swap_aux.
Qed.

Lemma SJTE_adjacent_swaps_witness :
  ∃ s0 s bs s',
    SJTE 3 = Some s0 ∧ calls 1 s0 = Some (s, bs) ∧ step s = Some (s', true) ∧
    ∃ j, (S j < 3)%nat ∧ Slice.swap (view s) j (S j) = Some (view s').
Proof.
  eexists _, _, _, _.
  split; [reflexivity|]. split; [reflexivity|]. split; [reflexivity|].
  eapply (SJTE_adjacent_swaps 3 1); reflexivity.
Defined.


Local Open Scope nat_scope.

Lemma map_fst_insert_at (cs : list cell) i (c : cell) :
  map fst (take i cs ++ c :: drop i cs) = insert_at i c.1 (map fst cs).
Proof.
  unfold insert_at. rewrite map_app. simpl.
  change (map fst) with (fmap (M:=list) (@fst Z Z)). by rewrite fmap_take, fmap_drop.
Qed.

Lemma acalls_true_last b cs c2 :
  acalls (S b) cs = (c2, replicate (S b) true) →
  ∃ c1, acalls b cs = (c1, replicate b true) ∧ astep c1 = (c2, true).
Proof.
  replace (S b) with (b + 1) by lia. intros H.
  apply acalls_true_split in H as (c1 & H1 & H2). exists c1. split; [done|].
  simpl in H2. destruct (astep c1) as [c b']. by injection H2 as -> ->.
Qed.

(** The cells after [k] steps hold the [k]-th plain change. *)
Lemma cells_order m :
  2 ≤ m → ∀ k, k < fact m →
  ∃ cs, acalls k (init_cells m) = (cs, replicate k true) ∧
        map fst cs = plain_change (map Z.of_nat (seq 0 m)) k.
Proof.
  induction m as [|m IH]; [lia|]. intros Hm k Hk.
  destruct (decide (m = 1)) as [->|Hm1].
  { assert (k = 0 ∨ k = 1) as [-> | ->] by (simpl in Hk; lia); by eexists. }
  assert (Hm2 : 2 ≤ m) by lia. specialize (IH Hm2).
  set (x := Z.of_nat m).
  assert (Hx : (2 ≤ x)%Z) by (unfold x; lia).
  rewrite init_cells_S, seq_S, map_app. simpl map. fold x.
  rewrite plain_change_snoc, length_map, length_seq.
  set (b := k / S m). set (r := k mod S m).
  assert (Hb : b < fact m) by (by apply div_fact_lt).
  assert (Hr : r ≤ m).
  { pose proof (Nat.mod_upper_bound k (S m)). unfold r. lia. }
  assert (Hkbr : k = b * (m + 1) + r).
  { unfold b, r. rewrite (Nat.div_mod_eq k (S m)) at 1. lia. }
  destruct (IH b Hb) as (cb & Hcb & Hfb). rewrite <- Hfb.
  destruct (acalls_bounded x b _ _ _ Hx (init_cells_bounded m) Hcb) as [Hbb Hlb].
  rewrite length_init_cells in Hlb.
  unfold sweep_pos. destruct (Nat.even b) eqn:Eb.
  - apply Nat.even_spec in Eb as [j Ej]. rewrite Ej in Hcb.
    pose proof (blocks x m Hx Hm2 j _ _ (init_cells_bounded m) (length_init_cells m) Hcb) as Hbl.
    pose proof (sweep_left x ltac:(lia) (drop (m - r) cb) (take (m - r) cb) []) as Hsw.
    rewrite app_nil_r, take_drop, length_drop, Hlb in Hsw.
    replace (m - (m - r)) with r in Hsw by lia.
    exists (take (m - r) cb ++ (x, (-1)%Z) :: drop (m - r) cb).
    split; [|apply map_fst_insert_at].
    replace k with (2 * j * (m + 1) + r) by lia. rewrite replicate_add.
    eapply acalls_app_eq; [exact Hbl|]. rewrite <- (take_drop (m - r) cb) at 1.
    rewrite <- app_assoc. by apply Hsw.
  - assert (Nat.odd b = true) as Ho by (by rewrite <- Nat.negb_even, Eb).
    apply Nat.odd_spec in Ho as [j Ej].
    replace b with (S (2 * j)) in Hcb by lia.
    apply acalls_true_last in Hcb as (c2 & Hc2 & Hs2).
    destruct (acalls_bounded x _ _ _ _ Hx (init_cells_bounded m) Hc2) as [Hb2 Hl2].
    rewrite length_init_cells in Hl2.
    pose proof (blocks x m Hx Hm2 j _ _ (init_cells_bounded m) (length_init_cells m) Hc2) as Hbl.
    pose proof (sweep_left_all x ltac:(lia) c2 Hb2) as Hall. rewrite Hl2 in Hall.
    pose proof (astep_under_left x ltac:(lia) c2 cb Hb2 Hs2) as Hund.
    pose proof (sweep_right x ltac:(lia) (take r cb) [] (drop r cb)) as Hsw.
    rewrite length_take, Hlb, (Nat.min_l r m) in Hsw by lia.
    simpl in Hsw. rewrite take_drop in Hsw.
    exists (take r cb ++ (x, 1%Z) :: drop r cb).
    split; [|apply map_fst_insert_at].
    replace k with (2 * j * (m + 1) + (m + (1 + r))) by lia. rewrite !replicate_add.
    eapply acalls_app_eq; [exact Hbl|].
    eapply acalls_app_eq; [exact Hall|].
    eapply acalls_app_eq; [by apply acalls_1|].
    by apply Hsw.
Qed.

Lemma SJTE_order_first n k :
  1 ≤ n → k < fact n →
  ∃ s, calls k (init n) = Some (s, replicate k true) ∧
       view s = plain_change (map Z.of_nat (seq 0 n)) k.
Proof.
  intros Hn Hk. destruct (decide (n = 1)) as [->|Hn1].
  { assert (k = 0) as -> by (simpl in Hk; lia). by eexists. }
  destruct (cells_order n ltac:(lia) k Hk) as (cs & Hcs & Hf).
  destruct (acalls_bounded (Z.of_nat n) k _ _ _ ltac:(lia) (init_cells_bounded n) Hcs) as [Hb Hl].
  rewrite length_init_cells in Hl.
  eexists. split.
  - unfold init. rewrite calls_embed
      by (auto using length_init_cells, init_cells_bounded, init_cells_dirs; lia).
    rewrite Hcs. done.
  - simpl. by rewrite view_embed.
Qed.

Lemma SJTE_order_aux n k :
  1 ≤ n →
  ∃ s bs, calls k (init n) = Some (s, bs) ∧
          view s = plain_change (map Z.of_nat (seq 0 n)) (k mod fact n).
Proof.
  intros Hn. pose proof (lt_O_fact n) as Hf.
  destruct (SJTE_order_first n (k mod fact n) Hn) as (s & Hs & Hv).
  { apply Nat.mod_upper_bound. lia. }
  exists s. eexists. split; [|done].
  rewrite (Nat.div_mod_eq k (fact n)) at 1.
  rewrite (Nat.mul_comm (fact n)).
  eapply step_calls_app; [by apply SJTE_cycles|exact Hs].
Qed.

Lemma NoDup_ints n : NoDup (map Z.of_nat (seq 0 n)).
Proof. apply (NoDup_fmap_2 Z.of_nat), NoDup_seq. Qed.

(** X10. [SJTE] generates the permutations of [0 .. n-1] in the order of
    plain changes, cycle after cycle: after [k] calls of the step function
    the returned slice holds the arrangement number [k mod n!] of that
    order, which is a permutation of [0 .. n-1]; no call panics. *)
Theorem SJTE_plain_changes (n : nat) :
  1 ≤ n →
  ∃ s0, SJTE n = Some s0 ∧
        ∀ k, ∃ s bs,
          calls k s0 = Some (s, bs) ∧
          view s = plain_change (map Z.of_nat (seq 0 n)) (k mod fact n) ∧
          view s ≡ₚ map Z.of_nat (seq 0 n).
Proof.
  intros Hn. exists (init n). split; [apply SJTE_init|]. intros k.
  destruct (SJTE_order_aux n k Hn) as (s & bs & Hc & Hv).
  exists s, bs. split_and!; [done..|]. rewrite Hv. apply plain_change_perm.
Qed.

Lemma SJTE_plain_changes_witness :
  ∃ s0, SJTE 3 = Some s0 ∧
        ∀ k, ∃ s bs,
          calls k s0 = Some (s, bs) ∧
          view s = plain_change [0; 1; 2]%Z (k mod 6) ∧
          view s ≡ₚ [0; 1; 2]%Z.
Proof. apply (SJTE_plain_changes 3). lia. Defined.

(** X11. In a cycle of [SJTE(n)], every permutation of [0 .. n-1] is in the
    returned slice exactly once: after exactly one number [k < n!] of
    calls. *)
Theorem SJTE_visits_all_once (n : nat) (q : list Z) :
  1 ≤ n → q ≡ₚ map Z.of_nat (seq 0 n) →
  ∃ s0, SJTE n = Some s0 ∧
  ∃ k, k < fact n ∧
       (∃ s bs, calls k s0 = Some (s, bs) ∧ view s = q) ∧
       ∀ k', k' < fact n →
             (∃ s bs, calls k' s0 = Some (s, bs) ∧ view s = q) → k' = k.
Proof.
  intros Hn Hq. exists (init n). split; [apply SJTE_init|].
  pose proof (NoDup_ints n) as Hnd.
  destruct (plain_change_all _ q Hnd Hq) as (k & Hk & <-).
  rewrite length_map, length_seq in Hk.
  exists k. split; [done|]. split.
  - destruct (SJTE_order_first n k Hn Hk) as (s & Hs & Hv). by eexists s, _.
  - intros k' Hk' (s & bs & Hc & Hv).
    destruct (SJTE_order_first n k' Hn Hk') as (s' & Hs' & Hv').
    rewrite Hs' in Hc. injection Hc as -> _. rewrite Hv' in Hv.
    apply (plain_change_inj (map Z.of_nat (seq 0 n))); try done;
      by rewrite length_map, length_seq.
Qed.

Lemma SJTE_visits_all_once_witness :
  ∃ s0, SJTE 3 = Some s0 ∧
  ∃ k, k < 6 ∧
       (∃ s bs, calls k s0 = Some (s, bs) ∧ view s = [2; 1; 0]%Z) ∧
       ∀ k', k' < 6 →
             (∃ s bs, calls k' s0 = Some (s, bs) ∧ view s = [2; 1; 0]%Z) → k' = k.
Proof.
  apply (SJTE_visits_all_once 3 [2; 1; 0]%Z); [lia|].
  symmetry. exact (Permutation_rev [0; 1; 2]%Z).
Defined.

(** X12. [SJTE(n)] and [SJTRecursive] over [Ints(n)] generate the same
    sequence: for [k < n!], the slice of [SJTE] after [k] calls is the
    slice that call number [k + 1] of the iterator of [SJTRecursive]
    leaves. *)
Theorem SJTE_agrees_with_SJTRecursive (n k : nat) :
  1 ≤ n → k < fact n →
  ∃ p0 s0 s bs g bs',
    Util.Ints n = Some p0 ∧ SJTE n = Some s0 ∧
    calls k s0 = Some (s, bs) ∧
    SJT.calls (S k) (SJT.SJTRecursive p0) p0 = Some (g, view s, bs').
Proof.
  intros Hn Hk.
  destruct (SJTE_order_first n k Hn Hk) as (s & Hs & Hv).
  destruct (SJTOrder.sjtr_order n (map Z.of_nat (seq 0 n)) k) as (g & Hg);
    [by rewrite length_map, length_seq|done|].
  eexists (map Z.of_nat (seq 0 n)), (init n), s, _, g, _.
  split_and!; [|apply SJTE_init|exact Hs|].
  { unfold Util.Ints. rewrite length_replicate.
    apply (UtilFacts.ints_loop_spec n []). }
  unfold SJT.SJTRecursive. rewrite length_map, length_seq, Hv. exact Hg.
Qed.

Lemma SJTE_agrees_with_SJTRecursive_witness :
  ∃ p0 s0 s bs g bs',
    Util.Ints 3 = Some p0 ∧ SJTE 3 = Some s0 ∧
    calls 4 s0 = Some (s, bs) ∧
    SJT.calls 5 (SJT.SJTRecursive p0) p0 = Some (g, view s, bs').
Proof. apply (SJTE_agrees_with_SJTRecursive 3 4); simpl; lia. Defined.


End SJTEMore.

(** * log2 *)

Module Log2Facts.
Import Rank.

Lemma bitlen_shiftr y m :
  1 <= m → 2 ^ (m - 1) <= y → bitlen (Z.shiftr y m) = bitlen y - m.
Proof.
  intros Hm Hy. unfold bitlen.
  assert (0 < 2 ^ (m - 1)) by (apply Z.pow_pos_nonneg; lia).
  assert (m - 1 <= Z.log2 y) by (apply Z.log2_le_pow2; lia).
  rewrite (proj2 (Z.leb_gt y 0)) by lia.
  destruct (Z.leb_spec (Z.shiftr y m) 0) as [Hs|Hs].
  - assert (Z.shiftr y m = 0) as Hz.
    { pose proof (Z.shiftr_nonneg y m). lia. }
    apply Z.shiftr_eq_0_iff in Hz. lia.
  - rewrite Z.log2_shiftr by lia.
    assert (m <= Z.log2 y); [|lia].
    destruct (Z.le_gt_cases m (Z.log2 y)) as [|Hlt]; [done|].
    rewrite Z.shiftr_eq_0 in Hs by lia. lia.
Qed.

Lemma shiftr_lt y m f :
  0 <= m → 0 <= f → 0 <= y < 2 ^ (m + f) → 0 <= Z.shiftr y m < 2 ^ f.
Proof.
  intros Hm Hf [H0 H1]. rewrite Z.shiftr_div_pow2 by lia.
  assert (0 < 2 ^ m) by (apply Z.pow_pos_nonneg; lia).
  split; [apply Z.div_pos; lia|].
  apply Z.div_lt_upper_bound; [lia|]. by rewrite <- Z.pow_add_r by lia.
Qed.

Lemma log2_bits_spec fuel : ∀ y n,
  y < 2 ^ Z.of_nat fuel →
  Z.of_nat (log2_bits fuel y n) = Z.of_nat n + bitlen y.
Proof.
  induction fuel as [|fuel IH]; intros y n Hy; simpl log2_bits.
  - change (2 ^ Z.of_nat 0) with 1 in Hy.
    unfold bitlen. rewrite (proj2 (Z.leb_le _ _)) by lia. lia.
  - destruct (Z.gtb_spec y 0) as [Hp|Hp].
    + rewrite IH.
      * rewrite (bitlen_shiftr y 1) by (change (2 ^ (1 - 1)) with 1; lia). lia.
      * apply (shiftr_lt y 1 (Z.of_nat fuel)); [lia|lia|].
        split; [lia|]. replace (1 + Z.of_nat fuel) with (Z.of_nat (S fuel)) by lia. done.
    + unfold bitlen. rewrite (proj2 (Z.leb_le _ _)) by lia. lia.
Qed.

Lemma log2_bytes_spec fuel : ∀ y n,
  y < 2 ^ (8 * Z.of_nat fuel) →
  let '(y', n') := log2_bytes fuel y n in
  y' < 256 ∧ Z.of_nat n' + bitlen y' = Z.of_nat n + bitlen y.
Proof.
  induction fuel as [|fuel IH]; intros y n Hy; simpl log2_bytes.
  - change (2 ^ (8 * Z.of_nat 0)) with 1 in Hy. split; lia.
  - destruct (Z.gtb_spec y 255) as [Hp|Hp]; [|split; lia].
    specialize (IH (Z.shiftr y 8) (n + 8)%nat).
    destruct (log2_bytes fuel (y ≫ 8) (n + 8)) as [y' n'].
    destruct IH as [IH1 IH2].
    { apply (shiftr_lt y 8 (8 * Z.of_nat fuel)); [lia|lia|].
      split; [lia|]. replace (8 + 8 * Z.of_nat fuel) with (8 * Z.of_nat (S fuel)) by lia. done. }
    split; [done|]. rewrite IH2, (bitlen_shiftr y 8) by (change (2 ^ (8 - 1)) with 128; lia). lia.
Qed.

Lemma log2_bitlen x :
  x <= 2 ^ 63 → Z.of_nat (log2 x) = bitlen (x - 1).
Proof.
  intros Hx. unfold log2.
  pose proof (log2_bytes_spec 8 (x - 1) 0) as H.
  destruct (log2_bytes 8 (x - 1) 0) as [y' n'].
  destruct H as [H1 H2]; [simpl; lia|].
  rewrite log2_bits_spec by (simpl; lia). lia.
Qed.

Lemma log2_upper x :
  1 <= x <= 2 ^ 63 → x <= 2 ^ Z.of_nat (log2 x).
Proof.
  intros [H1 H2]. pose proof (log2_bitlen x H2) as E. unfold bitlen in E.
  destruct (Z.leb_spec (x - 1) 0) as [Hz|Hz].
  - assert (x = 1) as -> by lia. assert (log2 1 = 0%nat) as -> by lia. simpl; lia.
  - pose proof (Z.log2_spec (x - 1) Hz) as [Ha Hb].
    replace (Z.succ (Z.log2 (x - 1))) with (Z.of_nat (log2 x)) in Hb by lia. lia.
Qed.

(** X2. For every positive [int] [x], [log2 x] is the least [k] with
    [x <= 2^k], that is, the ceiling of the binary logarithm of [x]. *)
Theorem log2_ceil (x : Z) :
  1 <= x <= 2 ^ 63 →
  x <= 2 ^ Z.of_nat (log2 x) ∧ ∀ k : nat, x <= 2 ^ Z.of_nat k → (log2 x <= k)%nat.
Proof.
  intros [H1 H2]. pose proof (log2_bitlen x H2) as E. unfold bitlen in E.
  destruct (Z.leb_spec (x - 1) 0) as [Hz|Hz].
  - assert (x = 1) as -> by lia. assert (log2 1 = 0%nat) as -> by lia.
    split; [simpl; lia|lia].
  - pose proof (Z.log2_spec (x - 1) Hz) as [Ha Hb].
    replace (Z.succ (Z.log2 (x - 1))) with (Z.of_nat (log2 x)) in Hb by lia.
    split; [lia|]. intros k Hk.
    assert (Z.log2 (x - 1) < Z.of_nat k); [|lia].
    apply Z.log2_lt_pow2; lia.
Qed.

Lemma log2_ceil_witness :
  5 <= 2 ^ Z.of_nat (log2 5) ∧ ∀ k : nat, 5 <= 2 ^ Z.of_nat k → (log2 5 <= k)%nat.
Proof. apply (log2_ceil 5). split; [lia|]. intros H; vm_compute in H; discriminate H. Defined.

Lemma log2_nonpos x : x <= 1 → log2 x = 0%nat.
Proof.
  intros H. assert (Z.of_nat (log2 x) = 0); [|lia].
  rewrite log2_bitlen by lia. unfold bitlen. by rewrite (proj2 (Z.leb_le _ _)) by lia.
Qed.

End Log2Facts.

(** * LexPerm: the number of digits *)

Module RankDigits.
Import Rank.
Local Open Scope Z_scope.

Lemma store_length {A} (p p' : list A) i v :
  Slice.store p i v = Some p' → length p' = length p.
Proof.
  unfold Slice.store. destruct (decide _); [|done].
  intros [= <-]. by rewrite length_insert.
Qed.

Lemma store_None {A} (p : list A) i v :
  (length p ≤ i)%nat → Slice.store p i v = None.
Proof. intros Hi. unfold Slice.store. by rewrite decide_False by lia. Qed.

Lemma perm_loop_length k k2 ds : ∀ pos t p t' p',
  perm_loop k k2 ds pos t p = Some (t', p') → length p' = length p.
Proof.
  induction ds as [|d ds IH]; intros pos t p t' p'; simpl.
  - by intros [= <- <-].
  - destruct (perm_inner k t 1 d) as [[[t1 nd] d']|]; [|done].
    destruct (Slice.setZ t1 nd 0) as [t2|]; [|done].
    destruct (Slice.store p pos (nd - k2)) as [p1|] eqn:Ep; [|done].
    intros Hl. apply IH in Hl. rewrite Hl. by eapply store_length.
Qed.

(** X6. The body of [LexPerm] panics whenever it is handed [n] or more
    digits for a permutation of size [n]: it writes one element per digit
    and one more. *)
Theorem LexPerm_digits_too_many (f : list Z) (n : nat) :
  (n ≤ length f)%nat → LexPerm_digits f n = None.
Proof.
  intros Hn. unfold LexPerm_digits. cbv zeta.
  destruct (init_rows _ _ _) as [t|]; [|done].
  destruct (perm_loop _ _ _ _ _ _) as [[t' p']|] eqn:Ep; [|done].
  apply perm_loop_length in Ep. rewrite length_replicate in Ep.
  destruct (last_inner _ _ _); [|done].
  apply store_None. lia.
Qed.

Lemma LexPerm_digits_too_many_witness : LexPerm_digits [0; 1; 2] 3 = None.
Proof. apply LexPerm_digits_too_many. simpl. lia. Defined.

End RankDigits.

(** * LexRank: the rank of a permutation *)

Module RankTree.
Import Lex LexFacts Rank.
Local Open Scope Z_scope.

(** ** Counting *)

Lemma countb_ext {A} (f g : A → bool) U :
  (∀ u, u ∈ U → f u = g u) → countb f U = countb g U.
Proof.
  induction U as [|u U IH]; intros H; [done|]. simpl.
  rewrite (H u) by (by left). rewrite IH; [done|]. intros v Hv. apply H. by right.
Qed.

Lemma countb_split {A} (f g h : A → bool) U :
  (∀ u, u ∈ U → Z.b2z (f u) = Z.b2z (g u) + Z.b2z (h u)) →
  countb f U = countb g U + countb h U.
Proof.
  induction U as [|u U IH]; intros H; [done|]. simpl.
  rewrite (H u) by (by left). rewrite IH; [lia|]. intros v Hv. apply H. by right.
Qed.

Lemma countb_nonneg {A} (f : A → bool) U : 0 ≤ countb f U.
Proof. induction U as [|u U IH]; simpl; [lia|]. destruct (f u); simpl Z.b2z; lia. Qed.

Lemma countb_false {A} (f : A → bool) U : (∀ u, u ∈ U → f u = false) → countb f U = 0.
Proof.
  induction U as [|u U IH]; intros H; [done|]. simpl.
  rewrite (H u) by (by left). rewrite IH; [done|]. intros v Hv. apply H. by right.
Qed.

(** ** The binary tree of [LexRank]

    The array [t] is a complete binary tree: the node 1 is its root, the
    nodes [2m] and [2m+1] are the children of the node [m], and the leaf
    of the element [u] is the node [2^k + u].  The node at height [i] above
    a leaf [x] is [x >> i]. *)

Section tree.
Variable k : nat.
Local Abbreviation K := (2 ^ Z.of_nat k).

Lemma K_pos : 0 < K.
Proof. apply Z.pow_pos_nonneg; lia. Qed.

Lemma K2 : 2 ^ (Z.of_nat k + 1) = 2 * K.
Proof. rewrite Z.pow_add_r by lia. lia. Qed.

(* the node at height i above a leaf *)
Lemma node_range x i :
  K ≤ x < 2 * K → 0 ≤ i ≤ Z.of_nat k →
  2 ^ (Z.of_nat k - i) ≤ Z.shiftr x i < 2 ^ (Z.of_nat k - i + 1).
Proof.
  intros Hx Hi. rewrite Z.shiftr_div_pow2 by lia.
  assert (0 < 2 ^ i) by (apply Z.pow_pos_nonneg; lia).
  assert (HK : K = 2 ^ (Z.of_nat k - i) * 2 ^ i).
  { rewrite <- Z.pow_add_r by lia. f_equal. lia. }
  split.
  - apply Z.div_le_lower_bound; [lia|]. lia.
  - apply Z.div_lt_upper_bound; [lia|].
    rewrite Z.pow_add_r by lia. lia.
Qed.

Lemma node_log2 x i :
  K ≤ x < 2 * K → 0 ≤ i ≤ Z.of_nat k →
  Z.log2 (Z.shiftr x i) = Z.of_nat k - i.
Proof.
  intros Hx Hi. apply Z.log2_unique; [lia|].
  pose proof (node_range x i Hx Hi). unfold Z.succ. lia.
Qed.

Lemma node_level x i m :
  K ≤ x < 2 * K → 0 ≤ i ≤ Z.of_nat k → Z.shiftr x i = m →
  Z.of_nat k - Z.log2 m = i.
Proof. intros Hx Hi <-. rewrite node_log2 by done. lia. Qed.

Lemma odd_land nd : 0 ≤ nd → (Z.land nd 1 =? 1) = Z.odd nd.
Proof.
  intros Hnd. change 1 with (Z.ones 1) at 1. rewrite Z.land_ones by lia.
  change (2 ^ 1) with 2. rewrite Zmod_odd. by destruct (Z.odd nd).
Qed.

Lemma ldiff_odd nd : Z.odd nd = true → Z.ldiff nd 1 = nd - 1.
Proof.
  intros Ho. symmetry. apply Z.sub_nocarry_ldiff.
  apply Z.bits_inj'. intros n Hn. rewrite Z.ldiff_spec, Z.bits_0.
  destruct (decide (n = 0)) as [->|Hne].
  - rewrite !Z.bit0_odd, Ho. done.
  - change 1 with (Z.ones 1). rewrite Z.ones_spec_high by lia. done.
Qed.

Lemma sibling_log2 nd e :
  1 ≤ e → 2 ^ e ≤ nd < 2 ^ (e + 1) → Z.odd nd = true →
  Z.log2 (nd - 1) = e.
Proof.
  intros He Hnd Ho. apply Z.log2_unique; [lia|]. unfold Z.succ.
  assert (Z.odd (2 ^ e) = false).
  { replace e with (Z.succ (e - 1)) by lia. rewrite Z.pow_succ_r by lia.
    by rewrite Z.odd_mul. }
  assert (nd ≠ 2 ^ e) by congruence. lia.
Qed.


Lemma K2_le i : 0 ≤ i ≤ Z.of_nat k → 2 ^ (Z.of_nat k - i + 1) ≤ 2 * K.
Proof.
  intros Hi. rewrite <- K2. apply Z.pow_le_mono_r; lia.
Qed.

Lemma repr_get t f m :
  repr k t f → 0 ≤ m < 2 * K → Slice.getZ t m = Some (f m).
Proof.
  intros [_ H] Hm. unfold Slice.getZ. rewrite (proj2 (Z.leb_le 0 m)) by lia.
  apply H. rewrite K2. lia.
Qed.

Lemma repr_set t f g m v :
  repr k t f → 0 ≤ m < 2 * K →
  (∀ m', 0 ≤ m' < 2 * K → g m' = if m' =? m then v else f m') →
  ∃ t', Slice.setZ t m v = Some t' ∧ repr k t' g.
Proof.
  intros [Hl H] Hm Hg. rewrite K2 in Hl, H.
  unfold Slice.setZ, Slice.store. rewrite (proj2 (Z.leb_le 0 m)) by lia.
  rewrite decide_True by lia. eexists. split; [done|]. split.
  - rewrite length_insert, K2. done.
  - rewrite K2. intros m' Hm'. rewrite (Hg m' Hm').
    destruct (Z.eqb_spec m' m) as [->|Hne].
    + apply list_lookup_insert_eq. lia.
    + rewrite list_lookup_insert_ne by lia. by apply H.
Qed.

Lemma shiftr_mono a b i : 0 ≤ i → a ≤ b → Z.shiftr a i ≤ Z.shiftr b i.
Proof.
  intros Hi Hab. rewrite !Z.shiftr_div_pow2 by lia.
  apply Z.div_le_mono; [|done]. apply Z.pow_pos_nonneg; lia.
Qed.

Lemma split_level u c i :
  0 ≤ i → 0 ≤ leaf k u → 0 ≤ leaf k c →
  Z.b2z ((u <? c) && (Z.shiftr (leaf k u) (i + 1) =? Z.shiftr (leaf k c) (i + 1)))
  = Z.b2z ((u <? c) && (Z.shiftr (leaf k u) i =? Z.shiftr (leaf k c) i))
    + Z.b2z (Z.odd (Z.shiftr (leaf k c) i)
             && (Z.shiftr (leaf k u) i =? Z.shiftr (leaf k c) i - 1)).
Proof.
  intros Hi Hu Hc.
  rewrite <- !(Z.shiftr_shiftr _ i 1) by lia.
  assert (Hle : u < c → Z.shiftr (leaf k u) i ≤ Z.shiftr (leaf k c) i).
  { intros. apply shiftr_mono; [done|]. unfold leaf. lia. }
  assert (Hge : c ≤ u → Z.shiftr (leaf k c) i ≤ Z.shiftr (leaf k u) i).
  { intros. apply shiftr_mono; [done|]. unfold leaf. lia. }
  set (a := Z.shiftr (leaf k u) i) in *. set (b := Z.shiftr (leaf k c) i) in *.
  rewrite !(Z.shiftr_div_pow2 _ 1) by lia. change (2 ^ 1) with 2.
  pose proof (Zmod_odd b) as Hob. clearbody a b.
  destruct (Z.odd b); destruct (Z.ltb_spec u c);
    destruct (Z.eqb_spec (a / 2) (b / 2));
    destruct (Z.eqb_spec a b); destruct (Z.eqb_spec a (b - 1)); simpl; try lia.
  all: exfalso; Z.div_mod_to_equations; lia.
Qed.

(** *** One element: the inner loop

    While the leaf of [c] climbs to the root, every node of its path is
    incremented, and [c] loses the count of the left sibling at every node
    that is a right child: in the end it has lost the number of the
    elements ranked before that are smaller than [c]. *)

Section element.
Variables (U : list Z) (c : Z).
Hypothesis U_range : ∀ u, u ∈ U → 0 ≤ u < K.
Hypothesis c_range : 0 ≤ c < K.

Lemma leaf_range u : 0 ≤ u < K → K ≤ leaf k u < 2 * K.
Proof. unfold leaf. lia. Qed.

Lemma log2_le_k m : 0 ≤ m < 2 * K → Z.log2 m ≤ Z.of_nat k.
Proof.
  intros Hm. destruct (decide (m = 0)) as [->|Hne]; [simpl; lia|].
  assert (Z.log2 m < Z.of_nat k + 1); [|lia].
  apply Z.log2_lt_pow2; [lia|]. rewrite K2. lia.
Qed.

Lemma tr_at_level m i :
  0 ≤ i ≤ Z.of_nat k → Z.log2 m = Z.of_nat k - i →
  tr k U m = countb (λ u, Z.shiftr (leaf k u) i =? m) U.
Proof.
  intros Hi Hm. unfold tr. rewrite Hm.
  by replace (Z.of_nat k - (Z.of_nat k - i)) with i by lia.
Qed.

Lemma c_part_step i :
  0 ≤ i < Z.of_nat k →
  c_part k U c (i + 1)
  = c_part k U c i
    - (if Z.odd (Z.shiftr (leaf k c) i)
       then tr k U (Z.shiftr (leaf k c) i - 1) else 0).
Proof.
  intros Hi. unfold c_part.
  pose proof (leaf_range c c_range) as Hlc.
  pose proof (node_range _ i Hlc ltac:(lia)) as Hnd.
  rewrite (countb_split _
    (λ u, (u <? c) && (Z.shiftr (leaf k u) i =? Z.shiftr (leaf k c) i))
    (λ u, Z.odd (Z.shiftr (leaf k c) i)
          && (Z.shiftr (leaf k u) i =? Z.shiftr (leaf k c) i - 1))).
  2: { intros u Hu. apply split_level; [lia|..].
       - pose proof (leaf_range u (U_range u Hu)). pose proof K_pos. lia.
       - pose proof K_pos. lia. }
  destruct (Z.odd (Z.shiftr (leaf k c) i)) eqn:Ho.
  - rewrite (tr_at_level _ i); [simpl; lia|lia|].
    apply sibling_log2; [lia|lia|done].
  - rewrite (countb_false (λ u, false && _)) by done. lia.
Qed.

Lemma tr_part_step i m :
  0 ≤ i < Z.of_nat k → 0 ≤ m < 2 * K →
  tr_part k U c (i + 1) m
  = if m =? Z.shiftr (leaf k c) i
    then tr_part k U c i (Z.shiftr (leaf k c) i) + 1
    else tr_part k U c i m.
Proof.
  intros Hi Hm. unfold tr_part.
  pose proof (leaf_range c c_range) as Hlc.
  pose proof (log2_le_k m Hm) as Hlog.
  destruct (Z.eqb_spec m (Z.shiftr (leaf k c) i)) as [->|Hne].
  - rewrite node_log2 by (done || lia).
    replace (Z.of_nat k - (Z.of_nat k - i)) with i by lia.
    rewrite Z.eqb_refl, Z.ltb_irrefl, (proj2 (Z.ltb_lt i (i + 1))) by lia.
    simpl. lia.
  - f_equal. f_equal.
    destruct (Z.eqb_spec (Z.shiftr (leaf k c) (Z.of_nat k - Z.log2 m)) m) as [E|E];
      [|by rewrite !andb_false_r].
    rewrite !andb_true_r.
    assert (Z.of_nat k - Z.log2 m ≠ i) by (intros Heq; rewrite Heq in E; done).
    destruct (Z.ltb_spec (Z.of_nat k - Z.log2 m) (i + 1));
      destruct (Z.ltb_spec (Z.of_nat k - Z.log2 m) i); try done; lia.
Qed.

Lemma rank_inner_spec j : ∀ i t,
  Z.of_nat j + i = Z.of_nat k → 0 ≤ i →
  repr k t (tr_part k U c i) →
  ∃ t', rank_inner j t (Z.shiftr (leaf k c) i) (c_part k U c i)
        = Some (t', Z.shiftr (leaf k c) (Z.of_nat k), c_part k U c (Z.of_nat k)) ∧
        repr k t' (tr_part k U c (Z.of_nat k)).
Proof.
  induction j as [|j IH]; intros i t Hij Hi Hrep.
  - assert (i = Z.of_nat k) as -> by lia. by exists t.
  - pose proof (leaf_range c c_range) as Hlc.
    pose proof (node_range _ i Hlc ltac:(lia)) as Hnd.
    pose proof (K2_le i ltac:(lia)) as HK2.
    assert (Hpow : 2 ≤ 2 ^ (Z.of_nat k - i)).
    { change 2 with (2 ^ 1) at 1. apply Z.pow_le_mono_r; lia. }
    set (nd := Z.shiftr (leaf k c) i) in *.
    simpl rank_inner. rewrite odd_land by lia.
    assert (Hc' : (if Z.odd nd
                   then option_map (λ x, c_part k U c i - x) (Slice.getZ t (Z.ldiff nd 1))
                   else Some (c_part k U c i))
                  = Some (c_part k U c (i + 1))).
    { rewrite c_part_step by lia. fold nd. destruct (Z.odd nd) eqn:Ho.
      - rewrite ldiff_odd by done. rewrite (repr_get _ _ _ Hrep) by lia.
        simpl. do 2 f_equal. unfold tr_part.
        rewrite (sibling_log2 nd (Z.of_nat k - i)) by (done || lia).
        replace (Z.of_nat k - (Z.of_nat k - i)) with i by lia.
        rewrite Z.ltb_irrefl. simpl. lia.
      - f_equal. lia. }
    rewrite Hc'. rewrite (repr_get _ _ _ Hrep) by lia.
    destruct (repr_set t _ (tr_part k U c (i + 1)) nd (tr_part k U c i nd + 1) Hrep
                ltac:(lia)) as (t1 & Hset & Hrep1).
    { intros m' Hm'. by apply tr_part_step; [lia|]. }
    rewrite Hset. unfold nd. rewrite Z.shiftr_shiftr by lia.
    apply IH; [lia|lia|done].
Qed.

End element.

(** *** The loop over the elements *)

Lemma shiftl_1 : Z.shiftl 1 (Z.of_nat k) = K.
Proof. rewrite Z.shiftl_1_l. done. Qed.

Lemma rank_loop_spec n p : ∀ U i t r,
  (∀ u, u ∈ U → 0 ≤ u < K) → (∀ c, c ∈ p → 0 ≤ c < K) →
  repr k t (tr k U) →
  rank_loop k n p i t r = Some (lehmer_loop n U p i r).
Proof.
  induction p as [|c p IH]; intros U i t r HU Hp Hrep; [done|].
  assert (Hc : 0 ≤ c < K) by (apply Hp; by left).
  pose proof (leaf_range c Hc) as Hlc. pose proof K_pos as HK.
  simpl rank_loop. rewrite shiftl_1.
  destruct (rank_inner_spec U c HU Hc k 0 t ltac:(lia) ltac:(lia)) as (t1 & Hin & Hrep1).
  { destruct Hrep as [Hl Hrep]. split; [done|]. intros m Hm.
    rewrite (Hrep m Hm). rewrite K2 in Hm. f_equal. unfold tr_part.
    pose proof (log2_le_k m Hm).
    rewrite (proj2 (Z.ltb_ge _ 0)) by lia. simpl. lia. }
  rewrite Z.shiftr_0_r in Hin.
  assert (Hc0 : c_part k U c 0 = c).
  { unfold c_part. rewrite countb_false; [lia|]. intros u Hu.
    rewrite !Z.shiftr_0_r. unfold leaf.
    destruct (Z.ltb_spec u c); [|done]. simpl. apply Z.eqb_neq. lia. }
  rewrite Hc0 in Hin. fold (leaf k c). rewrite Hin.
  assert (Hroot : ∀ u, 0 ≤ u < K → Z.shiftr (leaf k u) (Z.of_nat k) = 1).
  { intros u Hu. pose proof (node_range (leaf k u) (Z.of_nat k) (leaf_range u Hu) ltac:(lia)) as H.
    rewrite Z.sub_diag in H. simpl in H. lia. }
  rewrite (Hroot c Hc). rewrite (repr_get _ _ _ Hrep1) by lia.
  destruct (repr_set t1 _ (tr k (c :: U)) 1 (tr_part k U c (Z.of_nat k) 1 + 1) Hrep1
              ltac:(lia)) as (t2 & Hset & Hrep2).
  { intros m Hm. unfold tr_part, tr. simpl countb.
    destruct (Z.eqb_spec m 1) as [->|Hne].
    - simpl Z.log2. rewrite Z.sub_0_r, (Hroot c Hc), Z.ltb_irrefl. simpl. lia.
    - pose proof (log2_le_k m Hm).
      destruct (Z.eqb_spec (Z.shiftr (leaf k c) (Z.of_nat k - Z.log2 m)) m) as [E|E];
        [|rewrite andb_false_r; simpl; lia].
      rewrite andb_true_r.
      assert (Z.log2 m ≠ 0).
      { intros H0. rewrite H0, Z.sub_0_r, (Hroot c Hc) in E. done. }
      pose proof (Z.log2_nonneg m).
      rewrite (proj2 (Z.ltb_lt _ _)) by lia. simpl. lia. }
  rewrite Hset.
  rewrite (IH (c :: U) (S i) t2); [|by intros u [->|Hu]%elem_of_cons; auto| |done].
  2: { intros c' Hc'. apply Hp. by right. }
  simpl lehmer_loop. do 2 f_equal. unfold c_part, smaller. f_equal. f_equal.
  apply countb_ext. intros u Hu.
  rewrite (Hroot u (HU u Hu)), (Hroot c Hc). simpl. by rewrite andb_true_r.
Qed.

End tree.

(** ** LexRank is the rank by the Lehmer code *)

Lemma LexRank_lehmer_aux (p : list Z) :
  (∀ c, c ∈ p → 0 ≤ c < 2 ^ Z.of_nat (log2 (Z.of_nat (length p)))) →
  LexRank p = Some (lehmer_rank p).
Proof.
  intros Hp. unfold LexRank, lehmer_rank. cbv zeta.
  apply rank_loop_spec; [by intros u Hu%elem_of_nil|done|].
  set (k := log2 (Z.of_nat (length p))).
  rewrite Z.shiftl_1_l.
  assert (0 < 2 ^ (Z.of_nat k + 1)) by (apply Z.pow_pos_nonneg; lia).
  split.
  - rewrite length_replicate. lia.
  - intros m Hm. rewrite lookup_replicate_2 by lia. done.
Qed.

(** ** The Lehmer code counts the smaller arrangements *)

Lemma countb_app {A} (f : A → bool) l1 l2 :
  countb f (l1 ++ l2) = countb f l1 + countb f l2.
Proof. induction l1 as [|x l1 IH]; simpl; lia. Qed.

Lemma countb_perm {A} (f : A → bool) l l' : l ≡ₚ l' → countb f l = countb f l'.
Proof. induction 1; simpl; lia. Qed.

Lemma countb_fmap {A B} (g : A → B) (f : B → bool) l :
  countb f (g <$> l) = countb (λ x, f (g x)) l.
Proof. induction l as [|x l IH]; csimpl; [done|]. by rewrite IH. Qed.

Lemma countb_true {A} (f : A → bool) l :
  (∀ x, x ∈ l → f x = true) → countb f l = Z.of_nat (length l).
Proof.
  induction l as [|x l IH]; intros H; [done|]. simpl countb.
  rewrite (H x) by (by left). rewrite IH; [simpl; lia|]. intros y Hy. apply H. by right.
Qed.

Lemma countb_le_length {A} (f : A → bool) l : countb f l ≤ Z.of_nat (length l).
Proof. induction l as [|x l IH]; simpl; [lia|]. destruct (f x); simpl Z.b2z; lia. Qed.

Lemma countb_mono {A} (f g : A → bool) l :
  (∀ x, x ∈ l → f x = true → g x = true) → countb f l ≤ countb g l.
Proof.
  induction l as [|x l IH]; intros H; [done|]. simpl.
  assert (countb f l ≤ countb g l) by (apply IH; intros y Hy; apply H; by right).
  specialize (H x ltac:(by left)).
  destruct (f x), (g x); simpl; try lia. all: by specialize (H eq_refl).
Qed.

Lemma countb_lt {A} (f g : A → bool) l x :
  (∀ y, y ∈ l → f y = true → g y = true) →
  x ∈ l → f x = false → g x = true → countb f l < countb g l.
Proof.
  intros H Hx Hf Hg. apply list_elem_of_split in Hx as (l1 & l2 & ->).
  rewrite !countb_app. simpl. rewrite Hf, Hg. simpl.
  assert (countb f l1 ≤ countb g l1).
  { apply countb_mono. intros y Hy. apply H. apply elem_of_app. by left. }
  assert (countb f l2 ≤ countb g l2).
  { apply countb_mono. intros y Hy. apply H. apply elem_of_app. right. by right. }
  lia.
Qed.

(* exactly one more element satisfies g than f *)
Lemma countb_succ {A} (f g : A → bool) l x :
  NoDup l → x ∈ l → f x = false → g x = true →
  (∀ y, y ∈ l → y ≠ x → g y = f y) →
  countb g l = countb f l + 1.
Proof.
  intros Hnd Hx Hf Hg H. apply list_elem_of_split in Hx as (l1 & l2 & ->).
  apply NoDup_app in Hnd as (_ & Hd & Hnd2). apply NoDup_cons in Hnd2 as [Hx2 _].
  rewrite !countb_app. simpl. rewrite Hf, Hg. simpl.
  rewrite (countb_ext g f l1), (countb_ext g f l2); [lia| |].
  - intros y Hy. apply H; [apply elem_of_app; right; by right|]. by intros ->.
  - intros y Hy. apply H; [apply elem_of_app; by left|].
    intros ->. apply (Hd x Hy). by left.
Qed.

Lemma countb_bind {A B} (f : B → bool) (g : A → list B) l :
  countb f (l ≫= g) = foldr (λ v acc, countb f (g v) + acc) 0 l.
Proof.
  induction l as [|x l IH]; [done|]. rewrite bind_cons, countb_app, IH. done.
Qed.

Lemma smaller_app a b c : smaller (a ++ b) c = smaller a c + smaller b c.
Proof. apply countb_app. Qed.

Lemma smaller_ints n c :
  0 ≤ c ≤ Z.of_nat n → smaller (map Z.of_nat (seq 0 n)) c = c.
Proof.
  unfold smaller. induction n as [|n IH]; intros Hc; [simpl; lia|].
  rewrite seq_S, map_app, countb_app. simpl.
  destruct (Z.ltb_spec (Z.of_nat n) c); simpl.
  - rewrite countb_true; [rewrite length_map, length_seq; lia|].
    intros x (i & -> & Hi%elem_of_seq)%list_elem_of_fmap. apply Z.ltb_lt. lia.
  - rewrite IH by lia. lia.
Qed.

Lemma NoDup_remove_dups_id (l : list Z) : NoDup l → remove_dups l = l.
Proof.
  induction 1 as [|x l Hx Hnd IH]; [done|]. simpl.
  destruct (decide_rel elem_of x l); [done|]. by rewrite IH.
Qed.

Lemma remove_one_notin v l : v ∉ l → remove_one v l = l.
Proof.
  induction l as [|a l IH]; intros Hv; [done|]. simpl.
  apply not_elem_of_cons in Hv as [Hne Hv].
  rewrite decide_False by done. by rewrite IH.
Qed.

Lemma NoDup_remove_one v l : NoDup l → NoDup (remove_one v l).
Proof.
  induction 1 as [|x l Hx Hnd IH]; [constructor|]. simpl.
  destruct (decide (x = v)); [done|]. constructor; [|done].
  intros Hin. apply Hx. clear -Hin. induction l as [|a l IH]; [done|].
  simpl in Hin. destruct (decide (a = v)); [by right|].
  apply elem_of_cons in Hin as [->|Hin]; [by left|right; auto].
Qed.

Lemma length_arrangements_NoDup n (p : list Z) :
  NoDup p → length p = n → length (arrangements n p) = fact n.
Proof.
  intros Hnd Hn. pose proof (length_arrangements n p Hn) as H.
  rewrite PlainFacts.mrec_NoDup in H by done. lia.
Qed.

Lemma below_arrangements n : ∀ p,
  NoDup p → length p = n → below (arrangements n p) p = suffix_rank p.
Proof.
  induction n as [|n IH]; intros p Hnd Hn.
  { destruct p; [done|done]. }
  destruct p as [|c p]; [done|]. injection Hn as Hn.
  unfold below. rewrite arrangements_S, NoDup_remove_dups_id by done.
  rewrite countb_bind.
  assert (Hterm : ∀ v P, NoDup P → length P = S n → v ∈ P →
            countb (λ r, lex_ltb r (c :: p)) ((v ::.) <$> arrangements n (remove_one v P))
            = if v <? c then Z.of_nat (fact n)
              else if v =? c then countb (λ r, lex_ltb r p) (arrangements n (remove_one v P))
              else 0).
  { intros v P HP HlP Hv. rewrite countb_fmap. simpl lex_ltb.
    destruct (Z.ltb_spec v c); simpl.
    - rewrite countb_true by done. f_equal.
      apply length_arrangements_NoDup; [by apply NoDup_remove_one|].
      pose proof (length_remove_one v P Hv). lia.
    - destruct (Z.eqb_spec v c); simpl; [done|]. by apply countb_false. }
  apply NoDup_cons in Hnd as [Hc Hnd].
  cbn [foldr]. rewrite (Hterm c (c :: p)); [|by constructor|simpl; lia|by left].
  rewrite Z.ltb_irrefl, Z.eqb_refl. simpl remove_one. rewrite decide_True by done.
  fold (below (arrangements n p) p). rewrite (IH p Hnd Hn).
  simpl suffix_rank. rewrite Hn.
  assert (Hsum : ∀ l, (∀ v, v ∈ l → v ∈ p) →
            foldr (λ v acc, countb (λ r, lex_ltb r (c :: p))
                              ((v ::.) <$> arrangements n (remove_one v (c :: p))) + acc) 0 l
            = smaller l c * Z.of_nat (fact n)).
  { induction l as [|v l IHl]; intros Hl; [done|]. cbn [foldr].
    rewrite IHl by (intros w Hw; apply Hl; by right).
    assert (Hvp : v ∈ p) by (apply Hl; by left).
    rewrite (Hterm v (c :: p)); [|by constructor|simpl; lia|by right].
    unfold smaller. simpl countb.
    destruct (Z.ltb_spec v c); simpl; [lia|].
    destruct (Z.eqb_spec v c) as [->|]; [done|]. lia. }
  rewrite Hsum by done. lia.
Qed.

Lemma lehmer_suffix n : ∀ p seen i r,
  seen ++ p ≡ₚ map Z.of_nat (seq 0 n) → i = length seen →
  lehmer_loop n seen p i r
  = r * Z.of_nat (fact (length p)) + suffix_rank p.
Proof.
  induction p as [|c p IH]; intros seen i r Hperm Hi; [simpl; lia|].
  assert (Hlen : (length seen + S (length p) = n)%nat).
  { apply Permutation_length in Hperm.
    rewrite length_app, length_map, length_seq in Hperm. simpl in Hperm. lia. }
  assert (Hc : 0 ≤ c < Z.of_nat n).
  { assert (c ∈ map Z.of_nat (seq 0 n)) as (j & -> & Hj%elem_of_seq)%list_elem_of_fmap.
    { rewrite <- Hperm. apply elem_of_app. right. by left. }
    lia. }
  assert (Hnd : NoDup (seen ++ c :: p)).
  { rewrite Hperm. apply (NoDup_fmap_2 Z.of_nat), NoDup_seq. }
  assert (Hsm : smaller seen c + smaller p c = c).
  { rewrite <- (smaller_ints n c) at 3 by lia. unfold smaller.
    rewrite <- (countb_perm _ _ _ Hperm), countb_app. simpl.
    rewrite Z.ltb_irrefl. simpl. lia. }
  simpl lehmer_loop.
  rewrite (IH (c :: seen) (S i)); [| |simpl; lia].
  2: { rewrite <- Hperm. simpl. by rewrite Permutation_middle. }
  simpl suffix_rank. simpl length.
  replace (fact (S (length p))) with (S (length p) * fact (length p))%nat by done.
  rewrite Nat2Z.inj_mul. subst i.
  replace (Z.of_nat n - Z.of_nat (length seen)) with (Z.of_nat (S (length p))) by lia.
  replace (c - smaller seen c) with (smaller p c) by lia. lia.
Qed.

Lemma lehmer_rank_below p :
  p ≡ₚ map Z.of_nat (seq 0 (length p)) →
  lehmer_rank p = below (arrangements (length p) p) p.
Proof.
  intros Hp. unfold lehmer_rank.
  rewrite (lehmer_suffix (length p) p [] 0 0) by done.
  rewrite below_arrangements; [lia| |done].
  rewrite Hp. apply (NoDup_fmap_2 Z.of_nat), NoDup_seq.
Qed.

(** ** Bounds, order and successor *)

Lemma perm_in_range (p : list Z) :
  p ≡ₚ map Z.of_nat (seq 0 (length p)) → Z.of_nat (length p) < 2 ^ 63 →
  ∀ c, c ∈ p → 0 ≤ c < 2 ^ Z.of_nat (log2 (Z.of_nat (length p))).
Proof.
  intros Hp Hlen c Hc.
  assert (c ∈ map Z.of_nat (seq 0 (length p))) as (j & -> & Hj%elem_of_seq)%list_elem_of_fmap
    by (by rewrite <- Hp).
  pose proof (Log2Facts.log2_upper (Z.of_nat (length p)) ltac:(lia)). lia.
Qed.

Lemma LexRank_below_aux (p : list Z) :
  p ≡ₚ map Z.of_nat (seq 0 (length p)) → Z.of_nat (length p) < 2 ^ 63 →
  LexRank p = Some (below (arrangements (length p) p) p).
Proof.
  intros Hp Hlen. rewrite LexRank_lehmer_aux by (by apply perm_in_range).
  by rewrite lehmer_rank_below.
Qed.

Lemma arrangements_perm n (p q : list Z) :
  length p = n → p ≡ₚ q → arrangements n p ≡ₚ arrangements n q.
Proof.
  intros Hn Hpq. apply list.NoDup_Permutation; [apply NoDup_arrangements..|].
  intros r. rewrite !elem_of_arrangements by (by rewrite <- ?Hpq).
  by rewrite Hpq.
Qed.

Lemma below_perm all all' p : all ≡ₚ all' → below all p = below all' p.
Proof. apply countb_perm. Qed.

Lemma lex_ltb_irrefl p : lex_ltb p p = false.
Proof.
  destruct (lex_ltb p p) eqn:E; [|done].
  apply lex_ltb_spec in E. by apply lex_lt_irrefl in E.
Qed.

Lemma lex_lt_total p : ∀ q,
  length p = length q → p ≠ q → lex_lt p q ∨ lex_lt q p.
Proof.
  induction p as [|x p IH]; intros [|y q] Hl Hne; try done.
  destruct (Z.lt_trichotomy x y) as [H|[->|H]].
  - left. by constructor.
  - destruct (IH q) as [H|H]; [by injection Hl|congruence|..].
    + left. by constructor.
    + right. by constructor.
  - right. by constructor.
Qed.

Lemma below_bounds n (p : list Z) :
  NoDup p → length p = n →
  0 ≤ below (arrangements n p) p < Z.of_nat (fact n).
Proof.
  intros Hnd Hn. split; [apply countb_nonneg|].
  rewrite <- (length_arrangements_NoDup n p Hnd Hn).
  unfold below.
  rewrite <- (countb_true (λ _, true) (arrangements n p)) by done.
  apply (countb_lt _ _ _ p); [done| |apply lex_ltb_irrefl|done].
  by apply elem_of_arrangements.
Qed.

Lemma below_mono n (p q : list Z) :
  length p = n → p ≡ₚ q → lex_lt p q →
  below (arrangements n p) p < below (arrangements n p) q.
Proof.
  intros Hn Hpq Hlt. apply (countb_lt _ _ _ p).
  - intros r _ Hr. apply lex_ltb_spec. apply lex_ltb_spec in Hr.
    by eapply lex_lt_trans.
  - by apply elem_of_arrangements.
  - apply lex_ltb_irrefl.
  - by apply lex_ltb_spec.
Qed.

Lemma below_succ n (p q : list Z) :
  length p = n → q ≡ₚ p → lex_lt p q →
  (∀ r, r ≡ₚ p → lex_lt p r → r = q ∨ lex_lt q r) →
  below (arrangements n p) q = below (arrangements n p) p + 1.
Proof.
  intros Hn Hqp Hlt Hmin. apply (countb_succ _ _ _ p).
  - apply NoDup_arrangements.
  - by apply elem_of_arrangements.
  - apply lex_ltb_irrefl.
  - by apply lex_ltb_spec.
  - intros r Hr Hne. apply elem_of_arrangements in Hr; [|done].
    apply Bool.eq_true_iff_eq. rewrite !lex_ltb_spec. split.
    + intros Hrq. destruct (lex_lt_total r p) as [H|H]; [|done|done|].
      { by rewrite Hr. }
      destruct (Hmin r Hr H) as [->|H'].
      * by apply lex_lt_irrefl in Hrq.
      * exfalso. apply (lex_lt_irrefl r). by eapply lex_lt_trans.
    + intros Hrp. by eapply lex_lt_trans.
Qed.

Lemma nondecreasing_ints n : nondecreasing (map Z.of_nat (seq 0 n)) = true.
Proof.
  apply nondecreasing_Sorted. generalize 0%nat.
  induction n as [|n IH]; intros a; [constructor|].
  simpl. constructor; [apply IH|].
  destruct n; simpl; constructor. lia.
Qed.

Lemma below_ints n :
  below (arrangements n (map Z.of_nat (seq 0 n))) (map Z.of_nat (seq 0 n)) = 0.
Proof.
  apply countb_false. intros r Hr.
  apply elem_of_arrangements in Hr; [|by rewrite length_map, length_seq].
  destruct (lex_ltb r _) eqn:E; [|done]. apply lex_ltb_spec in E.
  destruct (lex_min _ r (nondecreasing_ints n) Hr) as [->|H].
  - by apply lex_lt_irrefl in E.
  - exfalso. apply (lex_lt_irrefl r). by eapply lex_lt_trans.
Qed.

(** X13. [LexRank] is the rank by the Lehmer code: on every slice whose
    elements are in the range of the leaves of its tree, which holds for
    every slice of length [n] with elements in [0 .. n-1], it returns
    without panic, and the result is the number whose digit at index [i],
    of radix [n - i], is [p[i]] minus the number of smaller elements before
    index [i]. *)
Theorem LexRank_lehmer (p : list Z) :
  Forall (λ c, 0 ≤ c < 2 ^ Z.of_nat (log2 (Z.of_nat (length p)))) p →
  LexRank p = Some (lehmer_rank p).
Proof.
  intros Hp. apply LexRank_lehmer_aux. intros c Hc.
  by apply (proj1 (Forall_forall _ _) Hp).
Qed.

Lemma LexRank_lehmer_witness : LexRank [2; 0; 1] = Some (lehmer_rank [2; 0; 1]).
Proof.
  apply (LexRank_lehmer [2; 0; 1]).
  repeat (constructor; [split; [lia|reflexivity]|]). constructor.
Defined.

(** X14. The result of [LexRank] on a permutation [p] of [0 .. n-1] is the
    number of permutations of [0 .. n-1] that are lexicographically smaller
    than [p]; [LexRank] does not panic. *)
Theorem LexRank_counts_smaller (p : list Z) :
  p ≡ₚ map Z.of_nat (seq 0 (length p)) → Z.of_nat (length p) < 2 ^ 63 →
  LexRank p = Some (below (arrangements (length p) p) p).
Proof. apply LexRank_below_aux. Qed.

Lemma LexRank_counts_smaller_witness :
  LexRank [2; 0; 1] = Some (below (arrangements 3 [2; 0; 1]) [2; 0; 1]).
Proof.
  apply (LexRank_counts_smaller [2; 0; 1]); [|reflexivity].
  etrans; [apply perm_swap|]. apply perm_skip, perm_swap.
Defined.

(** X15. The rank of a permutation of [0 .. n-1] is in the range
    [0 .. n! - 1]. *)
Theorem LexRank_range (p : list Z) :
  p ≡ₚ map Z.of_nat (seq 0 (length p)) → Z.of_nat (length p) < 2 ^ 63 →
  ∃ r, LexRank p = Some r ∧ 0 ≤ r < Z.of_nat (fact (length p)).
Proof.
  intros Hp Hlen. eexists. split; [by apply LexRank_below_aux|].
  apply below_bounds; [|done]. rewrite Hp. apply (NoDup_fmap_2 Z.of_nat), NoDup_seq.
Qed.

Lemma LexRank_range_witness :
  ∃ r, LexRank [2; 0; 1] = Some r ∧ 0 ≤ r < 6.
Proof.
  apply (LexRank_range [2; 0; 1]); [|reflexivity].
  etrans; [apply perm_swap|]. apply perm_skip, perm_swap.
Defined.

(** X16. [LexRank] is strictly increasing in the lexicographic order: of
    two permutations of [0 .. n-1], the lexicographically smaller has the
    smaller rank.  Distinct permutations therefore have distinct ranks. *)
Theorem LexRank_strictly_monotone (p q : list Z) :
  p ≡ₚ map Z.of_nat (seq 0 (length p)) → q ≡ₚ p →
  Z.of_nat (length p) < 2 ^ 63 →
  lex_lt p q →
  ∃ r s, LexRank p = Some r ∧ LexRank q = Some s ∧ r < s.
Proof.
  intros Hp Hq Hlen Hlt.
  assert (Hlq : length q = length p) by (by rewrite Hq).
  eexists _, _. split; [by apply LexRank_below_aux|].
  split; [apply LexRank_below_aux; rewrite Hlq; [by rewrite Hq|done]|].
  rewrite Hlq, (below_perm _ (arrangements (length p) p) q)
    by (by apply arrangements_perm).
  by apply below_mono.
Qed.

Lemma LexRank_strictly_monotone_witness :
  ∃ r s, LexRank [0; 2; 1] = Some r ∧ LexRank [2; 0; 1] = Some s ∧ r < s.
Proof.
  apply (LexRank_strictly_monotone [0; 2; 1] [2; 0; 1]).
  - apply perm_skip, perm_swap.
  - apply perm_swap.
  - reflexivity.
  - by constructor.
Defined.

(** X17. [LexNext] advances the rank by one: if [LexNext] returns true on a
    permutation [p] of [0 .. n-1], leaving [q], the rank of [q] is the rank
    of [p] plus 1; if it returns false, [p] has the last rank, [n! - 1]. *)
Theorem LexRank_LexNext (p q : list Z) (b : bool) :
  p ≡ₚ map Z.of_nat (seq 0 (length p)) → Z.of_nat (length p) < 2 ^ 63 →
  LexNext p = Some (b, q) →
  ∃ r, LexRank p = Some r ∧
       if b then LexRank q = Some (r + 1)
       else r = Z.of_nat (fact (length p)) - 1.
Proof.
  intros Hp Hlen Hnext. eexists. split; [by apply LexRank_below_aux|].
  assert (Hnd : NoDup p).
  { rewrite Hp. apply (NoDup_fmap_2 Z.of_nat), NoDup_seq. }
  destruct (nonincreasing p) eqn:E.
  - rewrite LexNext_last in Hnext by done. injection Hnext as <- <-.
    pose proof (length_arrangements_NoDup (length p) p Hnd eq_refl) as Hall.
    pose proof (countb_true (λ _ : list Z, true) (arrangements (length p) p)
                  ltac:(done)) as Htrue.
    assert (Hsucc : countb (λ _ : list Z, true) (arrangements (length p) p)
                    = below (arrangements (length p) p) p + 1); [|lia].
    apply (countb_succ _ _ _ p).
    + apply NoDup_arrangements.
    + by apply elem_of_arrangements.
    + apply lex_ltb_irrefl.
    + done.
    + intros r Hr Hne. apply elem_of_arrangements in Hr; [|done].
      symmetry. apply lex_ltb_spec.
      destruct (lex_lt_total r p) as [H|H]; [by rewrite Hr|done|done|].
      by apply (lex_max p r E Hr) in H.
  - destruct (LexNext_step p E) as (q' & Hq' & Hperm & Hlt & Hmin).
    rewrite Hq' in Hnext. injection Hnext as <- <-.
    assert (Hlq : length q' = length p) by (by rewrite Hperm).
    rewrite LexRank_below_aux; [|rewrite Hlq; by rewrite Hperm|by rewrite Hlq].
    rewrite Hlq, (below_perm _ (arrangements (length p) p) q')
      by (apply arrangements_perm; [done|by symmetry]).
    f_equal. by apply below_succ.
Qed.

Lemma LexRank_LexNext_witness :
  ∃ r, LexRank [0; 2; 1] = Some r ∧ LexRank [1; 0; 2] = Some (r + 1).
Proof.
  apply (LexRank_LexNext [0; 2; 1] [1; 0; 2] true).
  - apply perm_skip, perm_swap.
  - reflexivity.
  - reflexivity.
Defined.

(** X18. The slice that [Ints(n)] returns has the rank 0. *)
Theorem LexRank_Ints (n : nat) :
  Z.of_nat n < 2 ^ 63 →
  ∃ p, Util.Ints n = Some p ∧ LexRank p = Some 0.
Proof.
  intros Hn. exists (map Z.of_nat (seq 0 n)). split.
  { unfold Util.Ints. rewrite length_replicate.
    apply (UtilFacts.ints_loop_spec n []). }
  assert (Hl : length (map Z.of_nat (seq 0 n)) = n)
    by (by rewrite length_map, length_seq).
  rewrite LexRank_below_aux by (by rewrite Hl).
  rewrite Hl. f_equal. apply below_ints.
Qed.

Lemma LexRank_Ints_witness :
  ∃ p, Util.Ints 4 = Some p ∧ LexRank p = Some 0.
Proof. apply (LexRank_Ints 4). reflexivity. Defined.

End RankTree.

(** * LexPerm: the permutation of a rank *)

Module Unrank.
Import Lex LexFacts Rank RankTree.
Local Open Scope Z_scope.

(** ** The table that [LexPerm] builds: every node counts its leaves *)

Lemma count_interval n : ∀ lo hi,
  0 ≤ lo ≤ hi → hi ≤ Z.of_nat n →
  countb (λ u, (lo <=? u) && (u <? hi)) (map Z.of_nat (seq 0 n)) = hi - lo.
Proof.
  induction n as [|n IH]; intros lo hi H1 H2; [simpl; lia|].
  rewrite seq_S, map_app, countb_app. cbn [countb map Nat.add]. cbv beta.
  destruct (Z.ltb_spec (Z.of_nat n) hi) as [Hhi|Hhi].
  - destruct (Z.leb_spec lo (Z.of_nat n)) as [Hlo|Hlo]; simpl.
    + rewrite (countb_ext _ (λ u, (lo <=? u) && (u <? Z.of_nat n))).
      * rewrite IH by lia. lia.
      * intros u (j & -> & Hj%elem_of_seq)%list_elem_of_fmap. f_equal.
        rewrite (proj2 (Z.ltb_lt _ _)), (proj2 (Z.ltb_lt _ _)); [done|lia..].
    + rewrite countb_false; [lia|].
      intros u (j & -> & Hj%elem_of_seq)%list_elem_of_fmap.
      apply andb_false_iff. left. apply Z.leb_gt. lia.
  - rewrite IH by lia. rewrite andb_false_r. simpl. lia.
Qed.

Lemma shiftr_eq_iff x e m :
  0 ≤ e → Z.shiftr x e = m ↔ m * 2 ^ e ≤ x < (m + 1) * 2 ^ e.
Proof.
  intros He. rewrite Z.shiftr_div_pow2 by lia.
  assert (0 < 2 ^ e) by (apply Z.pow_pos_nonneg; lia).
  split.
  - intros <-. pose proof (Z.mul_div_le x (2 ^ e) ltac:(lia)).
    pose proof (Z.mul_succ_div_gt x (2 ^ e) ltac:(lia)). lia.
  - intros [Hlo Hhi]. symmetry. apply (Z.div_unique_pos x (2 ^ e) m (x - m * 2 ^ e)); lia.
Qed.

Section tree.
Variable k : nat.
Local Abbreviation K := (2 ^ Z.of_nat k).
Local Abbreviation intsK := (map Z.of_nat (seq 0 (2 ^ k))).

Lemma K_nat : Z.of_nat (2 ^ k) = K.
Proof. by rewrite Nat2Z.inj_pow. Qed.

Lemma pow2_log2_bounds m :
  1 ≤ m < 2 * K →
  0 ≤ Z.log2 m ≤ Z.of_nat k ∧
  2 ^ Z.log2 m ≤ m < 2 ^ (Z.log2 m + 1).
Proof.
  intros Hm. pose proof (Z.log2_spec m ltac:(lia)) as Hs.
  pose proof (log2_le_k k m ltac:(lia)). pose proof (Z.log2_nonneg m).
  unfold Z.succ in Hs. lia.
Qed.

Lemma tr_full m :
  0 ≤ m < 2 * K → tr k intsK m = pref k (2 * K) m.
Proof.
  intros Hm. unfold pref, tr.
  destruct (Z.leb_spec 1 m) as [H1|H1]; simpl.
  - rewrite (proj2 (Z.ltb_lt _ _)) by lia.
    destruct (pow2_log2_bounds m ltac:(lia)) as [Hl Hb].
    set (e := Z.of_nat k - Z.log2 m) in *.
    assert (He : 0 ≤ e ≤ Z.of_nat k) by (unfold e; lia).
    assert (HK : K = 2 ^ Z.log2 m * 2 ^ e).
    { rewrite <- Z.pow_add_r by lia. f_equal. unfold e. lia. }
    assert (0 < 2 ^ e) by (apply Z.pow_pos_nonneg; lia).
    assert (Hhi : (m + 1) * 2 ^ e ≤ 2 * K).
    { rewrite HK. replace (2 * (2 ^ Z.log2 m * 2 ^ e)) with (2 ^ (Z.log2 m + 1) * 2 ^ e).
      - apply Z.mul_le_mono_nonneg_r; lia.
      - rewrite (Z.pow_add_r 2 (Z.log2 m) 1) by lia. lia. }
    assert (Hlo : K ≤ m * 2 ^ e).
    { rewrite HK. apply Z.mul_le_mono_nonneg_r; lia. }
    rewrite (countb_ext _ (λ u, (m * 2 ^ e - K <=? u) && (u <? (m + 1) * 2 ^ e - K))).
    + rewrite count_interval; [lia|lia|]. rewrite K_nat. lia.
    + intros u Hu. unfold leaf. apply Bool.eq_true_iff_eq.
      rewrite Z.eqb_eq, andb_true_iff, Z.leb_le, Z.ltb_lt, shiftr_eq_iff by lia. lia.
  - assert (m = 0) as -> by lia. apply countb_false.
    intros u (j & -> & Hj%elem_of_seq)%list_elem_of_fmap.
    simpl Z.log2. rewrite Z.sub_0_r. apply Z.eqb_neq.
    assert (Hj' : 0 ≤ Z.of_nat j < K) by (rewrite <- K_nat; lia).
    pose proof (node_range k (leaf k (Z.of_nat j)) (Z.of_nat k)
                  (leaf_range k _ Hj') ltac:(lia)) as Hn.
    rewrite Z.sub_diag in Hn. simpl in Hn. lia.
Qed.

Lemma pref_step b m' :
  1 ≤ b → Z.log2 b = Z.log2 b →
  pref k (b + 1) m' = if m' =? b then 2 ^ (Z.of_nat k - Z.log2 b) else pref k b m'.
Proof.
  intros Hb _. unfold pref.
  destruct (Z.eqb_spec m' b) as [->|Hne].
  - rewrite (proj2 (Z.leb_le _ _)), (proj2 (Z.ltb_lt _ _)) by lia. done.
  - destruct (Z.leb_spec 1 m'); simpl; [|done].
    destruct (Z.ltb_spec m' (b + 1)); destruct (Z.ltb_spec m' b); try done; lia.
Qed.

Lemma init_row_spec i len : ∀ a t,
  (i ≤ k)%nat → (1 ≤ a)%nat → Z.of_nat a - 1 + Z.of_nat len ≤ 2 ^ Z.of_nat i →
  repr k t (pref k (2 ^ Z.of_nat i + Z.of_nat a - 1)) →
  ∃ t', init_row k i (seq a len) t = Some t' ∧
        repr k t' (pref k (2 ^ Z.of_nat i + Z.of_nat a - 1 + Z.of_nat len)).
Proof.
  induction len as [|len IH]; intros a t Hi Ha Hlen Hrep.
  { exists t. split; [done|]. by rewrite Z.add_0_r. }
  simpl init_row. rewrite Z.shiftl_1_l, Z.shiftl_1_l.
  set (b := 2 ^ Z.of_nat i + Z.of_nat a - 1).
  assert (Hpi : 0 < 2 ^ Z.of_nat i) by (apply Z.pow_pos_nonneg; lia).
  assert (Hb : 2 ^ Z.of_nat i ≤ b < 2 ^ (Z.of_nat i + 1)).
  { unfold b. rewrite Z.pow_add_r by lia. lia. }
  assert (Hlog : Z.log2 b = Z.of_nat i).
  { apply Z.log2_unique; [lia|]. unfold Z.succ. lia. }
  assert (Hb2 : 2 ^ (Z.of_nat i + 1) ≤ 2 * K).
  { rewrite <- (K2 k). apply Z.pow_le_mono_r; lia. }
  destruct (repr_set k t _ (pref k (b + 1)) b (2 ^ (Z.of_nat k - Z.of_nat i)) Hrep
              ltac:(lia)) as (t1 & Hset & Hrep1).
  { intros m' _. rewrite pref_step by (done || lia). by rewrite Hlog. }
  fold b in Hrep. rewrite Hset.
  destruct (IH (S a) t1 Hi ltac:(lia) ltac:(lia)) as (t' & Ht' & Hrep').
  { replace (2 ^ Z.of_nat i + Z.of_nat (S a) - 1) with (b + 1) by (unfold b; lia). done. }
  exists t'. split; [done|].
  replace (b + Z.of_nat (S len)) with (2 ^ Z.of_nat i + Z.of_nat (S a) - 1 + Z.of_nat len)
    by (unfold b; lia). done.
Qed.

Lemma init_rows_spec cnt : ∀ i t,
  (i + cnt = S k)%nat →
  repr k t (pref k (2 ^ Z.of_nat i)) →
  ∃ t', init_rows k (seq i cnt) t = Some t' ∧
        repr k t' (pref k (2 ^ Z.of_nat (i + cnt))).
Proof.
  induction cnt as [|cnt IH]; intros i t Hi Hrep.
  { exists t. split; [done|]. by rewrite Nat.add_0_r. }
  simpl init_rows.
  destruct (init_row_spec i (2 ^ i) 1 t ltac:(lia) ltac:(lia)) as (t1 & Hrow & Hrep1).
  { rewrite Nat2Z.inj_pow. simpl. lia. }
  { replace (2 ^ Z.of_nat i + Z.of_nat 1 - 1) with (2 ^ Z.of_nat i) by lia. done. }
  rewrite Hrow.
  destruct (IH (S i) t1 ltac:(lia)) as (t' & Ht' & Hrep').
  { replace (2 ^ Z.of_nat (S i)) with (2 ^ Z.of_nat i + Z.of_nat 1 - 1 + Z.of_nat (2 ^ i)); [done|].
    rewrite Nat2Z.inj_pow, (Nat2Z.inj_succ i), Z.pow_succ_r by lia.
    change (Z.of_nat 2) with 2. change (Z.of_nat 1) with 1. lia. }
  exists t'. split; [done|]. by replace (i + S cnt)%nat with (S i + cnt)%nat by lia.
Qed.

Lemma init_rows_full :
  ∃ t, init_rows k (seq 0 (S k))
         (replicate (Z.to_nat (Z.shiftl 1 (Z.of_nat k + 1))) 0) = Some t ∧
       repr k t (tr k intsK).
Proof.
  assert (H2K : 0 < 2 ^ (Z.of_nat k + 1)) by (apply Z.pow_pos_nonneg; lia).
  destruct (init_rows_spec (S k) 0 (replicate (Z.to_nat (Z.shiftl 1 (Z.of_nat k + 1))) 0)
              eq_refl) as (t & Ht & Hrep).
  { rewrite Z.shiftl_1_l. split.
    - rewrite length_replicate. lia.
    - intros m Hm. rewrite lookup_replicate_2 by lia. f_equal. unfold pref.
      change (2 ^ Z.of_nat 0) with 1.
      destruct (Z.leb_spec 1 m); destruct (Z.ltb_spec m 1); simpl; try done; lia. }
  exists t. split; [done|]. destruct Hrep as [Hl Hrep]. split; [done|].
  intros m Hm. rewrite (Hrep m Hm). f_equal. rewrite K2 in Hm.
  rewrite tr_full by lia. f_equal.
  replace (Z.of_nat (0 + S k)) with (Z.of_nat k + 1) by lia. apply K2.
Qed.

End tree.

(** ** The descent to a leaf

    With [d] elements of [A] smaller than [l], the descent from the root
    that goes to the right child whenever [d] is at least the count of the
    left child, and takes that count off [d], ends at the leaf of [l]. *)

Section descent.
Variable k : nat.
Local Abbreviation K := (2 ^ Z.of_nat k).
Variables (A : list Z) (l : Z).
Hypothesis A_range : ∀ u, u ∈ A → 0 ≤ u < K.
Hypothesis A_NoDup : NoDup A.
Hypothesis l_in : l ∈ A.

Lemma l_range : 0 ≤ l < K.
Proof. by apply A_range. Qed.

Lemma d_part_c_part i : d_part k A l i = l - c_part k A l i.
Proof. unfold d_part, c_part. lia. Qed.

Lemma d_part_step i :
  0 ≤ i < Z.of_nat k →
  d_part k A l (i + 1)
  = d_part k A l i
    + (if Z.odd (Z.shiftr (leaf k l) i)
       then tr k A (Z.shiftr (leaf k l) i - 1) else 0).
Proof.
  intros Hi. rewrite !d_part_c_part.
  rewrite (c_part_step k A l A_range l_range i Hi). lia.
Qed.

Lemma d_part_lt i :
  0 ≤ i ≤ Z.of_nat k →
  0 ≤ d_part k A l i < tr k A (Z.shiftr (leaf k l) i).
Proof.
  intros Hi. split; [apply countb_nonneg|].
  pose proof (leaf_range k l l_range) as Hl.
  rewrite (tr_at_level k A _ i Hi) by (by apply (node_log2 k)).
  apply (countb_lt _ _ _ l).
  - intros u _ [_ H]%andb_true_iff. done.
  - done.
  - by rewrite Z.ltb_irrefl.
  - apply Z.eqb_refl.
Qed.

Lemma tr_desc_step j m :
  0 ≤ j < Z.of_nat k → 0 ≤ m < 2 * K →
  tr_desc k A l j m
  = if m =? Z.shiftr (leaf k l) (j + 1)
    then tr_desc k A l (j + 1) (Z.shiftr (leaf k l) (j + 1)) - 1
    else tr_desc k A l (j + 1) m.
Proof.
  intros Hj Hm. unfold tr_desc.
  pose proof (leaf_range k l l_range) as Hlc.
  pose proof (log2_le_k k m Hm) as Hlog.
  destruct (Z.eqb_spec m (Z.shiftr (leaf k l) (j + 1))) as [->|Hne].
  - rewrite (node_log2 k) by (done || lia).
    replace (Z.of_nat k - (Z.of_nat k - (j + 1))) with (j + 1) by lia.
    rewrite Z.eqb_refl, Z.ltb_irrefl, (proj2 (Z.ltb_lt j (j + 1))) by lia.
    simpl. lia.
  - f_equal. f_equal.
    destruct (Z.eqb_spec (Z.shiftr (leaf k l) (Z.of_nat k - Z.log2 m)) m) as [E|E];
      [|by rewrite !andb_false_r].
    rewrite !andb_true_r.
    assert (Z.of_nat k - Z.log2 m ≠ j + 1) by (intros Heq; rewrite Heq in E; done).
    destruct (Z.ltb_spec j (Z.of_nat k - Z.log2 m));
      destruct (Z.ltb_spec (j + 1) (Z.of_nat k - Z.log2 m)); try done; lia.
Qed.

Lemma shiftr_child x j :
  0 ≤ j → 0 ≤ x →
  Z.shiftr x j = 2 * Z.shiftr x (j + 1) + (if Z.odd (Z.shiftr x j) then 1 else 0).
Proof.
  intros Hj Hx. rewrite <- (Z.shiftr_shiftr x j 1) by lia.
  rewrite (Z.shiftr_div_pow2 _ 1) by lia. change (2 ^ 1) with 2.
  pose proof (Zmod_odd (Z.shiftr x j)) as Ho.
  destruct (Z.odd (Z.shiftr x j)); Z.div_mod_to_equations; lia.
Qed.

Lemma perm_inner_spec j : ∀ t,
  (j ≤ k)%nat →
  repr k t (tr_desc k A l (Z.of_nat j)) →
  ∃ t' d', perm_inner j t (Z.shiftr (leaf k l) (Z.of_nat j)) (d_part k A l (Z.of_nat j))
           = Some (t', leaf k l, d') ∧
           repr k t' (tr_desc k A l 0).
Proof.
  induction j as [|j IH]; intros t Hj Hrep.
  { exists t, (d_part k A l 0). split; [|done]. simpl. by rewrite Z.shiftr_0_r. }
  pose proof (leaf_range k l l_range) as Hlc. pose proof (K_pos k) as HK.
  replace (Z.of_nat (S j)) with (Z.of_nat j + 1) in * by lia.
  pose proof (node_range k _ (Z.of_nat j + 1) Hlc ltac:(lia)) as Hnd.
  pose proof (node_range k _ (Z.of_nat j) Hlc ltac:(lia)) as Hnd0.
  pose proof (K2_le k (Z.of_nat j + 1) ltac:(lia)) as HK2.
  pose proof (K2_le k (Z.of_nat j) ltac:(lia)) as HK20.
  pose proof (shiftr_child (leaf k l) (Z.of_nat j) ltac:(lia) ltac:(lia)) as Hch.
  assert (HndK : 2 ^ (Z.of_nat k - (Z.of_nat j + 1) + 1) ≤ K)
    by (apply Z.pow_le_mono_r; lia).
  set (nd := Z.shiftr (leaf k l) (Z.of_nat j + 1)) in *.
  set (nd0 := Z.shiftr (leaf k l) (Z.of_nat j)) in *.
  simpl perm_inner.
  rewrite (repr_get k _ _ _ Hrep) by lia.
  destruct (repr_set k t _ (tr_desc k A l (Z.of_nat j)) nd
              (tr_desc k A l (Z.of_nat j + 1) nd - 1) Hrep ltac:(lia))
    as (t1 & Hset & Hrep1).
  { intros m' Hm'. by apply tr_desc_step; [lia|]. }
  rewrite Hset. rewrite Z.shiftl_mul_pow2 by lia. change (2 ^ 1) with 2.
  assert (Hw : Slice.getZ t1 (nd * 2) = Some (tr k A (nd * 2))).
  { rewrite (repr_get k _ _ _ Hrep1) by lia. f_equal. unfold tr_desc.
    assert (Z.log2 (nd * 2) = Z.of_nat k - Z.of_nat j) as ->.
    { apply Z.log2_unique; [lia|]. unfold Z.succ.
      replace (Z.of_nat k - Z.of_nat j) with (Z.of_nat k - (Z.of_nat j + 1) + 1) by lia.
      rewrite Z.pow_add_r by lia.
      replace (Z.of_nat k - (Z.of_nat j + 1) + 1 + 1)
        with (Z.of_nat k - (Z.of_nat j + 1) + 1 + 1) by lia.
      rewrite (Z.pow_add_r 2 (Z.of_nat k - (Z.of_nat j + 1) + 1) 1) by lia. lia. }
    replace (Z.of_nat k - (Z.of_nat k - Z.of_nat j)) with (Z.of_nat j) by lia.
    rewrite Z.ltb_irrefl. simpl. lia. }
  rewrite Hw.
  pose proof (d_part_step (Z.of_nat j) ltac:(lia)) as Hstep. fold nd0 in Hstep.
  pose proof (d_part_lt (Z.of_nat j) ltac:(lia)) as Hlt. fold nd0 in Hlt.
  destruct (Z.odd nd0) eqn:Ho.
  - replace (nd0 - 1) with (nd * 2) in Hstep by lia.
    rewrite (proj2 (Z.geb_le _ _)) by lia.
    replace (nd * 2 + 1) with nd0 by lia.
    replace (d_part k A l (Z.of_nat j + 1) - tr k A (nd * 2))
      with (d_part k A l (Z.of_nat j)) by lia.
    apply IH; [lia|done].
  - replace (nd * 2) with nd0 by lia.
    destruct (Z.geb_spec (d_part k A l (Z.of_nat j + 1)) (tr k A nd0)); [lia|].
    rewrite Hstep, Z.add_0_r. apply IH; [lia|done].
Qed.

End descent.

(** ** The loop over the digits

    [R] are the elements not yet placed.  The leaves from [n] on, [P], pad
    the tree to a power of two; they count as available in the table, and
    are larger than every element, so that a digit below the number of
    elements left always selects an element. *)

Lemma smaller_lt_length (A : list Z) a :
  a ∈ A → 0 ≤ smaller A a < Z.of_nat (length A).
Proof.
  intros Ha. split; [apply countb_nonneg|]. unfold smaller.
  rewrite <- (countb_true (λ _, true) A) by done.
  apply (countb_lt _ _ _ a); [done|done|apply Z.ltb_irrefl|done].
Qed.

Lemma smaller_mono (A : list Z) a b :
  a ∈ A → a < b → smaller A a < smaller A b.
Proof.
  intros Ha Hab. apply (countb_lt _ _ _ a); [|done|apply Z.ltb_irrefl|by apply Z.ltb_lt].
  intros u _ Hu%Z.ltb_lt. apply Z.ltb_lt. lia.
Qed.

Lemma select_exists (A : list Z) d :
  NoDup A → 0 ≤ d < Z.of_nat (length A) → ∃ l, l ∈ A ∧ smaller A l = d.
Proof.
  intros Hnd Hd.
  set (vs := map (smaller A) A).
  assert (Hvs : NoDup vs).
  { apply NoDup_fmap_2_strong; [|done]. intros a b Ha Hb Hab.
    destruct (Z.lt_trichotomy a b) as [H|[H|H]]; [|done|].
    - pose proof (smaller_mono A a b Ha H). lia.
    - pose proof (smaller_mono A b a Hb H). lia. }
  assert (Hsub : vs ⊆+ map Z.of_nat (seq 0 (length A))).
  { apply NoDup_submseteq; [done|]. intros v (a & -> & Ha)%list_elem_of_fmap.
    pose proof (smaller_lt_length A a Ha).
    apply list_elem_of_fmap. exists (Z.to_nat (smaller A a)). split; [lia|].
    apply elem_of_seq. lia. }
  apply submseteq_length_Permutation in Hsub;
    [|unfold vs; rewrite !length_map, length_seq; lia].
  assert (Hin : d ∈ vs).
  { rewrite Hsub. apply list_elem_of_fmap. exists (Z.to_nat d). split; [lia|].
    apply elem_of_seq. lia. }
  apply list_elem_of_fmap in Hin as (l & -> & Hl). by exists l.
Qed.

Section loop.
Variable k : nat.
Local Abbreviation K := (2 ^ Z.of_nat k).

Lemma tr_cons A l m :
  tr k (l :: A) m
  = Z.b2z (Z.shiftr (leaf k l) (Z.of_nat k - Z.log2 m) =? m) + tr k A m.
Proof. done. Qed.

Lemma tr_perm A A' m : A ≡ₚ A' → tr k A m = tr k A' m.
Proof. apply countb_perm. Qed.

(* one digit: the descent and the write at the leaf *)
Lemma pick_spec A A' l t :
  (∀ u, u ∈ A → 0 ≤ u < K) → NoDup A → A ≡ₚ l :: A' →
  repr k t (tr k A) →
  ∃ t1 d' t2,
    perm_inner k t 1 (smaller A l) = Some (t1, leaf k l, d') ∧
    Slice.setZ t1 (leaf k l) 0 = Some t2 ∧
    repr k t2 (tr k A').
Proof.
  intros HA Hnd Hperm Hrep.
  assert (Hl : l ∈ A) by (rewrite Hperm; by left).
  pose proof (HA l Hl) as Hlr. pose proof (leaf_range k l Hlr) as Hlc.
  assert (Hroot : ∀ u, 0 ≤ u < K → Z.shiftr (leaf k u) (Z.of_nat k) = 1).
  { intros u Hu. pose proof (node_range k (leaf k u) (Z.of_nat k) (leaf_range k u Hu) ltac:(lia)) as H.
    rewrite Z.sub_diag in H. simpl in H. lia. }
  destruct (perm_inner_spec k A l HA Hl k t ltac:(lia)) as (t1 & d' & Hin & Hrep1).
  { destruct Hrep as [Hlen Hrep]. split; [done|]. intros m Hm.
    rewrite (Hrep m Hm). f_equal. unfold tr_desc.
    pose proof (Z.log2_nonneg m).
    rewrite (proj2 (Z.ltb_ge _ _)) by lia. simpl. lia. }
  rewrite (Hroot l Hlr) in Hin.
  assert (Hd : d_part k A l (Z.of_nat k) = smaller A l).
  { apply countb_ext. intros u Hu.
    rewrite (Hroot u (HA u Hu)), (Hroot l Hlr). simpl. by rewrite andb_true_r. }
  rewrite Hd in Hin.
  destruct (repr_set k t1 _ (tr k A') (leaf k l) 0 Hrep1 ltac:(lia)) as (t2 & Hset & Hrep2).
  { intros m Hm. unfold tr_desc. rewrite (tr_perm A (l :: A') m Hperm), tr_cons.
    pose proof (log2_le_k k m Hm) as Hlog.
    destruct (Z.eqb_spec m (leaf k l)) as [->|Hne].
    - apply countb_false. intros u Hu.
      assert (Z.log2 (leaf k l) = Z.of_nat k) as ->.
      { apply Z.log2_unique; [lia|]. unfold Z.succ. rewrite Z.pow_add_r by lia. lia. }
      rewrite Z.sub_diag, Z.shiftr_0_r. apply Z.eqb_neq. unfold leaf.
      intros Heq. assert (u = l) as -> by lia.
      rewrite Hperm in Hnd. apply NoDup_cons in Hnd as [Hnl _]. done.
    - destruct (Z.eqb_spec (Z.shiftr (leaf k l) (Z.of_nat k - Z.log2 m)) m) as [E|E];
        [|rewrite andb_false_r; simpl; lia].
      rewrite andb_true_r.
      assert (Z.of_nat k - Z.log2 m ≠ 0).
      { intros H0. rewrite H0, Z.shiftr_0_r in E. done. }
      rewrite (proj2 (Z.ltb_lt _ _)) by lia. simpl. lia. }
  by exists t1, d', t2.
Qed.

Variables (n : nat) (P : list Z).
Hypothesis n_le_K : Z.of_nat n ≤ K.
Hypothesis P_range : ∀ u, u ∈ P → Z.of_nat n ≤ u < K.
Hypothesis P_NoDup : NoDup P.

Lemma smaller_P l : l < Z.of_nat n → smaller P l = 0.
Proof.
  intros Hl. apply countb_false. intros u Hu. apply Z.ltb_ge.
  pose proof (P_range u Hu). lia.
Qed.

Lemma NoDup_avail R :
  NoDup R → (∀ u, u ∈ R → 0 ≤ u < Z.of_nat n) → NoDup (R ++ P).
Proof.
  intros Hnd HR. apply NoDup_app. split_and!; [done| |done].
  intros u Hu HuP. pose proof (HR u Hu). pose proof (P_range u HuP). lia.
Qed.

Lemma avail_range R :
  (∀ u, u ∈ R → 0 ≤ u < Z.of_nat n) → ∀ u, u ∈ R ++ P → 0 ≤ u < K.
Proof.
  intros HR u [Hu|Hu]%elem_of_app.
  - pose proof (HR u Hu). lia.
  - pose proof (P_range u Hu). lia.
Qed.

Lemma perm_loop_spec ds : ∀ R pos t p,
  NoDup R → (∀ u, u ∈ R → 0 ≤ u < Z.of_nat n) →
  (∀ i d, ds !! i = Some d → 0 ≤ d < Z.of_nat (length R) - Z.of_nat i) →
  (pos + length ds ≤ length p)%nat →
  repr k t (tr k (R ++ P)) →
  ∃ ls R' t',
    perm_loop k K ds pos t p
    = Some (t', take pos p ++ ls ++ drop (pos + length ds) p) ∧
    length ls = length ds ∧ R ≡ₚ ls ++ R' ∧
    repr k t' (tr k (R' ++ P)) ∧
    ∀ rest, rest ≡ₚ R' →
      suffix_rank (ls ++ rest) = digits_rev_value ds (length R) + suffix_rank rest.
Proof.
  induction ds as [|d ds IH]; intros R pos t p Hnd HR Hds Hpos Hrep.
  { exists [], R, t. simpl. rewrite Nat.add_0_r, take_drop. by split_and!. }
  destruct (select_exists R d Hnd) as (l & Hl & Hsm).
  { specialize (Hds 0%nat d eq_refl). lia. }
  pose proof (HR l Hl) as Hlr.
  pose proof (remove_one_perm l R Hl) as HR1.
  pose proof (length_remove_one l R Hl) as HlenR1.
  set (R1 := remove_one l R) in *.
  assert (HsmA : smaller (R ++ P) l = d).
  { rewrite smaller_app, smaller_P by lia. lia. }
  destruct (pick_spec (R ++ P) (R1 ++ P) l t (avail_range R HR) (NoDup_avail R Hnd HR))
    as (t1 & d' & t2 & Hin & Hset & Hrep2); [by rewrite HR1|done|].
  rewrite HsmA in Hin.
  destruct (IH R1 (S pos) t2 (<[pos:=l]> p)) as (ls & R' & t' & Hloop & Hlen & Hperm & Hrep' & Hrank).
  { by apply NoDup_remove_one. }
  { intros u Hu. apply HR. rewrite HR1. by right. }
  { intros i d0 Hi. specialize (Hds (S i) d0 Hi). lia. }
  { rewrite length_insert. simpl in Hpos. lia. }
  { done. }
  exists (l :: ls), R', t'. split_and!.
  - simpl perm_loop. rewrite Hin, Hset.
    unfold Slice.store. rewrite decide_True by (simpl in Hpos; lia).
    replace (leaf k l - K) with l by (unfold leaf; lia).
    rewrite Hloop. do 2 f_equal.
    simpl in Hpos.
    rewrite (take_S_r _ _ l) by (apply list_lookup_insert_eq; lia).
    rewrite take_insert_ge by lia. rewrite drop_insert_lt by lia.
    replace (pos + length (d :: ds))%nat with (S pos + length ds)%nat by (simpl; lia).
    by rewrite <- app_assoc.
  - simpl. by rewrite Hlen.
  - rewrite HR1. simpl. by rewrite Hperm.
  - done.
  - intros rest Hrest. simpl app. simpl suffix_rank. rewrite (Hrank rest Hrest).
    assert (Hp1 : ls ++ rest ≡ₚ R1) by (by rewrite Hrest, <- Hperm).
    assert (smaller (ls ++ rest) l = d) as ->.
    { unfold smaller. rewrite (countb_perm _ _ _ Hp1).
      rewrite <- Hsm. unfold smaller. rewrite (countb_perm _ _ _ HR1). simpl.
      rewrite Z.ltb_irrefl. simpl. lia. }
    rewrite (Permutation_length Hp1).
    simpl digits_rev_value.
    replace (length R - 1)%nat with (length R1) by lia. lia.
Qed.

End loop.

(** ** The last element

    The final loop goes left when the left child counts 1 and right when
    it counts 0.  For [n = 2^k - 2^e] no left child on the path to an
    element holds a padding leaf, and the loop finds the element left. *)

Lemma pow2_split a b : 0 ≤ b ≤ a → 2 ^ a = 2 ^ (a - b) * 2 ^ b.
Proof. intros H. rewrite <- Z.pow_add_r by lia. f_equal. lia. Qed.

(* the left children on the path to a real leaf hold no padding *)
Lemma shape_ok k e j q r n :
  0 ≤ j < k → 0 ≤ e →
  n = 2 ^ k ∨ n = 2 ^ k - 2 ^ e →
  0 ≤ r < n → q = Z.shiftr (2 ^ k + r) j → Z.even q = true →
  (q + 1) * 2 ^ j ≤ 2 ^ k + n.
Proof.
  intros Hj He Hn Hr Hq Hev.
  assert (Hs : 0 < 2 ^ j) by (apply Z.pow_pos_nonneg; lia).
  assert (HK : 2 ^ k = 2 ^ (k - j) * 2 ^ j) by (apply pow2_split; lia).
  assert (Hh : 2 ^ (k - j) = 2 * 2 ^ (k - j - 1)).
  { rewrite <- Z.pow_succ_r by lia. f_equal. lia. }
  assert (Hh0 : 0 < 2 ^ (k - j - 1)) by (apply Z.pow_pos_nonneg; lia).
  assert (Hqs : q * 2 ^ j ≤ 2 ^ k + r < (q + 1) * 2 ^ j).
  { apply shiftr_eq_iff; [lia|done]. }
  (* q is below the number of nodes of its level, and both are even *)
  assert (Hq2 : q + 2 ≤ 2 * 2 ^ (k - j)).
  { assert (q < 2 * 2 ^ (k - j)) by nia.
    apply Z.even_spec in Hev as [q' ->]. lia. }
  destruct Hn as [->| ->]; [nia|].
  assert (He0 : 0 < 2 ^ e) by (apply Z.pow_pos_nonneg; lia).
  destruct (Z.le_gt_cases j e) as [Hje|Hje].
  - assert (HE : 2 ^ e = 2 ^ (e - j) * 2 ^ j) by (apply pow2_split; lia).
    assert (0 < 2 ^ (e - j)) by (apply Z.pow_pos_nonneg; lia).
    assert (q < 2 * 2 ^ (k - j) - 2 ^ (e - j)) by nia.
    nia.
  - assert (2 ^ e ≤ 2 ^ j) by (apply Z.pow_le_mono_r; lia). nia.
Qed.

Section last.
Variable k : nat.
Local Abbreviation K := (2 ^ Z.of_nat k).
Variables (n : nat) (P : list Z) (r : Z) (e : Z).
Hypothesis P_range : ∀ u, u ∈ P → Z.of_nat n ≤ u < K.
Hypothesis r_range : 0 ≤ r < Z.of_nat n.
Hypothesis n_le_K : Z.of_nat n ≤ K.
Hypothesis e_nonneg : 0 ≤ e.
Hypothesis shape : Z.of_nat n = K ∨ Z.of_nat n = K - 2 ^ e.

Lemma no_padding m h :
  0 ≤ h → Z.of_nat k - Z.log2 m = h →
  (m + 1) * 2 ^ h - K ≤ Z.of_nat n → tr k P m = 0.
Proof.
  intros Hh Hlog Hm. apply countb_false. intros u Hu. rewrite Hlog.
  apply Z.eqb_neq. intros Heq. apply shiftr_eq_iff in Heq; [|done].
  pose proof (P_range u Hu). unfold leaf in Heq. lia.
Qed.

Lemma last_inner_spec j : ∀ t,
  (j ≤ k)%nat → repr k t (tr k ([r] ++ P)) →
  last_inner j t (Z.shiftr (leaf k r) (Z.of_nat j)) = Some (leaf k r).
Proof.
  induction j as [|j IH]; intros t Hj Hrep.
  { simpl. by rewrite Z.shiftr_0_r. }
  assert (Hrr : 0 ≤ r < K) by lia.
  pose proof (leaf_range k r Hrr) as Hlc. pose proof (K_pos k) as HK.
  replace (Z.of_nat (S j)) with (Z.of_nat j + 1) in * by lia.
  pose proof (node_range k _ (Z.of_nat j + 1) Hlc ltac:(lia)) as Hnd.
  pose proof (node_range k _ (Z.of_nat j) Hlc ltac:(lia)) as Hnd0.
  pose proof (K2_le k (Z.of_nat j) ltac:(lia)) as HK20.
  pose proof (shiftr_child (leaf k r) (Z.of_nat j) ltac:(lia) ltac:(lia)) as Hch.
  pose proof (node_log2 k _ (Z.of_nat j) Hlc ltac:(lia)) as Hlog0.
  set (nd := Z.shiftr (leaf k r) (Z.of_nat j + 1)) in *.
  set (nd0 := Z.shiftr (leaf k r) (Z.of_nat j)) in *.
  simpl last_inner. rewrite Z.shiftl_mul_pow2 by lia. change (2 ^ 1) with 2.
  assert (Hs : 0 < 2 ^ Z.of_nat j) by (apply Z.pow_pos_nonneg; lia).
  assert (Hqs : nd0 * 2 ^ Z.of_nat j ≤ leaf k r < (nd0 + 1) * 2 ^ Z.of_nat j).
  { apply shiftr_eq_iff; [lia|done]. }
  destruct (Z.odd nd0) eqn:Ho.
  - (* the leaf is in the right child *)
    assert (Hlogs : Z.log2 (nd * 2) = Z.of_nat k - Z.of_nat j).
    { replace (nd * 2) with (nd0 - 1) by lia.
      apply sibling_log2; [lia|lia|done]. }
    rewrite (repr_get k _ _ _ Hrep) by lia.
    assert (Hw : tr k ([r] ++ P) (nd * 2) = 0).
    { simpl app. rewrite tr_cons, Hlogs.
      replace (Z.of_nat k - (Z.of_nat k - Z.of_nat j)) with (Z.of_nat j) by lia.
      fold nd0. rewrite (proj2 (Z.eqb_neq nd0 (nd * 2))) by lia.
      rewrite (no_padding (nd * 2) (Z.of_nat j)); [done|lia|lia|].
      unfold leaf in Hqs. replace (nd * 2 + 1) with nd0 by lia. lia. }
    rewrite Hw. replace (nd * 2 + (1 - 0)) with nd0 by lia.
    apply IH; [lia|done].
  - (* the leaf is in the left child *)
    replace (nd * 2) with nd0 by lia.
    rewrite (repr_get k _ _ _ Hrep) by lia.
    assert (Hw : tr k ([r] ++ P) nd0 = 1).
    { simpl app. rewrite tr_cons, Hlog0.
      replace (Z.of_nat k - (Z.of_nat k - Z.of_nat j)) with (Z.of_nat j) by lia.
      fold nd0. rewrite Z.eqb_refl.
      rewrite (no_padding nd0 (Z.of_nat j)); [done|lia|lia|].
      pose proof (shape_ok (Z.of_nat k) e (Z.of_nat j) nd0 r (Z.of_nat n)
                    ltac:(lia) e_nonneg shape r_range eq_refl) as Hsh.
      rewrite <- Z.negb_odd, Ho in Hsh. specialize (Hsh eq_refl). lia. }
    rewrite Hw. replace (nd0 + (1 - 1)) with nd0 by lia.
    apply IH; [lia|done].
Qed.

End last.

(** ** The permutation of a digit sequence *)

Lemma digits_value_from_app f : ∀ i d,
  digits_value_from i (f ++ [d])
  = digits_value_from i f + d * Z.of_nat (fact (S (i + length f))).
Proof.
  induction f as [|c f IH]; intros i d; simpl digits_value_from.
  - rewrite Nat.add_0_r. simpl. lia.
  - rewrite IH. simpl length. replace (S i + length f)%nat with (i + S (length f))%nat by lia. lia.
Qed.

Lemma digits_rev_value_cons d ds m :
  digits_rev_value (d :: ds) m
  = d * Z.of_nat (fact (m - 1)) + digits_rev_value ds (m - 1).
Proof. done. Qed.

Lemma digits_rev_value_reverse f :
  digits_rev_value (reverse f) (S (length f)) = digits_value f.
Proof.
  unfold digits_value. induction f as [|d f IH] using rev_ind; [done|].
  rewrite reverse_snoc, length_app, digits_value_from_app, digits_rev_value_cons.
  change (length [d]) with 1%nat.
  replace (S (length f + 1) - 1)%nat with (S (length f)) by lia.
  rewrite IH. rewrite Nat.add_0_l. lia.
Qed.

Lemma log2_of_range x c :
  1 ≤ c ≤ 63 → 2 ^ (c - 1) < x ≤ 2 ^ c → Z.of_nat (log2 x) = c.
Proof.
  intros Hc Hx.
  assert (2 ^ c ≤ 2 ^ 63) by (apply Z.pow_le_mono_r; lia).
  assert (0 < 2 ^ (c - 1)) by (apply Z.pow_pos_nonneg; lia).
  rewrite Log2Facts.log2_bitlen by lia. unfold bitlen.
  rewrite (proj2 (Z.leb_gt _ _)) by lia.
  rewrite (Z.log2_unique (x - 1) (c - 1)); [lia|lia|].
  unfold Z.succ. replace (c - 1 + 1) with c by lia. lia.
Qed.

Lemma reverse_digits_valid (f : list Z) n :
  length f = (n - 1)%nat → (1 ≤ n)%nat →
  (∀ i d, f !! i = Some d → 0 ≤ d ≤ Z.of_nat i + 1) →
  ∀ i d, reverse f !! i = Some d → 0 ≤ d < Z.of_nat n - Z.of_nat i.
Proof.
  intros Hlen Hn Hf i d Hi.
  assert (i < length f)%nat.
  { apply lookup_lt_Some in Hi. by rewrite length_reverse in Hi. }
  rewrite reverse_lookup in Hi by done.
  specialize (Hf _ _ Hi). lia.
Qed.

Lemma shape_of_form (a b n : nat) :
  (b < a)%nat → n = (2 ^ a - 2 ^ b)%nat → Z.of_nat n < 2 ^ 63 →
  let k := log2 (Z.of_nat n) in
  (1 ≤ n)%nat ∧ Z.of_nat n ≤ 2 ^ Z.of_nat k ∧
  (Z.of_nat n = 2 ^ Z.of_nat k ∨ Z.of_nat n = 2 ^ Z.of_nat k - 2 ^ Z.of_nat b).
Proof.
  intros Hab Hn Hlt k.
  assert (Hpa : Z.of_nat (2 ^ a) = 2 ^ Z.of_nat a) by (by rewrite Nat2Z.inj_pow).
  assert (Hpb : Z.of_nat (2 ^ b) = 2 ^ Z.of_nat b) by (by rewrite Nat2Z.inj_pow).
  assert (Hb0 : 0 < 2 ^ Z.of_nat b) by (apply Z.pow_pos_nonneg; lia).
  assert (Hsplit : 2 ^ Z.of_nat a = 2 ^ (Z.of_nat a - Z.of_nat b) * 2 ^ Z.of_nat b)
    by (apply pow2_split; lia).
  assert (Hge2 : 2 ≤ 2 ^ (Z.of_nat a - Z.of_nat b)).
  { change 2 with (2 ^ 1) at 1. apply Z.pow_le_mono_r; lia. }
  assert (Hle : (2 ^ b ≤ 2 ^ a)%nat) by (apply Nat.pow_le_mono_r; lia).
  assert (HnZ : Z.of_nat n = 2 ^ Z.of_nat a - 2 ^ Z.of_nat b) by lia.
  assert (Ha1 : 2 ^ Z.of_nat a = 2 * 2 ^ (Z.of_nat a - 1)).
  { rewrite <- Z.pow_succ_r by lia. f_equal. lia. }
  assert (Hhalf : 2 ^ (Z.of_nat a - 1) ≤ Z.of_nat n) by nia.
  assert (Ha63 : Z.of_nat a ≤ 63).
  { destruct (Z.le_gt_cases (Z.of_nat a) 63); [done|].
    assert (2 ^ 63 ≤ 2 ^ (Z.of_nat a - 1)) by (apply Z.pow_le_mono_r; lia). lia. }
  split; [lia|].
  destruct (decide (Z.of_nat n = 2 ^ (Z.of_nat a - 1))) as [Heq|Hne].
  - (* a power of two *)
    assert (Hk : Z.of_nat k = Z.of_nat a - 1).
    { destruct (decide (a = 1)%nat) as [->|Ha].
      - assert (Z.of_nat n = 1) as Hn1 by (rewrite Heq; done).
        unfold k. rewrite Hn1. done.
      - unfold k. apply log2_of_range; [lia|]. rewrite Heq. split; [|lia].
        apply Z.pow_lt_mono_r; lia. }
    rewrite Hk. split; [lia|]. left. done.
  - assert (Hk : Z.of_nat k = Z.of_nat a).
    { unfold k. apply log2_of_range; [lia|]. lia. }
    rewrite Hk. split; [lia|]. right. done.
Qed.

Lemma LexPerm_digits_correct_aux (a b n : nat) (f : list Z) :
  (b < a)%nat → n = (2 ^ a - 2 ^ b)%nat → Z.of_nat n < 2 ^ 63 →
  length f = (n - 1)%nat →
  (∀ i d, f !! i = Some d → 0 ≤ d ≤ Z.of_nat i + 1) →
  ∃ p, LexPerm_digits f n = Some p ∧
       p ≡ₚ map Z.of_nat (seq 0 n) ∧
       LexRank p = Some (digits_value f).
Proof.
  intros Hab Hn Hlt Hlen Hf.
  destruct (shape_of_form a b n Hab Hn Hlt) as (Hn1 & HnK & Hshape).
  unfold LexPerm_digits. cbv zeta.
  set (k := log2 (Z.of_nat n)) in *.
  assert (HKnat : Z.of_nat (2 ^ k) = 2 ^ Z.of_nat k) by apply K_nat.
  set (P := map Z.of_nat (seq n (2 ^ k - n))).
  assert (HintsK : map Z.of_nat (seq 0 (2 ^ k)) = map Z.of_nat (seq 0 n) ++ P).
  { unfold P. rewrite <- map_app, <- seq_app. do 2 f_equal. lia. }
  assert (HP : ∀ u, u ∈ P → Z.of_nat n ≤ u < 2 ^ Z.of_nat k).
  { intros u (j & -> & Hj%elem_of_seq)%list_elem_of_fmap. lia. }
  assert (HPnd : NoDup P) by (apply (NoDup_fmap_2 Z.of_nat), NoDup_seq).
  destruct (init_rows_full k) as (t0 & Hinit & Hrep0).
  rewrite Hinit. rewrite HintsK in Hrep0.
  destruct (perm_loop_spec k n P HnK HP HPnd (reverse f) (map Z.of_nat (seq 0 n)) 0
              t0 (replicate n 0))
    as (ls & R' & t' & Hloop & Hlls & Hperm & Hrep' & Hrank).
  { apply (NoDup_fmap_2 Z.of_nat), NoDup_seq. }
  { intros u (j & -> & Hj%elem_of_seq)%list_elem_of_fmap. lia. }
  { rewrite length_map, length_seq. by apply reverse_digits_valid. }
  { rewrite length_reverse, length_replicate. lia. }
  { done. }
  rewrite !Z.shiftl_1_l. rewrite Hloop. rewrite length_reverse in Hlls.
  assert (HlenR' : length R' = 1%nat).
  { apply Permutation_length in Hperm.
    rewrite length_map, length_seq, length_app in Hperm. lia. }
  destruct R' as [|r [|]]; try done.
  assert (Hr : 0 ≤ r < Z.of_nat n).
  { assert (r ∈ map Z.of_nat (seq 0 n)) as (j & -> & Hj%elem_of_seq)%list_elem_of_fmap.
    { rewrite Hperm. apply elem_of_app. right. by left. }
    lia. }
  assert (Hlast : last_inner k t' (Z.shiftr (leaf k r) (Z.of_nat k)) = Some (leaf k r)).
  { apply (last_inner_spec k n P r (Z.of_nat b)); (done || lia). }
  assert (Hroot : Z.shiftr (leaf k r) (Z.of_nat k) = 1).
  { pose proof (node_range k (leaf k r) (Z.of_nat k) (leaf_range k r ltac:(lia)) ltac:(lia)) as H.
    rewrite Z.sub_diag in H. simpl in H. lia. }
  rewrite Hroot in Hlast. rewrite Hlast.
  simpl take. rewrite length_reverse, Nat.add_0_l, Hlen.
  replace (drop (n - 1) (replicate n 0)) with [0].
  2: { rewrite drop_replicate. by replace (n - (n - 1))%nat with 1%nat by lia. }
  simpl app. rewrite <- Hlen, <- Hlls.
  rewrite SJTEFacts.store_app.
  replace (leaf k r - 2 ^ Z.of_nat k) with r by (unfold leaf; lia).
  exists (ls ++ [r]). split; [done|]. split; [by symmetry|].
  assert (Hlp : length (ls ++ [r]) = n) by (rewrite length_app; simpl; lia).
  rewrite LexRank_below_aux; [|rewrite Hlp; by symmetry|by rewrite Hlp].
  rewrite below_arrangements; [|rewrite <- Hperm; apply (NoDup_fmap_2 Z.of_nat), NoDup_seq|done].
  rewrite (Hrank [r]) by done. rewrite length_map, length_seq.
  replace n with (S (length f)) at 1 by lia. rewrite digits_rev_value_reverse.
  f_equal. simpl. unfold smaller. simpl. lia.
Qed.

(** ** LexPerm and LexRank are inverse to each other *)



(** X19. For a size [n] of the form [2^a - 2^b] with [b < a] (1, 2, 3, 4,
    6, 7, 8, 12, 14, 15, 16, ...), the body of [LexPerm] is right: handed
    [n - 1] factoradic digits [f], where [0 <= f[i] <= i + 1], it returns
    without panic the permutation of [0 .. n-1] whose rank by [LexRank] is
    the value of the digits, the sum of the [f[i] * (i+1)!]. *)
Theorem LexPerm_digits_correct (a b n : nat) (f : list Z) :
  (b < a)%nat → n = (2 ^ a - 2 ^ b)%nat → Z.of_nat n < 2 ^ 63 →
  length f = (n - 1)%nat →
  (∀ i d, f !! i = Some d → 0 ≤ d ≤ Z.of_nat i + 1) →
  ∃ p, LexPerm_digits f n = Some p ∧
       p ≡ₚ map Z.of_nat (seq 0 n) ∧
       LexRank p = Some (digits_value f).
Proof. apply LexPerm_digits_correct_aux. Qed.

Lemma LexPerm_digits_correct_witness :
  ∃ p, LexPerm_digits [1; 2] 3 = Some p ∧
       p ≡ₚ [0; 1; 2] ∧
       LexRank p = Some 5.
Proof.
  apply (LexPerm_digits_correct 2 0 3 [1; 2]); [lia|reflexivity|reflexivity|reflexivity|].
  intros [|[|i]] d H; simpl in H; [injection H as <-; lia..|done].
Defined.





End Unrank.

(** * LexRank: the slices on which it returns *)

Module RankDomain.
Import Rank.
Local Open Scope Z_scope.

Lemma land_1_odd nd : (Z.land nd 1 =? 1) = Z.odd nd.
Proof.
  change 1 with (Z.ones 1) at 1. rewrite Z.land_ones by lia.
  change (2 ^ 1) with 2. rewrite Zmod_odd. by destruct (Z.odd nd).
Qed.

Lemma getZ_None (t : list Z) i :
  i < 0 ∨ Z.of_nat (length t) ≤ i → Slice.getZ t i = None.
Proof.
  intros H. unfold Slice.getZ. destruct (Z.leb_spec 0 i); [|done].
  apply lookup_ge_None. lia.
Qed.

Lemma getZ_Some (t : list Z) i :
  0 ≤ i < Z.of_nat (length t) → ∃ v, Slice.getZ t i = Some v.
Proof.
  intros H. unfold Slice.getZ. rewrite (proj2 (Z.leb_le 0 i)) by lia.
  apply lookup_lt_is_Some. lia.
Qed.

Lemma setZ_Some (t : list Z) i v :
  0 ≤ i < Z.of_nat (length t) →
  ∃ t', Slice.setZ t i v = Some t' ∧ length t' = length t.
Proof.
  intros H. unfold Slice.setZ, Slice.store. rewrite (proj2 (Z.leb_le 0 i)) by lia.
  rewrite decide_True by lia. eexists. split; [done|]. by rewrite length_insert.
Qed.

Lemma setZ_length (t t' : list Z) i v :
  Slice.setZ t i v = Some t' → length t' = length t.
Proof.
  unfold Slice.setZ, Slice.store. destruct (0 <=? i); [|done].
  destruct (decide _); [|done]. intros [= <-]. by rewrite length_insert.
Qed.

(** The inner loop keeps the length of the array, and returns when it
    starts at a node inside the array. *)
Lemma rank_inner_length j : ∀ t nd c t' nd' c',
  rank_inner j t nd c = Some (t', nd', c') → length t' = length t.
Proof.
  induction j as [|j IH]; intros t nd c t' nd' c'; simpl.
  - by intros [= <- _ _].
  - destruct (if Z.land nd 1 =? 1 then _ else _) as [c1|]; [|done].
    destruct (Slice.getZ t nd) as [v|]; [|done].
    destruct (Slice.setZ t nd (v + 1)) as [t1|] eqn:Es; [|done].
    intros H. apply IH in H. rewrite H. by eapply setZ_length.
Qed.

Lemma rank_inner_safe j : ∀ t nd c,
  0 ≤ nd < Z.of_nat (length t) →
  ∃ t' c', rank_inner j t nd c = Some (t', Z.shiftr nd (Z.of_nat j), c').
Proof.
  induction j as [|j IH]; intros t nd c Hnd.
  - exists t, c. simpl. by rewrite Z.shiftr_0_r.
  - simpl rank_inner. rewrite land_1_odd.
    assert (∃ c1, (if Z.odd nd
                   then option_map (λ x, c - x) (Slice.getZ t (Z.ldiff nd 1))
                   else Some c) = Some c1) as [c1 ->].
    { destruct (Z.odd nd) eqn:Ho; [|by eexists].
      rewrite RankTree.ldiff_odd by done.
      assert (nd ≠ 0) by (intros ->; done).
      destruct (getZ_Some t (nd - 1) ltac:(lia)) as [v ->]. by eexists. }
    destruct (getZ_Some t nd Hnd) as [v ->].
    destruct (setZ_Some t nd (v + 1) Hnd) as (t1 & -> & Hl1).
    destruct (IH t1 (Z.shiftr nd 1) c1) as (t' & c' & ->).
    { rewrite Hl1. rewrite Z.shiftr_div_pow2 by lia. change (2 ^ 1) with 2.
      Z.div_mod_to_equations. lia. }
    exists t', c'. rewrite Z.shiftr_shiftr by lia.
    by replace (1 + Z.of_nat j) with (Z.of_nat (S j)) by lia.
Qed.

(** An element whose leaf is outside the array: the first access of its
    round is out of range. *)
Lemma rank_step_bad k (t : list Z) nd c :
  Z.even (Z.of_nat (length t)) = true →
  nd < 0 ∨ Z.of_nat (length t) ≤ nd →
  match rank_inner k t nd c with
  | Some (t1, nd1, c1) =>
      match Slice.getZ t1 nd1 with
      | Some v => Some v
      | None => None
      end
  | None => None
  end = None.
Proof.
  intros Hev Hnd. destruct k as [|k].
  - simpl. by rewrite getZ_None.
  - simpl rank_inner. rewrite land_1_odd.
    destruct (Z.odd nd) eqn:Ho.
    + rewrite RankTree.ldiff_odd by done. rewrite getZ_None; [done|].
      destruct Hnd as [Hnd|Hnd]; [lia|]. right.
      assert (nd ≠ Z.of_nat (length t)); [|lia].
      intros ->. rewrite <- Z.negb_even, Hev in Ho. done.
    + by rewrite getZ_None.
Qed.

Section bounds.
Variable k : nat.
Local Abbreviation K := (2 ^ Z.of_nat k).

Lemma rank_loop_safe n p : ∀ i t r,
  Forall (λ c, - K ≤ c < K) p → Z.of_nat (length t) = 2 * K →
  ∃ r', rank_loop k n p i t r = Some r'.
Proof.
  induction p as [|c p IH]; intros i t r Hp Hlen; [by eexists|].
  apply Forall_cons_1 in Hp as [Hc Hp].
  simpl rank_loop. rewrite Z.shiftl_1_l.
  destruct (rank_inner_safe k t (K + c) c ltac:(lia)) as (t1 & c1 & Hin).
  rewrite Hin. pose proof (rank_inner_length _ _ _ _ _ _ _ Hin) as Hl1.
  assert (Hnd1 : 0 ≤ Z.shiftr (K + c) (Z.of_nat k) < Z.of_nat (length t1)).
  { rewrite Hl1, Hlen. rewrite Z.shiftr_div_pow2 by lia.
    pose proof (RankTree.K_pos k).
    split; [apply Z.div_pos; lia|]. apply Z.div_lt_upper_bound; [lia|]. nia. }
  destruct (getZ_Some t1 _ Hnd1) as [v ->].
  destruct (setZ_Some t1 _ (v + 1) Hnd1) as (t2 & -> & Hl2).
  apply IH; [done|]. by rewrite Hl2, Hl1.
Qed.

Lemma rank_loop_bad n p : ∀ i t r,
  Exists (λ c, ¬ (- K ≤ c < K)) p → Z.of_nat (length t) = 2 * K →
  rank_loop k n p i t r = None.
Proof.
  induction p as [|c p IH]; intros i t r Hp Hlen; [by apply Exists_nil in Hp|].
  simpl rank_loop. rewrite Z.shiftl_1_l.
  apply Exists_cons in Hp as [Hc|Hp].
  - pose proof (rank_step_bad k t (K + c) c) as Hbad.
    rewrite Hlen in Hbad. rewrite Z.even_mul in Hbad. specialize (Hbad eq_refl ltac:(lia)).
    destruct (rank_inner k t (K + c) c) as [[[t1 nd1] c1]|]; [|done].
    by destruct (Slice.getZ t1 nd1).
  - destruct (rank_inner k t (K + c) c) as [[[t1 nd1] c1]|] eqn:Hin; [|done].
    pose proof (rank_inner_length _ _ _ _ _ _ _ Hin) as Hl1.
    destruct (Slice.getZ t1 nd1) as [v|]; [|done].
    destruct (Slice.setZ t1 nd1 (v + 1)) as [t2|] eqn:Hs; [|done].
    apply IH; [done|]. apply setZ_length in Hs. by rewrite Hs, Hl1.
Qed.

End bounds.

(** X22. [LexRank] returns exactly on the slices whose elements all lie in
    [-2^k .. 2^k - 1], for [k = log2(len(p))]; on every other slice it
    panics with an index out of range. *)
Theorem LexRank_returns_iff (p : list Z) :
  is_Some (LexRank p) ↔
  Forall (λ c, - 2 ^ Z.of_nat (log2 (Z.of_nat (length p))) ≤ c
               < 2 ^ Z.of_nat (log2 (Z.of_nat (length p)))) p.
Proof.
  unfold LexRank. cbv zeta. set (k := log2 (Z.of_nat (length p))).
  assert (Hlen : Z.of_nat (length (replicate (Z.to_nat (Z.shiftl 1 (Z.of_nat k + 1))) 0))
                 = 2 * 2 ^ Z.of_nat k).
  { rewrite length_replicate, Z.shiftl_1_l, Z.pow_add_r by lia.
    pose proof (RankTree.K_pos k). lia. }
  split.
  - intros Hs.
    destruct (decide (Forall (λ c, - 2 ^ Z.of_nat k ≤ c < 2 ^ Z.of_nat k) p))
      as [|Hn]; [done|].
    apply not_Forall_Exists in Hn; [|apply _].
    rewrite (rank_loop_bad k _ p 0 _ 0) in Hs; [by destruct Hs| |done].
    revert Hn. apply List.Exists_impl. done.
  - intros Hp. destruct (rank_loop_safe k (length p) p 0 _ 0 Hp Hlen) as [r ->].
    by eexists.
Qed.

End RankDomain.
